(** * Interactive skills network: loader and Plotly encoding pipeline

    A shallow embedding of [streamlit_v3.py]: the GraphML loader
    [load_all_networks] and the figure builder [create_plotly_graph],
    together with the parts of [networkx], [os] and the Python builtins
    they call.

    Conventions.
    - Python [int] is [Z].  Python [float] arithmetic (the size formula of
      lines 92-93) is IEEE 754 binary64 as the Standard Library's
      [SpecFloat] specifies it, every operation rounded to nearest, ties to
      even; [a / b] on ints is [truediv].  Floats that the program only
      stores, compares and passes on (layout positions, attribute values)
      are carried as the rational they stand for.
    - A raised exception is the [Raise] case of [result]; code that threads
      a mutable object runs in the state-and-exception monad [M].
    - Python dicts whose iteration order is observable (the node and
      adjacency dicts of a graph) are lists in insertion order; the other
      dicts are [gmap]s. *)

From Stdlib Require Import ZArith QArith Qpower Lia Lqa SpecFloat.
From stdpp Require Import base option list strings gmap pretty.

#[local] Set Warnings "-clear-no-such-hyp".

Local Open Scope Z_scope.

(** ** Exceptions and the state-and-exception monad *)

Inductive exn : Type :=
| KeyError (key : string)
| ValueError (msg : string)
| TypeError
| ZeroDivisionError
| OverflowError
| FileNotFoundError
| NotADirectoryError
| GraphMLError (msg : string).

Inductive result (A : Type) : Type :=
| Raise (e : exn)
| Ok (a : A).
Arguments Raise {A} e.
Arguments Ok {A} a.

Definition is_ok {A} (r : result A) : bool :=
  match r with Ok _ => true | Raise _ => false end.

(** A computation over a mutable store [S]: it returns or raises, and in
    both cases leaves a store behind. *)
Definition M (S A : Type) : Type := S → result A * S.

Definition ret {S A} (a : A) : M S A := λ s, (Ok a, s).

Definition raise {S A} (e : exn) : M S A := λ s, (Raise e, s).

Definition bind {S A B} (c : M S A) (k : A → M S B) : M S B :=
  λ s, match c s with
       | (Ok a, s') => k a s'
       | (Raise e, s') => (Raise e, s')
       end.

Definition lift {S A} (r : result A) : M S A := λ s, (r, s).

Definition gets {S A} (f : S → A) : M S A := λ s, (Ok (f s), s).

Definition modify {S} (f : S → S) : M S unit := λ s, (Ok tt, f s).

(** [try: c except: h] *)
Definition try_except {S A} (c : M S A) (h : exn → M S A) : M S A :=
  λ s, match c s with
       | (Ok a, s') => (Ok a, s')
       | (Raise e, s') => h e s'
       end.

Notation "x <~ c ;; k" := (bind c (λ x, k))
  (at level 100, c at next level, right associativity).

(** [for x in l: acc = body x acc] *)
Fixpoint for_each {S A B} (l : list A) (body : A → B → M S B) (acc : B)
  : M S B :=
  match l with
  | [] => ret acc
  | x :: l' => acc' <~ body x acc ;; for_each l' body acc'
  end.

(** ** Python values and builtins *)

(** The values a GraphML node attribute can hold. *)
Inductive value : Type :=
| VBool (b : bool)
| VInt (z : Z)
| VFloat (q : Q)
| VStr (s : string).

Definition is_str (v : value) : bool :=
  match v with VStr _ => true | _ => false end.

Definition is_num (v : value) : bool :=
  match v with VStr _ => false | _ => true end.

Definition num_of (v : value) : Q :=
  match v with
  | VBool b => if b then 1%Q else 0%Q
  | VInt z => inject_Z z
  | VFloat q => q
  | VStr _ => 0%Q
  end.

(** [a < b]: numbers (bools among them) compare with numbers, strings with
    strings; anything else is a [TypeError]. *)
Definition value_lt (a b : value) : result bool :=
  match a, b with
  | VStr s, VStr t => Ok (String.ltb s t)
  | VStr _, _ | _, VStr _ => Raise TypeError
  | _, _ => Ok (negb (Qle_bool (num_of b) (num_of a)))
  end.

(** The scan of [min(l)] / [max(l)] after the first item: [better x cur]
    decides whether [x] replaces the current candidate. *)
Fixpoint scan_best {A} (better : A → A → result bool) (cur : A) (l : list A)
  : result A :=
  match l with
  | [] => Ok cur
  | x :: l' =>
      match better x cur with
      | Raise e => Raise e
      | Ok true => scan_best better x l'
      | Ok false => scan_best better cur l'
      end
  end.

Definition py_best {A} (better : A → A → result bool) (what : string)
    (l : list A) : result A :=
  match l with
  | [] => Raise (ValueError (what +:+ "() arg is an empty sequence"))
  | x :: l' => scan_best better x l'
  end.

(** [min] and [max] on a list of ints. *)
Definition int_min (l : list Z) : result Z :=
  py_best (λ x cur, Ok (x <? cur)) "min" l.
Definition int_max (l : list Z) : result Z :=
  py_best (λ x cur, Ok (cur <? x)) "max" l.

(** [min] and [max] on a list of attribute values. *)
Definition value_min (l : list value) : result value :=
  py_best (λ x cur, value_lt x cur) "min" l.
Definition value_max (l : list value) : result value :=
  py_best (λ x cur, value_lt cur x) "max" l.

(** ** Python floats

    A Python float is an IEEE 754 binary64 number: [spec_float] with a
    53-bit mantissa and exponents up to 1024.  The operations are those of
    [SpecFloat], each rounded to nearest, ties to even. *)

Module f64.

Definition prec : Z := 53.
Definition emax : Z := 1024.

Definition add : spec_float → spec_float → spec_float := SFadd prec emax.
Definition mul : spec_float → spec_float → spec_float := SFmul prec emax.
Definition div : spec_float → spec_float → spec_float := SFdiv prec emax.

(** [float(z)], the nearest double; exact up to [2^53]. *)
Definition of_int (z : Z) : spec_float := binary_normalize prec emax z 0 false.

(** An int as an operand of [/]: the mantissa is the int itself, so that
    the quotient of two ints of any size is rounded once. *)
Definition of_int_exact (z : Z) : spec_float :=
  match z with
  | 0 => S754_zero false
  | Z.pos p => S754_finite false p 0
  | Z.neg p => S754_finite true p 0
  end.

(** The rational [m * 2^e]. *)
Definition val (m e : Z) : Q := inject_Z m * 2 ^ e.

(** The number a finite double stands for. *)
Definition to_Q (x : spec_float) : Q :=
  match x with
  | S754_finite s m e => val (if s then Z.neg m else Z.pos m) e
  | _ => 0
  end.

Definition is_finite (x : spec_float) : bool :=
  match x with
  | S754_zero _ | S754_finite _ _ _ => true
  | _ => false
  end.

(** A mantissa on the grid of its own binade: the form in which the
    format holds a number. *)
Definition canonical (mb : positive) (eb : Z) : Prop :=
  fexp prec emax (Z.pos (digits2_pos mb) + eb) = eb.

(** The upper end of the interval that a mantissa with a rounding
    location stands for. *)
Definition upper (m : Z) (l : location) : Z :=
  match l with loc_Exact => m | _ => m + 1 end.

End f64.

(** [x + y] and [x * y] on floats; an int operand is converted first. *)
Definition fadd (x y : spec_float) : spec_float := f64.add x y.
Definition fmul (x y : spec_float) : spec_float := f64.mul x y.

(** [a / b] on ints: true division, the quotient rounded to the nearest
    double; [OverflowError] when that is out of range. *)
Definition truediv (a b : Z) : result spec_float :=
  if b =? 0 then Raise ZeroDivisionError
  else match f64.div (f64.of_int_exact a) (f64.of_int_exact b) with
       | S754_infinity _ => Raise OverflowError
       | q => Ok q
       end.

(** [d[k]] on a dict. *)
Definition getitem {V} (d : gmap string V) (k : string) : result V :=
  match d !! k with
  | Some v => Ok v
  | None => Raise (KeyError k)
  end.

(** ** The networkx graph

    An undirected graph of networkx, [nx.Graph] or [nx.MultiGraph], keeps
    two dicts with the same keys in the same order: [_node] (node to
    attribute dict) and [_adj] (node to neighbour dict).  In a
    [MultiGraph] the neighbour dict holds for each neighbour a dict with
    one key per parallel edge.  A [node_row] is one key of [_node] and
    [_adj]: the node, its attribute dict and the keys of its neighbour
    dict in insertion order, a neighbour standing once for every edge to
    it (in an [nx.Graph], once).  Edge keys and edge attributes are never
    read by this program and are left out.  The directed classes
    [nx.DiGraph] and [nx.MultiDiGraph] are not covered. *)

Record node_row : Type := mk_row {
  nid : string;
  ndata : gmap string value;
  nbrs : list string
}.

Abbreviation Graph := (list node_row).

Module nx.

(** [G.nodes()] / iteration over [G] *)
Definition nodes (G : Graph) : list string := map nid G.

(** [G.number_of_nodes()] is [len(self._node)]. *)
Definition number_of_nodes (G : Graph) : Z := Z.of_nat (length G).

(** The position and row of node [n] in the node dict. *)
Fixpoint find_row (G : Graph) (n : string) : option (nat * node_row) :=
  match G with
  | [] => None
  | r :: G' =>
      if String.eqb (nid r) n then Some (O, r)
      else match find_row G' n with
           | Some (i, r') => Some (S i, r')
           | None => None
           end
  end.

(** The number of edges to [v] in a neighbour dict: [len(nbrs[v])] in a
    [MultiGraph], [v in nbrs] in a [Graph]. *)
Definition multiplicity (v : string) (l : list string) : nat :=
  length (filter (λ x, x = v) l).

(** One item of the degree view, so that a self-loop counts twice:
    [len(nbrs) + (n in nbrs)] in a [Graph],
    [sum(len(keys) for keys in nbrs.values()) + (n in nbrs and len(nbrs[n]))]
    in a [MultiGraph]. *)
Definition row_degree (r : node_row) : Z :=
  Z.of_nat (length (nbrs r)) + Z.of_nat (multiplicity (nid r) (nbrs r)).

(** [G.degree()] iterated: one [(node, degree)] pair per node. *)
Definition degree_view (G : Graph) : list (string * Z) :=
  map (λ r, (nid r, row_degree r)) G.

(** [G.degree[n]] *)
Definition degree (G : Graph) (n : string) : result Z :=
  match find_row G n with
  | Some (_, r) => Ok (row_degree r)
  | None => Raise (KeyError n)
  end.

(** [G.edges()] iterated: every adjacency entry whose neighbour has not
    been visited as a node yet, in adjacency order.
<<
    seen = {}
    for n, nbrs in self._nodes_nbrs():
        for nbr in list(nbrs):
            if nbr not in seen:
                yield (n, nbr)
        seen[n] = 1
>>
    In a [MultiGraph] the inner loop runs over [nbrs.items()] and yields
    [(n, nbr)] once for every key of the neighbour's key dict. *)
Fixpoint edges_from (seen : gset string) (G : Graph) : list (string * string) :=
  match G with
  | [] => []
  | r :: G' =>
      map (λ nbr, (nid r, nbr))
          (filter (λ nbr, nbr ∉ seen) (nbrs r))
      ++ edges_from (seen ∪ {[nid r]}) G'
  end.

Definition edges (G : Graph) : list (string * string) := edges_from ∅ G.

(** [G.size()] is [sum(d for v, d in self.degree()) // 2]. *)
Definition size (G : Graph) : Z :=
  (foldr Z.add 0 (map snd (degree_view G))) `div` 2.

(** [G.number_of_edges()] *)
Definition number_of_edges (G : Graph) : Z := size G.

(** [G.add_node(n, **attr)] *)
Definition add_node (n : string) (attr : gmap string value) (G : Graph) : Graph :=
  match find_row G n with
  | Some (i, r) => <[i := mk_row n (attr ∪ ndata r) (nbrs r)]> G
  | None => G ++ [mk_row n attr []]
  end.

Definition add_nbr (u v : string) (G : Graph) : Graph :=
  match find_row G u with
  | Some (i, r) =>
      if bool_decide (v ∈ nbrs r) then G
      else <[i := mk_row u (ndata r) (nbrs r ++ [v])]> G
  | None => G
  end.

(** [Graph.add_edge(u, v)]: both ends are added as nodes when missing,
    then each is entered in the other's neighbour dict. *)
Definition add_edge (u v : string) (G : Graph) : Graph :=
  add_nbr v u (add_nbr u v (add_node v ∅ (add_node u ∅ G))).

(** A further key for [v] in a neighbour dict: [v] keeps its place, or
    comes last when it is new. *)
Fixpoint insert_nbr (v : string) (l : list string) : list string :=
  match l with
  | [] => [v]
  | x :: l' => if String.eqb x v then v :: x :: l' else x :: insert_nbr v l'
  end.

Definition add_key (u v : string) (G : Graph) : Graph :=
  match find_row G u with
  | Some (i, r) => <[i := mk_row u (ndata r) (insert_nbr v (nbrs r))]> G
  | None => G
  end.

(** [MultiGraph.add_edge(u, v)]: both ends are added as nodes when
    missing, then the edge gets a new key in the key dict that the two
    ends share (one dict of their own for a self-loop). *)
Definition add_parallel_edge (u v : string) (G : Graph) : Graph :=
  let G' := add_node v ∅ (add_node u ∅ G) in
  if String.eqb u v then add_key u v G' else add_key v u (add_key u v G').

(** The invariant networkx keeps on an undirected graph: node keys are
    distinct, every neighbour is a node, and the two ends of an edge
    have each other as neighbours, as many times one way as the other.
    A graph that has it is called well-formed below. *)
Definition wf_row (G : Graph) (r : node_row) : bool :=
  forallb (λ v, match find_row G v with
                | Some (_, r') =>
                    Nat.eqb (multiplicity (nid r) (nbrs r')) (multiplicity v (nbrs r))
                | None => false
                end) (nbrs r).

Definition wf (G : Graph) : bool :=
  bool_decide (NoDup (nodes G)) && forallb (wf_row G) G.

(** What an [nx.Graph] has on top: no neighbour twice. *)
Definition simple (G : Graph) : bool :=
  forallb (λ r, bool_decide (NoDup (nbrs r))) G.

End nx.

(** ** The Plotly figure

    [go.Scatter] and [go.Figure] store what they are given; the figure
    is the data of the two traces.  The constant styling arguments (line
    width, colour scale name, margins, height) are left out, and so is
    the validation Plotly does on what it is given: it accepts numbers
    as colours and colour bounds, and raises [ValueError] on a colour
    bound that is text, so a figure that is returned here for community
    values that are all text is not returned by the program. *)

Record Figure : Type := mk_figure {
  edge_trace_x : list (option Q);
  edge_trace_y : list (option Q);
  node_trace_x : list Q;
  node_trace_y : list Q;
  hovertext : list string;
  marker_size : list spec_float;
  marker_color : list value;
  marker_cmin : value;
  marker_cmax : value
}.

(** The five lists filled by the node loop. *)
Record node_lists : Type := mk_node_lists {
  node_x : list Q;
  node_y : list Q;
  node_text : list string;
  node_sizes : list spec_float;
  node_colors : list value
}.

Abbreviation Layout := (gmap string (Q * Q)).

Section Pipeline.

(** The random generator of numpy, the force-directed placement of
    networkx and the text of a float are taken as given. *)
Context {rng : Type}.
Variable RandomState : Z → rng.
Variable fruchterman_reingold : Graph → Q → nat → rng → Layout * rng.
Variable float_str : Q → string.

(** What a call can read or change: the graph object it was handed and
    the process-wide generator [np.random]. *)
Record world : Type := mk_world {
  nx_graph : Graph;
  np_random : rng
}.

(** [nx.spring_layout(G, k=, iterations=, seed=)]: an int seed makes a
    generator of its own; without a seed the process-wide generator is
    drawn from and advanced. *)
Definition spring_layout (k : Q) (iterations : nat) (seed : option Z)
  : M world Layout :=
  λ w, match seed with
       | Some s =>
           (Ok (fruchterman_reingold (nx_graph w) k iterations (RandomState s)).1, w)
       | None =>
           let out := fruchterman_reingold (nx_graph w) k iterations (np_random w) in
           (Ok out.1, mk_world (nx_graph w) out.2)
       end.

(** [nx_graph.degree()] *)
Definition graph_degree_view : M world (list (string * Z)) :=
  gets (λ w, nx.degree_view (nx_graph w)).

(** [nx_graph.nodes()] *)
Definition graph_nodes : M world (list string) :=
  gets (λ w, nx.nodes (nx_graph w)).

(** [nx_graph.edges()] *)
Definition graph_edges : M world (list (string * string)) :=
  gets (λ w, nx.edges (nx_graph w)).

(** [nx_graph.nodes[node]]: a reference to the node's own attribute dict,
    here the index of its row. *)
Definition graph_node_data (node : string) : M world nat :=
  λ w, match nx.find_row (nx_graph w) node with
       | Some (i, _) => (Ok i, w)
       | None => (Raise (KeyError node), w)
       end.

(** [nx_graph.degree[node]] *)
Definition graph_degree (node : string) : M world Z :=
  λ w, (nx.degree (nx_graph w) node, w).

(** [node_data.get(key, default)] through the reference *)
Definition data_get (node_data : nat) (key : string) (dflt : value)
  : M world value :=
  gets (λ w, match nx_graph w !! node_data with
             | Some r => default dflt (ndata r !! key)
             | None => dflt
             end).

(** [str(v)] inside an f-string *)
Definition str_value (v : value) : string :=
  match v with
  | VBool b => if b then "True" else "False"
  | VInt z => pretty z
  | VFloat q => float_str q
  | VStr s => s
  end.

Definition hover_info (node : string) (degree_count : Z) (community_id : value)
  : string :=
  "<b>" +:+ node +:+ "</b><br>"
  +:+ "Degree: " +:+ pretty degree_count +:+ "<br>"
  +:+ "Community ID: " +:+ str_value community_id.

(** Lines 68-76: the offset and the divisor of the min-max scaling. *)
Definition degree_scale (raw_degrees : list Z) : result (Z * Z) :=
  if (0 <? length raw_degrees)%nat then
    match int_min raw_degrees with
    | Raise e => Raise e
    | Ok min_deg =>
        match int_max raw_degrees with
        | Raise e => Raise e
        | Ok max_deg =>
            let degree_range := max_deg - min_deg in
            let degree_range := if degree_range =? 0 then 1 else degree_range in
            Ok (min_deg, degree_range)
        end
    end
  else Ok (0, 1).

(** Lines 79-105: the body of the loop over nodes. *)
Definition node_body (pos : Layout) (min_deg degree_range : Z)
    (node : string) (acc : node_lists) : M world node_lists :=
  xy <~ lift (getitem pos node) ;;
  node_data <~ graph_node_data node ;;
  degree_count <~ graph_degree node ;;
  community_id <~ data_get node_data "community_id" (VInt 0) ;;
  normalized_size <~ lift (truediv (degree_count - min_deg) degree_range) ;;
  let final_size := fadd (f64.of_int 10) (fmul normalized_size (f64.of_int 40)) in
  ret (mk_node_lists
         (node_x acc ++ [xy.1])
         (node_y acc ++ [xy.2])
         (node_text acc ++ [hover_info node degree_count community_id])
         (node_sizes acc ++ [final_size])
         (node_colors acc ++ [community_id])).

(** Lines 111-115: the body of the loop over edges. *)
Definition edge_body (pos : Layout) (edge : string * string)
    (acc : list (option Q) * list (option Q))
  : M world (list (option Q) * list (option Q)) :=
  p0 <~ lift (getitem pos edge.1) ;;
  p1 <~ lift (getitem pos edge.2) ;;
  ret (acc.1 ++ [Some p0.1; Some p1.1; None],
       acc.2 ++ [Some p0.2; Some p1.2; None]).

(** The positions line 53 computes for [G]. *)
Definition layout_of (G : Graph) : Layout :=
  (fruchterman_reingold G (3 # 10) 50%nat (RandomState 42)).1.

Definition create_plotly_graph (network_name : string) : M world Figure :=
  pos <~ spring_layout (3 # 10) 50 (Some 42) ;;
  degs <~ graph_degree_view ;;
  let raw_degrees := map snd degs in
  scale <~ lift (degree_scale raw_degrees) ;;
  nodes <~ graph_nodes ;;
  ls <~ for_each nodes (node_body pos scale.1 scale.2)
          (mk_node_lists [] [] [] [] []) ;;
  edges <~ graph_edges ;;
  es <~ for_each edges (edge_body pos) ([], []) ;;
  cmin <~ lift (match node_colors ls with
                | [] => Ok (VInt 0)
                | _ => value_min (node_colors ls)
                end) ;;
  cmax <~ lift (match node_colors ls with
                | [] => Ok (VInt 1)
                | _ => value_max (node_colors ls)
                end) ;;
  ret (mk_figure es.1 es.2 (node_x ls) (node_y ls) (node_text ls)
         (node_sizes ls) (node_colors ls) cmin cmax).

End Pipeline.


(** ** Strings and paths *)

(** [s.startswith(p)] *)
Definition startswith (s p : string) : bool := String.prefix p s.

(** [s.endswith(suf)]: some tail of [s] is [suf]. *)
Fixpoint endswith (s suf : string) : bool :=
  if String.eqb s suf then true
  else match s with
       | EmptyString => false
       | String _ s' => endswith s' suf
       end.

(** The left-to-right scan of [s.replace(old, new)] for a non-empty [old]:
    [skip] counts the characters of a match still to be dropped. *)
Fixpoint replace_scan (old new : string) (skip : nat) (s : string) : string :=
  match s with
  | EmptyString => EmptyString
  | String c s' =>
      match skip with
      | S k => replace_scan old new k s'
      | O =>
          if String.prefix old s
          then new +:+ replace_scan old new (String.length old - 1) s'
          else String c (replace_scan old new O s')
      end
  end.

Fixpoint intersperse_str (new s : string) : string :=
  match s with
  | EmptyString => EmptyString
  | String c s' => String c (new +:+ intersperse_str new s')
  end.

(** [s.replace(old, new)]: every non-overlapping occurrence, leftmost
    first; an empty [old] matches before every character and at the end. *)
Definition replace (s old new : string) : string :=
  match old with
  | EmptyString => new +:+ intersperse_str new s
  | _ => replace_scan old new O s
  end.

Module os.

(** What a path names. *)
Inductive entry : Type :=
| Missing
| RegularFile
| Directory (names : list string).

Definition exists_ (fs : string → entry) (path : string) : bool :=
  match fs path with Missing => false | _ => true end.

Definition listdir (fs : string → entry) (path : string) : result (list string) :=
  match fs path with
  | Directory names => Ok names
  | RegularFile => Raise NotADirectoryError
  | Missing => Raise FileNotFoundError
  end.

(** [os.path.join(a, b)] on POSIX *)
Definition join (a b : string) : string :=
  if startswith b "/" then b
  else if String.eqb a EmptyString || endswith a "/" then a +:+ b
  else a +:+ "/" +:+ b.

End os.

(** ** The loader *)

(** Line 38: the file name with every [.graphml] in it removed. *)
Definition network_name_of (filename : string) : string :=
  replace filename ".graphml" EmptyString.

Section Loader.

(** The file system, the GraphML parser of networkx, [float] on a string
    and the text of an exception are taken as given. *)
Variable fs : string → os.entry.
Variable read_graphml : string → result Graph.
Variable float_of_string : string → option Q.
Variable str_exn : exn → string.

(** [float(v)] *)
Definition py_float (v : value) : result Q :=
  match v with
  | VBool b => Ok (if b then 1%Q else 0%Q)
  | VInt z => Ok (inject_Z z)
  | VFloat q => Ok q
  | VStr s =>
      match float_of_string s with
      | Some q => Ok q
      | None => Raise (ValueError "could not convert string to float")
      end
  end.

(** [G.nodes(data=True)]: each node with a reference to its own
    attribute dict (the index of its row), not a copy. *)
Definition nodes_data : M Graph (list (string * nat)) :=
  gets (λ G, imap (λ i r, (nid r, i)) G).

(** [key in data] *)
Definition data_contains (data : nat) (key : string) : M Graph bool :=
  gets (λ G, match G !! data with
             | Some r => bool_decide (is_Some (ndata r !! key))
             | None => false
             end).

(** [data[key]] *)
Definition data_getitem (data : nat) (key : string) : M Graph value :=
  λ G, match G !! data with
       | Some r => (getitem (ndata r) key, G)
       | None => (Raise (KeyError key), G)
       end.

(** [data[key] = v]: the write lands in the graph. *)
Definition data_setitem (data : nat) (key : string) (v : value) : M Graph unit :=
  modify (alter (λ r, mk_row (nid r) (<[key := v]> (ndata r)) (nbrs r)) data).

(** Lines 34-36 for one node. *)
Definition clean_node (nd : string * nat) (_ : unit) : M Graph unit :=
  let data := nd.2 in
  has_size <~ data_contains data "size" ;;
  if (has_size : bool) then
    size <~ data_getitem data "size" ;;
    if is_str size then
      try_except
        (q <~ lift (py_float size) ;; data_setitem data "size" (VFloat q))
        (λ _, ret tt)
    else ret tt
  else ret tt.

(** Lines 32-36. *)
Definition clean_attributes : M Graph unit :=
  nds <~ nodes_data ;; for_each nds clean_node tt.

(** [print(line)] *)
Definition print (line : string) : M (list string) unit :=
  modify (λ out, out ++ [line]).

(** Lines 28-39: the body of the [try]. *)
Definition load_file (folder_path filename : string)
    (networks_dict : gmap string Graph) : M (list string) (gmap string Graph) :=
  let file_path := os.join folder_path filename in
  G <~ lift (read_graphml file_path) ;;
  G <~ lift (match clean_attributes G with
             | (Ok _, G') => Ok G'
             | (Raise e, _) => Raise e
             end) ;;
  let network_name := network_name_of filename in
  ret (<[network_name := G]> networks_dict).

(** Lines 25-41 for one directory entry. *)
Definition load_entry (folder_path filename : string)
    (networks_dict : gmap string Graph) : M (list string) (gmap string Graph) :=
  if endswith filename ".graphml" then
    try_except
      (load_file folder_path filename networks_dict)
      (λ e, _ <~ print ("Error loading " +:+ filename +:+ ": " +:+ str_exn e) ;;
            ret networks_dict)
  else ret networks_dict.

(** [None] is the result for a missing folder. *)
Definition load_all_networks (folder_path : string)
  : M (list string) (option (gmap string Graph)) :=
  let networks_dict : gmap string Graph := ∅ in
  if negb (os.exists_ fs folder_path) then ret None
  else
    names <~ lift (os.listdir fs folder_path) ;;
    networks_dict <~ for_each names (load_entry folder_path) networks_dict ;;
    ret (Some networks_dict).

End Loader.

(** ** Closed forms of the two loops

    What one round of each loop contributes, as a function of the graph:
    the loops are shown below to append exactly these items. *)

Record node_item : Type := mk_node_item {
  item_x : Q;
  item_y : Q;
  item_text : string;
  item_size : spec_float;
  item_color : value
}.

Definition push_node (acc : node_lists) (e : node_item) : node_lists :=
  mk_node_lists (node_x acc ++ [item_x e]) (node_y acc ++ [item_y e])
    (node_text acc ++ [item_text e]) (node_sizes acc ++ [item_size e])
    (node_colors acc ++ [item_color e]).

Definition push_edge (acc : list (option Q) * list (option Q))
    (p : (Q * Q) * (Q * Q)) : list (option Q) * list (option Q) :=
  (acc.1 ++ [Some p.1.1; Some p.2.1; None],
   acc.2 ++ [Some p.1.2; Some p.2.2; None]).

Fixpoint collect {A B} (f : A → result B) (l : list A) : result (list B) :=
  match l with
  | [] => Ok []
  | x :: l' =>
      match f x with
      | Raise e => Raise e
      | Ok y => match collect f l' with
                | Raise e => Raise e
                | Ok ys => Ok (y :: ys)
                end
      end
  end.

Definition community_of (r : node_row) : value :=
  default (VInt 0) (ndata r !! "community_id").

Definition node_item_of (float_str : Q → string) (pos : Layout)
    (min_deg degree_range : Z) (G : Graph) (node : string) : result node_item :=
  match getitem pos node with
  | Raise e => Raise e
  | Ok xy =>
      match nx.find_row G node with
      | None => Raise (KeyError node)
      | Some (_, r) =>
          match truediv (nx.row_degree r - min_deg) degree_range with
          | Raise e => Raise e
          | Ok normalized_size =>
              Ok (mk_node_item xy.1 xy.2
                    (hover_info float_str node (nx.row_degree r) (community_of r))
                    (fadd (f64.of_int 10) (fmul normalized_size (f64.of_int 40)))
                    (community_of r))
          end
      end
  end.

Definition edge_item_of (pos : Layout) (edge : string * string)
  : result ((Q * Q) * (Q * Q)) :=
  match getitem pos edge.1 with
  | Raise e => Raise e
  | Ok p0 => match getitem pos edge.2 with
             | Raise e => Raise e
             | Ok p1 => Ok (p0, p1)
             end
  end.

Definition color_bound (best : list value → result value) (dflt : Z)
    (colors : list value) : result value :=
  match colors with
  | [] => Ok (VInt dflt)
  | _ => best colors
  end.

(** The figure as a function of the graph and the layout. *)
Definition figure_of (float_str : Q → string) (pos : Layout) (G : Graph)
  : result Figure :=
  match degree_scale (map snd (nx.degree_view G)) with
  | Raise e => Raise e
  | Ok scale =>
  match collect (node_item_of float_str pos scale.1 scale.2 G) (nx.nodes G) with
  | Raise e => Raise e
  | Ok items =>
  match collect (edge_item_of pos) (nx.edges G) with
  | Raise e => Raise e
  | Ok segs =>
  let ls := foldl push_node (mk_node_lists [] [] [] [] []) items in
  let es := foldl push_edge ([], []) segs in
  match color_bound value_min 0 (node_colors ls) with
  | Raise e => Raise e
  | Ok cmin =>
  match color_bound value_max 1 (node_colors ls) with
  | Raise e => Raise e
  | Ok cmax =>
      Ok (mk_figure es.1 es.2 (node_x ls) (node_y ls) (node_text ls)
            (node_sizes ls) (node_colors ls) cmin cmax)
  end end end end end.

(** The three entries an edge adds to [edge_x] and to [edge_y]. *)
Definition segment_x (p : (Q * Q) * (Q * Q)) : list (option Q) :=
  [Some p.1.1; Some p.2.1; None].
Definition segment_y (p : (Q * Q) * (Q * Q)) : list (option Q) :=
  [Some p.1.2; Some p.2.2; None].

(** ** The quantities the specification speaks of *)

(** Minimum and maximum degree over all nodes, 0 and 1 on the empty graph. *)
Definition spec_min_deg (degrees : list Z) : Z :=
  match degrees with
  | [] => 0
  | d :: ds => foldr Z.min d ds
  end.

Definition spec_max_deg (degrees : list Z) : Z :=
  match degrees with
  | [] => 1
  | d :: ds => foldr Z.max d ds
  end.

(** [maxDeg - minDeg], forced to 1 when it is 0. *)
Definition spec_range (degrees : list Z) : Z :=
  let range := spec_max_deg degrees - spec_min_deg degrees in
  if range =? 0 then 1 else range.

(** [10 + 40 * (degree - minDeg) / range] as a real number. *)
Definition spec_pixel_size (degrees : list Z) (degree : Z) : Q :=
  (10 + 40 * (inject_Z (degree - spec_min_deg degrees)
              / inject_Z (spec_range degrees)))%Q.

(** The same in double precision, in the order the specification gives:
    [normalized = (degree - minDeg) / range], then
    [pixelSize = 10 + normalized * 40]. *)
Definition spec_pixel_size_f64 (degrees : list Z) (degree : Z) : spec_float :=
  let normalized :=
    f64.div (f64.of_int_exact (degree - spec_min_deg degrees))
      (f64.of_int_exact (spec_range degrees)) in
  f64.add (f64.of_int 10) (f64.mul normalized (f64.of_int 40)).

(** [10 + 40 * (degree - minDeg) / range] in double precision, evaluated
    as it is written: the product of the ints first, then the division. *)
Definition spec_pixel_size_written (degrees : list Z) (degree : Z) : spec_float :=
  f64.add (f64.of_int 10)
    (f64.div (f64.of_int_exact (40 * (degree - spec_min_deg degrees)))
       (f64.of_int_exact (spec_range degrees))).

(** The degrees of all nodes of [G], in node order. *)
Definition degrees_of (G : Graph) : list Z := map nx.row_degree G.

(** The number of edges of [E] that touch [n]. *)
Definition incident_count (E : list (string * string)) (n : string) : nat :=
  length (filter (λ e, e.1 = n ∨ e.2 = n) E).

(** The number of edge ends of [E] at [n]: an edge from [n] to itself has
    both its ends there. *)
Definition endpoint_count (E : list (string * string)) (n : string) : nat :=
  length (filter (λ e, e.1 = n) E) + length (filter (λ e, e.2 = n) E).

(** An attribute dict without what is stored under [degree] and
    [centrality]. *)
Definition strip_scores (data : gmap string value) : gmap string value :=
  delete "degree" (delete "centrality" data).

(** [G2] is [G1] with, at most, other values stored under the [degree]
    and [centrality] attributes: same nodes in the same order, same
    neighbours, same values under every other attribute. *)
Definition same_but_scores (G1 G2 : Graph) : Prop :=
  Forall2 (λ r1 r2, nid r1 = nid r2 ∧ nbrs r1 = nbrs r2
                    ∧ strip_scores (ndata r1) = strip_scores (ndata r2)) G1 G2.

(** The layout has a position for every node of [G]. *)
Definition covers (pos : Layout) (G : Graph) : bool :=
  forallb (λ n, bool_decide (is_Some (pos !! n))) (nx.nodes G).

(** Every community value of [G] is a number (or absent, which reads as
    0). *)
Definition numeric_colors (G : Graph) : bool :=
  forallb (λ r, is_num (community_of r)) G.

(** ** Closed forms and specification terms for the loader *)

Section LoaderForms.

Variable read_graphml : string → result Graph.
Variable float_of_string : string → option Q.

(** What lines 34-36 leave of one node. *)
Definition clean_row (r : node_row) : node_row :=
  match ndata r !! "size" with
  | Some (VStr s) =>
      match float_of_string s with
      | Some q => mk_row (nid r) (<["size" := VFloat q]> (ndata r)) (nbrs r)
      | None => r
      end
  | _ => r
  end.

(** The graph a directory entry contributes, if any. *)
Definition entry_graph (folder_path filename : string) : option Graph :=
  if endswith filename ".graphml" then
    match read_graphml (os.join folder_path filename) with
    | Ok G => Some (map clean_row G)
    | Raise _ => None
    end
  else None.

(** The dict after the loop over [names], started from [d]. *)
Definition load_dict (folder_path : string) (names : list string)
    (d : gmap string Graph) : gmap string Graph :=
  foldl (λ d filename,
           match entry_graph folder_path filename with
           | Some G => <[network_name_of filename := G]> d
           | None => d
           end) d names.

(** [r'] is [r] after the best-effort conversion of [size]: a textual
    size that reads as a number has become that number, anything else is
    as it was. *)
Definition coerced (r r' : node_row) : Prop :=
  nid r' = nid r ∧ nbrs r' = nbrs r
  ∧ (∀ k, k ≠ "size" → ndata r' !! k = ndata r !! k)
  ∧ ndata r' !! "size"
    = match ndata r !! "size" with
      | Some (VStr s) =>
          match float_of_string s with
          | Some q => Some (VFloat q)
          | None => Some (VStr s)
          end
      | other => other
      end.

End LoaderForms.

(** The file name with the extension stripped: all but its last eight
    characters. *)
Definition strip_ext (filename : string) : string :=
  String.substring 0 (String.length filename - String.length ".graphml") filename.

(** [s.find(old)]: where [old] first occurs in [s]. *)
Fixpoint str_find (s old : string) : option nat :=
  if String.prefix old s then Some O
  else match s with
       | EmptyString => None
       | String _ s' => S <$> str_find s' old
       end.

(** The extension occurs in the name once only, at its end. *)
Definition ext_only_at_end (filename : string) : bool :=
  bool_decide (str_find filename ".graphml"
               = Some (String.length filename - String.length ".graphml")%nat).

(** ** Sample data

    A stand-in generator and layout (node [i] of the graph is put at
    [(i + r, 1)] for generator state [r]), and a few small graphs. *)

Module Sample.

Definition RandomState (seed : Z) : Z := seed.

Definition grid_layout (G : Graph) (k : Q) (iterations : nat) (r : Z)
  : Layout * Z :=
  (list_to_map (imap (λ i n, (n, (inject_Z (Z.of_nat i + r), 1%Q))) (nx.nodes G)),
   r + 1).

Definition float_str (q : Q) : string :=
  pretty (Qnum q) +:+ "/" +:+ pretty (Z.pos (Qden q)).

(** A centre joined to four leaves. *)
Definition star : Graph :=
  nx.add_edge "c" "l4" (nx.add_edge "c" "l3" (nx.add_edge "c" "l2"
    (nx.add_edge "c" "l1" (nx.add_node "c" {["community_id" := VInt 3]} [])))).

Definition triangle : Graph :=
  nx.add_edge "c" "a" (nx.add_edge "b" "c" (nx.add_edge "a" "b" [])).

(** The triangle again, with stored [degree] and [centrality] attributes
    that disagree with the edges. *)
Definition triangle_scored : Graph :=
  nx.add_node "a" {["degree" := VInt 7; "centrality" := VFloat (9 # 10)]}
    (nx.add_node "b" {["degree" := VInt 0]} triangle).

(** One node joined to itself. *)
Definition loop : Graph := nx.add_edge "a" "a" [].

(** A textual community on one node, none on the other. *)
Definition mixed : Graph :=
  nx.add_node "b" ∅ (nx.add_node "a" {["community_id" := VStr "x"]} []).

(** The star with two of its leaves joined: degrees 4, 2, 2, 1 and 1. *)
Definition kite : Graph := nx.add_edge "l1" "l2" star.

(** A [MultiGraph]: two edges between [a] and [b], an edge from [b] to
    itself and an edge between [b] and [c]. *)
Definition doubled : Graph :=
  nx.add_parallel_edge "b" "c" (nx.add_parallel_edge "b" "b"
    (nx.add_parallel_edge "a" "b" (nx.add_parallel_edge "a" "b" []))).

Definition run (G : Graph) : result Figure * @world Z :=
  create_plotly_graph RandomState grid_layout float_str "sample" (mk_world G 0).

End Sample.

Module SampleFs.

(** Three nodes with a textual size (one numeric, one not), one with a
    numeric size, one without. *)
Definition sized : Graph :=
  [mk_row "n1" {["size" := VStr "2.5"; "community_id" := VInt 1]} [];
   mk_row "n2" {["size" := VStr "big"]} [];
   mk_row "n3" {["size" := VInt 4]} [];
   mk_row "n4" ∅ []].

Definition fs (path : string) : os.entry :=
  if String.eqb path "data"
  then os.Directory ["a.graphml"; "b.graphml"; "notes.txt"]
  else if String.eqb path "broken"
  then os.Directory ["a.graphml"; "bad.graphml"; "b.graphml"]
  else if String.eqb path "corrupt" then os.Directory ["bad.graphml"]
  else if String.eqb path "empty" then os.Directory ["notes.txt"]
  else if String.eqb path "app.py" then os.RegularFile
  else os.Missing.

(** [fs] after [bad.graphml] has been removed from [broken]. *)
Definition fs_repaired (path : string) : os.entry :=
  if String.eqb path "broken" then os.Directory ["a.graphml"; "b.graphml"]
  else fs path.

Definition read_graphml (file_path : string) : result Graph :=
  if endswith file_path "/a.graphml" then Ok sized
  else if endswith file_path "/b.graphml" then Ok Sample.star
  else Raise (GraphMLError "not well-formed (invalid token)").

Definition float_of_string (s : string) : option Q :=
  if String.eqb s "2.5" then Some (5 # 2)
  else if String.eqb s "7" then Some 7%Q
  else None.

Definition str_exn (e : exn) : string :=
  match e with
  | GraphMLError msg => msg
  | _ => "error"
  end.

Definition load (folder_path : string)
  : result (option (gmap string Graph)) * list string :=
  load_all_networks fs read_graphml float_of_string str_exn folder_path [].

End SampleFs.

(** [G2] has the nodes of [G1] in the same order, with the same neighbours
    and the same community value. *)
Definition same_encoding_input (G1 G2 : Graph) : Prop :=
  Forall2 (λ r1 r2, nid r1 = nid r2 ∧ nbrs r1 = nbrs r2
                    ∧ community_of r1 = community_of r2) G1 G2.

Section LoaderLog.

Variable read_graphml : string → result Graph.
Variable str_exn : exn → string.

(** What the loop prints for one directory entry: a line for a graph file
    whose parse raises, nothing otherwise. *)
Definition failure_line (folder_path filename : string) : list string :=
  if endswith filename ".graphml" then
    match read_graphml (os.join folder_path filename) with
    | Raise e => ["Error loading " +:+ filename +:+ ": " +:+ str_exn e]
    | Ok _ => []
    end
  else [].

Definition failure_lines (folder_path : string) (names : list string)
  : list string :=
  concat (map (failure_line folder_path) names).

End LoaderLog.

(** ** The Streamlit script

    Lines 8, 11, 14 and 165-195.  A run of the script appends to the page
    a record of each Streamlit call it makes, in order; an exception ends
    the run and leaves what was shown.  What lasts from one run to the next
    is the resource cache of [@st.cache_resource], standard output and
    numpy's generator. *)

Inductive place : Type := MainArea | SidebarArea.

Inductive element : Type :=
| PageConfig (page_title layout : string)
| Title (body : string)
| Markdown (body : string)
| ErrorBox (body : string)
| WarningBox (body : string)
| Header (body : string)
| Selectbox (label : string) (options : list string)
| Write (body : string)
| Metric (label : string) (value : Z)
| Subheader (body : string)
| Spinner (text : string)
| PlotlyChart (fig : Figure)
| Caption (body : string).

Definition is_error_box (e : place * element) : bool :=
  match e.2 with ErrorBox _ => true | _ => false end.

Definition is_warning_box (e : place * element) : bool :=
  match e.2 with WarningBox _ => true | _ => false end.

Definition is_chart (e : place * element) : bool :=
  match e.2 with PlotlyChart _ => true | _ => false end.

Definition GRAPHML_FOLDER : string := "data".

Section Script.

Context {rng : Type}.
Variable RandomState : Z → rng.
Variable fruchterman_reingold : Graph → Q → nat → rng → Layout * rng.
Variable float_str : Q → string.
Variable read_graphml : string → result Graph.
Variable float_of_string : string → option Q.
Variable str_exn : exn → string.

(** [list(d.keys())]: the order in which a dict lists its keys is not
    carried by a [gmap] and is taken as given. *)
Variable dict_keys : gmap string Graph → list string.

Record session : Type := mk_session {
  page : list (place * element);
  stdout : list string;
  resource_cache : gmap string (option (gmap string Graph));
  np_state : rng
}.

(** The state a new run of the script starts from: an empty page, the rest
    as the last run left it. *)
Definition rerun (s : session) : session :=
  mk_session [] (stdout s) (resource_cache s) (np_state s).

(** [st.<element>(...)], inside [with st.sidebar:] or not *)
Definition st_element (pl : place) (e : element) : M session unit :=
  modify (λ s, mk_session (page s ++ [(pl, e)]) (stdout s)
                 (resource_cache s) (np_state s)).

(** [load_all_networks] behind [@st.cache_resource]: the body runs when
    the cache has nothing for the argument, and what it returns is kept;
    a later call gets the kept object. *)
Definition cached_load_all_networks (fs : string → os.entry) (folder_path : string)
  : M session (option (gmap string Graph)) :=
  λ s, match resource_cache s !! folder_path with
       | Some networks => (Ok networks, s)
       | None =>
           let run := load_all_networks fs read_graphml float_of_string str_exn
                        folder_path (stdout s) in
           match run.1 with
           | Ok networks =>
               (Ok networks,
                mk_session (page s) run.2
                  (<[folder_path := networks]> (resource_cache s)) (np_state s))
           | Raise e =>
               (Raise e, mk_session (page s) run.2 (resource_cache s) (np_state s))
           end
       end.

(** [st.selectbox(label, options)] in the sidebar: the option at the index
    the user has picked (0 on a first run), [None] when there is none. *)
Definition st_selectbox (label : string) (options : list string) (choice : nat)
  : M session (option string) :=
  _ <~ st_element SidebarArea (Selectbox label options) ;;
  ret (options !! choice).

(** [skills_networks[selected_network_name]] *)
Definition lookup_selected (networks : gmap string Graph)
    (selected : option string) : result (string * Graph) :=
  match selected with
  | None => Raise (KeyError "None")
  | Some name =>
      match networks !! name with
      | Some G => Ok (name, G)
      | None => Raise (KeyError name)
      end
  end.

(** [create_plotly_graph(G_selected, name)] on the graph object held in
    the cached dict: what the call leaves of the graph is what the cache
    holds afterwards. *)
Definition call_create_plotly_graph (G_selected : Graph) (name : string)
  : M session Figure :=
  λ s, let run := create_plotly_graph RandomState fruchterman_reingold float_str
                    name (mk_world G_selected (np_state s)) in
       (run.1,
        mk_session (page s) (stdout s)
          (alter (fmap (insert name (nx_graph run.2))) GRAPHML_FOLDER
             (resource_cache s))
          (np_random run.2)).

(** Lines 176-195: the branch for a non-empty dict. *)
Definition show_network (networks : gmap string Graph) (choice : nat)
  : M session unit :=
  _ <~ st_element SidebarArea (Header "Graph Controls") ;;
  let network_names := dict_keys networks in
  selected_network_name <~ st_selectbox "Select Network" network_names choice ;;
  sel <~ lift (lookup_selected networks selected_network_name) ;;
  let G_selected := sel.2 in
  _ <~ st_element SidebarArea (Write "---") ;;
  _ <~ st_element SidebarArea (Metric "Nodes" (nx.number_of_nodes G_selected)) ;;
  _ <~ st_element SidebarArea (Metric "Edges" (nx.number_of_edges G_selected)) ;;
  _ <~ st_element MainArea (Subheader ("Analyzing: " +:+ sel.1)) ;;
  _ <~ st_element MainArea (Spinner "Calculating layout and rendering...") ;;
  plotly_fig <~ call_create_plotly_graph G_selected sel.1 ;;
  _ <~ st_element MainArea (PlotlyChart plotly_fig) ;;
  st_element MainArea
    (Caption "Tip: You can zoom, pan, and hover over nodes to see details.").

(** Lines 171-195: what is shown for the loader's result. *)
Definition show_result (skills_networks : option (gmap string Graph))
    (choice : nat) : M session unit :=
  match skills_networks with
  | None =>
      st_element MainArea
        (ErrorBox ("❌ The folder path could not be found: `"
                   +:+ GRAPHML_FOLDER +:+ "`"))
  | Some networks =>
      if (size networks =? 0)%nat then
        st_element MainArea
          (WarningBox ("⚠️ No .graphml files found in `" +:+ GRAPHML_FOLDER +:+ "`"))
      else show_network networks choice
  end.

Definition script (fs : string → os.entry) (choice : nat) : M session unit :=
  _ <~ st_element MainArea (PageConfig "Interactive Skills Network" "wide") ;;
  _ <~ st_element MainArea (Title "🌐 Interactive Skills Network") ;;
  _ <~ st_element MainArea
         (Markdown "Nodes are **colored by Community ID** and **sized by Degree**.") ;;
  skills_networks <~ cached_load_all_networks fs GRAPHML_FOLDER ;;
  show_result skills_networks choice.

(** The session after the elements [l] have been shown. *)
Definition shown (l : list (place * element)) (s : session) : session :=
  mk_session (page s ++ l) (stdout s) (resource_cache s) (np_state s).

End Script.

(** What every run shows first. *)
Definition page_header : list (place * element) :=
  [(MainArea, PageConfig "Interactive Skills Network" "wide");
   (MainArea, Title "🌐 Interactive Skills Network");
   (MainArea, Markdown "Nodes are **colored by Community ID** and **sized by Degree**.")].

(** The sidebar controls; what follows them up to the spinner; the chart
    and the caption. *)
Definition page_controls (network_names : list string) : list (place * element) :=
  [(SidebarArea, Header "Graph Controls");
   (SidebarArea, Selectbox "Select Network" network_names)].

Definition page_metrics (name : string) (G : Graph) : list (place * element) :=
  [(SidebarArea, Write "---");
   (SidebarArea, Metric "Nodes" (nx.number_of_nodes G));
   (SidebarArea, Metric "Edges" (nx.number_of_edges G));
   (MainArea, Subheader ("Analyzing: " +:+ name));
   (MainArea, Spinner "Calculating layout and rendering...")].

Definition page_chart (fig : Figure) : list (place * element) :=
  [(MainArea, PlotlyChart fig);
   (MainArea, Caption "Tip: You can zoom, pan, and hover over nodes to see details.")].

(** ** More sample data

    A layout that loses a node, a folder in which two file names give the
    same key, and a first session of the app over the sample folders. *)

Module SampleApp.

Definition sparse_layout (G : Graph) (k : Q) (iterations : nat) (r : Z)
  : Layout * Z :=
  (delete "b" (Sample.grid_layout G k iterations r).1, r + 1).

Definition fs (path : string) : os.entry :=
  if String.eqb path "twins"
  then os.Directory ["a.graphml"; "a.graphml.graphml"; "b.graphml"; "notes.txt"]
  else SampleFs.fs path.

Definition read_graphml (file_path : string) : result Graph :=
  if endswith file_path ".graphml.graphml" then Ok Sample.triangle
  else SampleFs.read_graphml file_path.

(** The keys in the order the finite map lists them. *)
Definition dict_keys (d : gmap string Graph) : list string := (map_to_list d).*1.

Definition fresh : @session Z := mk_session [] [] ∅ 0.

Definition run (fs : string → os.entry) (choice : nat) (s : @session Z)
  : result unit * @session Z :=
  script Sample.RandomState Sample.grid_layout Sample.float_str
    SampleFs.read_graphml SampleFs.float_of_string SampleFs.str_exn dict_keys
    fs choice s.

End SampleApp.

(** ** Monad and loop lemmas *)

Lemma for_each_collect {S A B E} (f : A → result E) (push : B → E → B)
    (body : A → B → M S B) (s : S) (l : list A) :
  (∀ x acc, body x acc s
            = (match f x with Ok e => Ok (push acc e) | Raise x => Raise x end, s)) →
  ∀ acc, for_each l body acc s
         = (match collect f l with
            | Ok es => Ok (foldl push acc es)
            | Raise x => Raise x
            end, s).
Proof.
  intros Hbody. induction l as [|x l IH]; intros acc; simpl; [done|].
  unfold bind. rewrite Hbody. destruct (f x) as [e|y]; [done|].
  rewrite IH. by destruct (collect f l).
Qed.

Lemma collect_Forall2 {A B} (f : A → result B) l ys :
  collect f l = Ok ys → Forall2 (λ x y, f x = Ok y) l ys.
Proof.
  revert ys. induction l as [|x l IH]; intros ys; simpl.
  - intros [= <-]. constructor.
  - destruct (f x) as [e|y] eqn:Hfx; [done|].
    destruct (collect f l) as [e|ys'] eqn:Hc; [done|].
    intros [= <-]. constructor; auto.
Qed.

Lemma collect_all_ok {A B} (f : A → result B) l :
  Forall (λ x, is_ok (f x) = true) l → ∃ ys, collect f l = Ok ys.
Proof.
  induction 1 as [|x l Hx _ [ys IH]]; simpl; [by eexists|].
  destruct (f x); [done|]. rewrite IH. by eexists.
Qed.

Lemma find_row_Some G n i r :
  nx.find_row G n = Some (i, r) → G !! i = Some r ∧ nid r = n.
Proof.
  revert i. induction G as [|r0 G IH]; intros i; simpl; [done|].
  destruct (String.eqb_spec (nid r0) n) as [Heq|Hne].
  - by intros [= <- <-].
  - destruct (nx.find_row G n) as [[j r']|]; [|done].
    intros [= <- <-]. by apply IH.
Qed.

Lemma find_row_elem_of G n :
  n ∈ nx.nodes G → is_Some (nx.find_row G n).
Proof.
  induction G as [|r0 G IH]; simpl.
  - by intros ?%elem_of_nil.
  - intros [->|Hin]%elem_of_cons.
    + by rewrite String.eqb_refl.
    + destruct (String.eqb (nid r0) n); [done|].
      destruct (IH Hin) as [[j r'] ->]. done.
Qed.

(** ** The pipeline runs as its closed form and leaves the world alone *)

Section PipelineFacts.

Context {rng : Type}.
Variable RandomState : Z → rng.
Variable fruchterman_reingold : Graph → Q → nat → rng → Layout * rng.
Variable float_str : Q → string.

Lemma node_body_run pos min_deg degree_range node acc (w : @world rng) :
  node_body float_str pos min_deg degree_range node acc w
  = (match node_item_of float_str pos min_deg degree_range (nx_graph w) node with
     | Ok e => Ok (push_node acc e)
     | Raise x => Raise x
     end, w).
Proof.
  unfold node_body, node_item_of, bind, lift, graph_node_data, graph_degree,
    data_get, gets, ret, nx.degree, community_of.
  destruct (getitem pos node) as [e|xy]; [done|].
  destruct (nx.find_row (nx_graph w) node) as [[i r]|] eqn:Hrow; [|done].
  destruct (find_row_Some _ _ _ _ Hrow) as [-> _]. simpl. rewrite Hrow.
  by destruct (truediv _ _).
Qed.

Lemma edge_body_run pos edge acc (w : @world rng) :
  edge_body pos edge acc w
  = (match edge_item_of pos edge with
     | Ok p => Ok (push_edge acc p)
     | Raise x => Raise x
     end, w).
Proof.
  unfold edge_body, edge_item_of, bind, lift, ret.
  destruct (getitem pos edge.1) as [e|p0]; [done|].
  by destruct (getitem pos edge.2).
Qed.

Lemma create_plotly_graph_run network_name (w : @world rng) :
  create_plotly_graph RandomState fruchterman_reingold float_str network_name w
  = (figure_of float_str (layout_of RandomState fruchterman_reingold (nx_graph w))
       (nx_graph w), w).
Proof.
  unfold create_plotly_graph, figure_of, layout_of.
  unfold bind at 1. unfold spring_layout.
  set (pos := (fruchterman_reingold _ _ _ _).1).
  unfold bind at 1. unfold graph_degree_view, gets.
  unfold bind at 1. unfold lift at 1.
  destruct (degree_scale _) as [e|scale]; [done|].
  unfold bind at 1. unfold graph_nodes, gets.
  unfold bind at 1.
  rewrite (for_each_collect _ push_node _ w _
             (λ x acc, node_body_run pos scale.1 scale.2 x acc w)).
  destruct (collect _ (nx.nodes _)) as [e|items]; [done|].
  unfold bind at 1. unfold graph_edges, gets.
  unfold bind at 1.
  rewrite (for_each_collect _ push_edge _ w _ (λ x acc, edge_body_run pos x acc w)).
  destruct (collect _ (nx.edges _)) as [e|segs]; [done|].
  unfold bind, lift, ret, color_bound.
  set (ls := foldl push_node _ items).
  destruct (node_colors ls) as [|c cs]; [done|].
  destruct (value_min _) as [e|cmin]; [done|].
  by destruct (value_max _).
Qed.

End PipelineFacts.

(** ** [min], [max] and the degree scale *)

Lemma foldr_min_shift x c l :
  Z.min x (foldr Z.min c l) = foldr Z.min (Z.min x c) l.
Proof. induction l as [|y l IH]; simpl; [done|]. rewrite <- IH. lia. Qed.

Lemma foldr_max_shift x c l :
  Z.max x (foldr Z.max c l) = foldr Z.max (Z.max x c) l.
Proof. induction l as [|y l IH]; simpl; [done|]. rewrite <- IH. lia. Qed.

Lemma scan_min cur l :
  scan_best (λ x c, Ok (x <? c)) cur l = Ok (foldr Z.min cur l).
Proof.
  revert cur. induction l as [|x l IH]; intros cur; simpl; [done|].
  rewrite foldr_min_shift.
  destruct (Z.ltb_spec x cur); rewrite IH; do 2 f_equal; lia.
Qed.

Lemma scan_max cur l :
  scan_best (λ x c, Ok (c <? x)) cur l = Ok (foldr Z.max cur l).
Proof.
  revert cur. induction l as [|x l IH]; intros cur; simpl; [done|].
  rewrite foldr_max_shift.
  destruct (Z.ltb_spec cur x); rewrite IH; do 2 f_equal; lia.
Qed.

Lemma foldr_min_le c l x : x ∈ c :: l → foldr Z.min c l ≤ x.
Proof.
  induction l as [|y l IH]; simpl.
  - intros ->%list_elem_of_singleton. lia.
  - rewrite !elem_of_cons. intros [Hx|[Hx|Hx]]; [|lia|].
    + assert (foldr Z.min c l ≤ x) by (apply IH; subst; left). lia.
    + assert (foldr Z.min c l ≤ x) by (apply IH; by right). lia.
Qed.

Lemma foldr_max_ge c l x : x ∈ c :: l → x ≤ foldr Z.max c l.
Proof.
  induction l as [|y l IH]; simpl.
  - intros ->%list_elem_of_singleton. lia.
  - rewrite !elem_of_cons. intros [Hx|[Hx|Hx]]; [|lia|].
    + assert (x ≤ foldr Z.max c l) by (apply IH; subst; left). lia.
    + assert (x ≤ foldr Z.max c l) by (apply IH; by right). lia.
Qed.

Lemma spec_min_le degrees d : d ∈ degrees → spec_min_deg degrees ≤ d.
Proof. destruct degrees; [by intros ?%elem_of_nil|]. apply foldr_min_le. Qed.

Lemma spec_max_ge degrees d : d ∈ degrees → d ≤ spec_max_deg degrees.
Proof. destruct degrees; [by intros ?%elem_of_nil|]. apply foldr_max_ge. Qed.

Lemma spec_range_pos degrees : 0 < spec_range degrees.
Proof.
  unfold spec_range. destruct degrees as [|d ds]; [done|].
  assert (spec_min_deg (d :: ds) ≤ d) by (apply spec_min_le; left).
  assert (d ≤ spec_max_deg (d :: ds)) by (apply spec_max_ge; left).
  destruct (Z.eqb_spec (spec_max_deg (d :: ds) - spec_min_deg (d :: ds)) 0); lia.
Qed.

(** Lines 68-76 compute the minimum and the forced range, and never raise. *)
Lemma degree_scale_spec raw_degrees :
  degree_scale raw_degrees = Ok (spec_min_deg raw_degrees, spec_range raw_degrees).
Proof.
  unfold degree_scale, spec_range. destruct raw_degrees as [|d ds]; [done|].
  simpl. unfold int_min, int_max. simpl. by rewrite scan_min, scan_max.
Qed.

Lemma degree_view_degrees G : map snd (nx.degree_view G) = degrees_of G.
Proof. unfold nx.degree_view, degrees_of. rewrite map_map. done. Qed.

(** ** Double-precision arithmetic

    What is needed of [SpecFloat]'s rounding: it never crosses a number
    the format holds, so bounds that are doubles survive every operation,
    and it moves a value by at most one step of the grid. *)

Module f64_facts.
Import f64.

#[local] Instance Qle_transitive : Transitive Qle := Qle_trans.

Lemma inj_le a b : a ≤ b → (inject_Z a <= inject_Z b)%Q.
Proof. by rewrite <- Zle_Qle. Qed.

Lemma inj_lt a b : a < b → (inject_Z a < inject_Z b)%Q.
Proof. by rewrite <- Zlt_Qlt. Qed.

Lemma Qle_mult_ge1 (x y : Q) : (1 <= x)%Q → (0 < y)%Q → (y <= y * x)%Q.
Proof. intros. nra. Qed.

Lemma Qlt_mult_ge2 (x y : Q) : (2 <= x)%Q → (0 < y)%Q → (y < y * x)%Q.
Proof. intros. nra. Qed.

Lemma pow2_pos e : (0 < 2 ^ e)%Q.
Proof. by apply Qpower_0_lt. Qed.

Lemma pow2_add a b : (2 ^ (a + b) == 2 ^ a * 2 ^ b)%Q.
Proof. by apply Qpower_plus. Qed.

Lemma pow2_Z n : 0 ≤ n → (2 ^ n == inject_Z (2 ^ n))%Q.
Proof. intros Hn. by rewrite Zpower_Qpower. Qed.

Lemma pow2_le a b : a ≤ b → (2 ^ a <= 2 ^ b)%Q.
Proof.
  intros Hab. replace b with (a + (b - a)) by lia.
  rewrite pow2_add, (pow2_Z (b - a)) by lia.
  assert (1 ≤ 2 ^ (b - a)) as H1 by (apply (Z.pow_le_mono_r 2 0); lia).
  apply Qle_mult_ge1; [exact (inj_le _ _ H1)|apply pow2_pos].
Qed.

Lemma pow2_lt a b : a < b → (2 ^ a < 2 ^ b)%Q.
Proof.
  intros Hab. replace b with (a + (b - a)) by lia.
  rewrite pow2_add, (pow2_Z (b - a)) by lia.
  assert (2 ≤ 2 ^ (b - a)) as H1 by (apply (Z.pow_le_mono_r 2 1); lia).
  apply Qlt_mult_ge2; [exact (inj_le _ _ H1)|apply pow2_pos].
Qed.

Lemma val_le m1 m2 e : m1 ≤ m2 → (val m1 e <= val m2 e)%Q.
Proof.
  intros H. unfold val. apply Qmult_le_compat_r; [by apply inj_le|].
  apply Qlt_le_weak, pow2_pos.
Qed.

Lemma val_le_inv m1 m2 e : (val m1 e <= val m2 e)%Q → m1 ≤ m2.
Proof.
  unfold val. intros H. rewrite Zle_Qle.
  eapply Qmult_le_r; [apply (pow2_pos e)|done].
Qed.

Lemma val_lt_inv m1 m2 e : (val m1 e < val m2 e)%Q → m1 < m2.
Proof.
  unfold val. intros H. rewrite Zlt_Qlt.
  eapply Qmult_lt_r; [apply (pow2_pos e)|done].
Qed.

Lemma val_shift m e k : 0 ≤ k → (val (m * 2 ^ k) e == val m (e + k))%Q.
Proof.
  intros Hk. unfold val. rewrite pow2_add, (pow2_Z k), inject_Z_mult by done. ring.
Qed.

Lemma val_nonneg m e : 0 ≤ m → (0 <= val m e)%Q.
Proof.
  intros H. unfold val. apply Qmult_le_0_compat; [by apply (inj_le 0)|].
  apply Qlt_le_weak, pow2_pos.
Qed.

Lemma val_pow2 e : (val 1 e == 2 ^ e)%Q.
Proof. unfold val. ring. Qed.

Lemma digits2_pos_bounds p :
  2 ^ (Z.pos (digits2_pos p) - 1) ≤ Z.pos p < 2 ^ Z.pos (digits2_pos p).
Proof.
  induction p as [p IH|p IH|]; simpl digits2_pos; [| |done].
  - rewrite Pos2Z.inj_succ, Pos2Z.inj_xI.
    replace (Z.succ (Z.pos (digits2_pos p)) - 1)
      with (Z.succ (Z.pos (digits2_pos p) - 1)) by lia.
    rewrite !Z.pow_succ_r by lia. lia.
  - rewrite Pos2Z.inj_succ. change (Z.pos p~0) with (2 * Z.pos p).
    replace (Z.succ (Z.pos (digits2_pos p)) - 1)
      with (Z.succ (Z.pos (digits2_pos p) - 1)) by lia.
    rewrite !Z.pow_succ_r by lia. lia.
Qed.

Lemma Zdigits2_bounds m :
  0 < m → 2 ^ (Zdigits2 m - 1) ≤ m < 2 ^ Zdigits2 m.
Proof. destruct m as [|p|p]; try lia. intros _. apply digits2_pos_bounds. Qed.

Lemma Zdigits2_pos m : 0 < m → 0 < Zdigits2 m.
Proof. destruct m; simpl; lia. Qed.

(** A positive [m * 2^e] lies in the binade of [Zdigits2 m + e]. *)
Lemma val_binade m e :
  0 < m →
  (2 ^ (Zdigits2 m + e - 1) <= val m e)%Q ∧ (val m e < 2 ^ (Zdigits2 m + e))%Q.
Proof.
  intros Hm. destruct (Zdigits2_bounds m Hm) as [Hlo Hhi].
  pose proof (Zdigits2_pos m Hm) as Hd.
  pose proof (pow2_pos e) as He. unfold val. split.
  - replace (Zdigits2 m + e - 1) with ((Zdigits2 m - 1) + e) by lia.
    rewrite pow2_add, pow2_Z by lia.
    apply Qmult_le_compat_r; [by apply inj_le|by apply Qlt_le_weak].
  - rewrite pow2_add, (pow2_Z (Zdigits2 m)) by lia.
    apply Qmult_lt_compat_r; [done|by apply inj_lt].
Qed.

(** *** Shifting a mantissa right *)

Lemma shr_1_spec m r s :
  0 ≤ m →
  shr_1 (Build_shr_record m r s) = Build_shr_record (m / 2) (Z.odd m) (r || s).
Proof.
  intros Hm. destruct m as [|[p|p|]|]; try lia; cbn [shr_1]; f_equal.
  - rewrite Pos2Z.inj_xI. apply Z.div_unique with 1; lia.
  - change (Z.pos p~0) with (2 * Z.pos p). apply Z.div_unique with 0; lia.
Qed.

Lemma iter_pos_nat {A} (f : A → A) p x :
  SpecFloat.iter_pos f p x = Nat.iter (Pos.to_nat p) f x.
Proof.
  revert x. induction p as [p IH|p IH|]; intros x; simpl SpecFloat.iter_pos; [| |done].
  - rewrite !IH, Pos2Nat.inj_xI.
    replace (S (2 * Pos.to_nat p)) with (Pos.to_nat p + (Pos.to_nat p + 1))%nat by lia.
    rewrite !Nat.iter_add. done.
  - rewrite !IH, Pos2Nat.inj_xO.
    replace (2 * Pos.to_nat p)%nat with (Pos.to_nat p + Pos.to_nat p)%nat by lia.
    by rewrite Nat.iter_add.
Qed.

Lemma shr_iter_spec k m r s :
  0 ≤ m →
  shr_m (Nat.iter k shr_1 (Build_shr_record m r s)) = m / 2 ^ Z.of_nat k
  ∧ (m mod 2 ^ Z.of_nat k = 0 → r = false → s = false →
     shr_r (Nat.iter k shr_1 (Build_shr_record m r s)) = false
     ∧ shr_s (Nat.iter k shr_1 (Build_shr_record m r s)) = false)
  ∧ (m = 0 → (0 < k)%nat →
     shr_r (Nat.iter k shr_1 (Build_shr_record m r s)) = false).
Proof.
  intros Hm. induction k as [|k (IHm & IHrs & _)].
  - simpl. split; [by rewrite Z.div_1_r|]. split; [by intros _ -> ->|lia].
  - change (Nat.iter (S k) shr_1 (Build_shr_record m r s))
      with (shr_1 (Nat.iter k shr_1 (Build_shr_record m r s))).
    destruct (Nat.iter k shr_1 (Build_shr_record m r s)) as [mk rk sk].
    cbn [shr_m shr_r shr_s] in *.
    assert (0 < 2 ^ Z.of_nat k) as Hpow by (apply Z.pow_pos_nonneg; lia).
    assert (2 ^ Z.of_nat (S k) = 2 ^ Z.of_nat k * 2) as Hs
      by (rewrite Nat2Z.inj_succ, Z.pow_succ_r by lia; lia).
    rewrite shr_1_spec by (subst mk; by apply Z.div_pos).
    cbn [shr_m shr_r shr_s]. split; [|split].
    + by rewrite IHm, Z.div_div, Hs by lia.
    + intros Hmod Hr Hsf.
      apply Z.mod_divide in Hmod as [c Hc]; [|lia].
      assert (m = (2 * c) * 2 ^ Z.of_nat k) as Hm2 by (rewrite Hc, Hs; lia).
      destruct IHrs as [-> ->]; [by rewrite Hm2, Z.mod_mul by lia|done|done|].
      split; [|done].
      rewrite IHm, Hm2, Z.div_mul by lia.
      by rewrite Z.odd_mul.
    + intros -> _. by rewrite IHm, Z.div_0_l by lia.
Qed.

Lemma loc_of_shr_record_of_loc m l :
  loc_of_shr_record (shr_record_of_loc m l) = l.
Proof. by destruct l as [|[]]. Qed.

Lemma shr_m_of_loc m l : shr_m (shr_record_of_loc m l) = m.
Proof. by destruct l as [|[]]. Qed.

(** [shr_fexp] floors the mantissa onto the grid of the format; the
    location stays exact when nothing is dropped. *)
Lemma shr_fexp_spec m e l mrs' e' :
  0 ≤ m →
  shr_fexp prec emax m e l = (mrs', e') →
  ∃ k, 0 ≤ k ∧ e' = e + k ∧ shr_m mrs' = m / 2 ^ k
       ∧ fexp prec emax (Zdigits2 m + e) ≤ e'
       ∧ (0 < k → e' = fexp prec emax (Zdigits2 m + e))
       ∧ (m mod 2 ^ k = 0 → l = loc_Exact → loc_of_shr_record mrs' = loc_Exact)
       ∧ (m = 0 → 0 < k → shr_r mrs' = false).
Proof.
  intros Hm. unfold shr_fexp, shr.
  destruct (fexp prec emax (Zdigits2 m + e) - e) as [|p|p] eqn:Hn.
  - intros [= <- <-]. exists 0.
    rewrite Z.div_1_r, shr_m_of_loc, loc_of_shr_record_of_loc.
    split_and!; try lia; done.
  - intros [= <- <-]. exists (Z.pos p). rewrite iter_pos_nat.
    destruct (shr_record_of_loc m l) as [m0 r s] eqn:Hrec.
    assert (m0 = m) as -> by (by rewrite <- (shr_m_of_loc m l), Hrec).
    destruct (shr_iter_spec (Pos.to_nat p) m r s Hm) as (Hk & Hrs & Hz).
    rewrite positive_nat_Z in Hk, Hrs.
    split_and!; [lia|lia|done|lia|lia| |].
    + intros Hmod ->. simpl in Hrec. injection Hrec as <- <-.
      destruct (Hrs Hmod eq_refl eq_refl) as [Hr Hs].
      destruct (Nat.iter _ _ _) as [mk rk sk]. simpl in *. by subst.
    + intros H0 _. apply Hz; [done|lia].
  - intros [= <- <-]. exists 0.
    rewrite Z.div_1_r, shr_m_of_loc, loc_of_shr_record_of_loc.
    split_and!; try lia; done.
Qed.

Lemma round_nearest_even_bounds m l :
  m ≤ round_nearest_even m l ≤ m + 1
  ∧ (l = loc_Exact → round_nearest_even m l = m).
Proof.
  destruct l as [|[]]; cbn [round_nearest_even]; try destruct (Z.even m);
    (split; [lia|done]).
Qed.

Lemma round_nearest_even_r_false mrs :
  shr_r mrs = false →
  round_nearest_even (shr_m mrs) (loc_of_shr_record mrs) = shr_m mrs.
Proof. destruct mrs as [m r [|]]; simpl; by intros ->. Qed.

Lemma fexp_mono d1 d2 : d1 ≤ d2 → fexp prec emax d1 ≤ fexp prec emax d2.
Proof. unfold fexp, emin, prec, emax. lia. Qed.

Lemma fexp_ge_emin d : -1074 ≤ fexp prec emax d.
Proof. unfold fexp, emin, prec, emax. lia. Qed.

Lemma fexp_lt d : -1074 < d → fexp prec emax d < d.
Proof. unfold fexp, emin, prec, emax. lia. Qed.

(** *** Representable bounds are respected by rounding *)

Lemma val_floor m e k : 0 ≤ m → 0 ≤ k → (val (m / 2 ^ k) (e + k) <= val m e)%Q.
Proof.
  intros Hm Hk. rewrite <- val_shift by done. apply val_le.
  rewrite Z.mul_comm. apply Z.mul_div_le. by apply Z.pow_pos_nonneg.
Qed.

Lemma shr_fexp_upper m e l mrs' e' mb eb :
  0 ≤ m → canonical mb eb →
  (val (upper m l) e <= val (Z.pos mb) eb)%Q →
  shr_fexp prec emax m e l = (mrs', e') →
  0 ≤ round_nearest_even (shr_m mrs') (loc_of_shr_record mrs')
  ∧ (val (round_nearest_even (shr_m mrs') (loc_of_shr_record mrs')) e'
     <= val (Z.pos mb) eb)%Q.
Proof.
  intros Hm Hcan Hle Hshr.
  destruct (shr_fexp_spec _ _ _ _ _ Hm Hshr)
    as (k & Hk & -> & Hm' & Hfe & Hfk & Hex & Hz).
  assert (0 < 2 ^ k) as Hpow by (by apply Z.pow_pos_nonneg).
  assert (0 ≤ m / 2 ^ k) as Hm'0 by (by apply Z.div_pos).
  destruct (round_nearest_even_bounds (shr_m mrs') (loc_of_shr_record mrs'))
    as [[Hlo Hhi] Hexact].
  split; [lia|].
  assert (m ≤ upper m l) as Hup by (destruct l; simpl; lia).
  destruct (decide (round_nearest_even (shr_m mrs') (loc_of_shr_record mrs')
                    = shr_m mrs')) as [->|Hne].
  { rewrite Hm'. etrans; [by apply val_floor|]. etrans; [|exact Hle]. by apply val_le. }
  assert (round_nearest_even (shr_m mrs') (loc_of_shr_record mrs')
          = m / 2 ^ k + 1) as -> by lia.
  assert (loc_of_shr_record mrs' ≠ loc_Exact) as Hinex by (intros ?; auto).
  destruct (decide (k = 0)) as [->|Hk0].
  { rewrite Z.div_1_r, Z.add_0_r in *.
    assert (l ≠ loc_Exact) as Hl
      by (intros ->; apply Hinex, Hex; [apply Z.mod_1_r|done]).
    destruct l; [done|]. exact Hle. }
  assert (0 < k) as Hkpos by lia. specialize (Hfk Hkpos).
  destruct (decide (m = 0)) as [->|Hm0].
  { exfalso. apply Hne, round_nearest_even_r_false. by apply Hz. }
  assert (0 < m) as Hmpos by lia.
  (* the bound lies strictly above the floor *)
  assert (val (m / 2 ^ k) (e + k) < val (Z.pos mb) eb)%Q as Hstrict.
  { eapply Qlt_le_trans; [|exact Hle]. rewrite <- val_shift by done.
    apply Qmult_lt_compat_r; [apply pow2_pos|]. apply inj_lt.
    destruct (decide (m mod 2 ^ k = 0)) as [Hmod|Hmod].
    - assert (l ≠ loc_Exact) as Hl by (intros ->; by apply Hinex, Hex).
      assert (upper m l = m + 1) as -> by (by destruct l).
      pose proof (Z.mul_div_le m (2 ^ k) Hpow). lia.
    - pose proof (Z.div_mod m (2 ^ k) ltac:(lia)) as Hdm.
      pose proof (Z.mod_pos_bound m (2 ^ k) Hpow). lia. }
  (* the bound is in a binade at least as high *)
  destruct (val_binade m e Hmpos) as [Hbl Hbh].
  destruct (val_binade (Z.pos mb) eb (Pos2Z.is_pos mb)) as [Hbl' Hbh'].
  cbn [Zdigits2] in Hbl', Hbh'.
  assert (Zdigits2 m + e ≤ Z.pos (digits2_pos mb) + eb) as Hbin.
  { destruct (decide (Zdigits2 m + e ≤ Z.pos (digits2_pos mb) + eb)); [done|].
    exfalso.
    assert (2 ^ (Z.pos (digits2_pos mb) + eb) <= 2 ^ (Zdigits2 m + e - 1))%Q
      by (apply pow2_le; lia).
    assert (val m e <= val (upper m l) e)%Q by (by apply val_le).
    apply (Qlt_irrefl (val (Z.pos mb) eb)).
    eapply Qlt_le_trans; [exact Hbh'|]. etrans; [eassumption|].
    etrans; [exact Hbl|]. etrans; [eassumption|]. exact Hle. }
  assert (e + k ≤ eb) as Hgrid.
  { rewrite Hfk. unfold canonical in Hcan. rewrite <- Hcan. by apply fexp_mono. }
  (* the bound is a multiple of the grid step *)
  assert (val (Z.pos mb) eb == val (Z.pos mb * 2 ^ (eb - (e + k))) (e + k))%Q as Hb.
  { rewrite val_shift by lia. by replace (e + k + (eb - (e + k))) with eb by lia. }
  rewrite Hb in Hstrict |- *.
  apply val_lt_inv in Hstrict. apply val_le. lia.
Qed.

Lemma shr_fexp_lower m e l mrs' e' mb eb :
  0 < m → canonical mb eb →
  (val (Z.pos mb) eb <= val m e)%Q →
  shr_fexp prec emax m e l = (mrs', e') →
  (val (Z.pos mb) eb <= val (shr_m mrs') e')%Q.
Proof.
  intros Hm Hcan Hle Hshr.
  assert (0 ≤ m) as Hm0 by lia.
  destruct (shr_fexp_spec _ _ _ _ _ Hm0 Hshr)
    as (k & Hk & -> & -> & Hfe & Hfk & Hex & Hz).
  assert (0 < 2 ^ k) as Hpow by (by apply Z.pow_pos_nonneg).
  destruct (decide (k = 0)) as [->|Hk0].
  { by rewrite Z.div_1_r, Z.add_0_r. }
  assert (0 < k) as Hkpos by lia. specialize (Hfk Hkpos).
  destruct (val_binade m e Hm) as [Hbl Hbh].
  destruct (val_binade (Z.pos mb) eb (Pos2Z.is_pos mb)) as [Hbl' Hbh'].
  cbn [Zdigits2] in Hbl', Hbh'.
  set (D := Zdigits2 m + e) in *. set (Db := Z.pos (digits2_pos mb) + eb) in *.
  assert (Db ≤ D) as Hbin.
  { destruct (decide (Db ≤ D)); [done|]. exfalso.
    assert (2 ^ D <= 2 ^ (Db - 1))%Q by (apply pow2_le; lia).
    apply (Qlt_irrefl (val m e)).
    eapply Qlt_le_trans; [exact Hbh|]. etrans; [eassumption|].
    etrans; [exact Hbl'|]. exact Hle. }
  unfold canonical in Hcan. fold Db in Hcan.
  destruct (decide (Db = D)) as [Heq|Hne].
  - assert (eb = e + k) as -> by (rewrite Hfk, <- Heq; done).
    rewrite <- val_shift in Hle by done. apply val_le_inv in Hle.
    apply val_le. apply Z.div_le_lower_bound; lia.
  - assert (Db < D) as Hlt by lia.
    pose proof (fexp_ge_emin Db) as Hemin. rewrite Hcan in Hemin.
    assert (-1074 < D) as HD by (subst Db; lia).
    pose proof (fexp_lt D HD) as Hfl. rewrite <- Hfk in Hfl.
    destruct (Zdigits2_bounds m Hm) as [Hdl _].
    etrans; [apply Qlt_le_weak; exact Hbh'|].
    etrans; [apply (pow2_le Db (D - 1)); lia|].
    replace (D - 1) with ((D - 1 - (e + k)) + (e + k)) by lia.
    rewrite pow2_add, pow2_Z by lia. apply val_le.
    apply Z.div_le_lower_bound; [done|].
    rewrite <- Z.pow_add_r by lia.
    replace (k + (D - 1 - (e + k))) with (Zdigits2 m - 1) by (subst D; lia).
    done.
Qed.

Lemma val_pos m e : 0 < m → (0 < val m e)%Q.
Proof.
  intros H. unfold val. apply Qmult_lt_0_compat; [by apply (inj_lt 0)|apply pow2_pos].
Qed.

Lemma val_0 e : (val 0 e == 0)%Q.
Proof. unfold val. ring. Qed.

(** Rounding a value that does not exceed a double [mb * 2^eb] gives a
    finite double that does not exceed it either. *)
Lemma binary_round_aux_upper m e l mb eb :
  0 ≤ m → canonical mb eb →
  (val (Z.pos mb) eb < 2 ^ 972)%Q →
  (val (upper m l) e <= val (Z.pos mb) eb)%Q →
  is_finite (binary_round_aux prec emax false m e l) = true
  ∧ (0 <= to_Q (binary_round_aux prec emax false m e l))%Q
  ∧ (to_Q (binary_round_aux prec emax false m e l) <= val (Z.pos mb) eb)%Q.
Proof.
  intros Hm Hcan Hbig Hle. unfold binary_round_aux.
  destruct (shr_fexp prec emax m e l) as [mrs' e'] eqn:H1.
  destruct (shr_fexp_upper _ _ _ _ _ _ _ Hm Hcan Hle H1) as [Hm1 Hle1].
  set (m1 := round_nearest_even _ _) in *.
  destruct (shr_fexp prec emax m1 e' loc_Exact) as [mrs'' e''] eqn:H2.
  destruct (shr_fexp_spec _ _ _ _ _ Hm1 H2) as (k & Hk & -> & Hm2 & _).
  assert (0 < 2 ^ k) as Hpow by (by apply Z.pow_pos_nonneg).
  assert (0 ≤ m1 / 2 ^ k) as Hm2pos by (by apply Z.div_pos).
  assert (val (shr_m mrs'') (e' + k) <= val (Z.pos mb) eb)%Q as Hle2.
  { rewrite Hm2. etrans; [by apply val_floor|done]. }
  pose proof (val_pos (Z.pos mb) eb (Pos2Z.is_pos mb)) as HB.
  destruct (shr_m mrs'') as [|p|p] eqn:Hsm; [| |lia].
  - simpl. split; [done|]. split; [apply Qle_refl|by apply Qlt_le_weak].
  - destruct (Z.leb_spec (e' + k) (emax - prec)) as [He|He].
    + simpl. split; [done|]. split; [|done]. by apply val_nonneg.
    + exfalso. apply (Qlt_irrefl (val (Z.pos mb) eb)).
      eapply Qlt_le_trans; [exact Hbig|]. etrans; [|exact Hle2].
      etrans; [apply (pow2_le 972 (e' + k)); unfold emax, prec in He; lia|].
      rewrite <- val_pow2. apply val_le. lia.
Qed.

(** Rounding a value that is at least a double [mb * 2^eb] gives a double
    that is at least it, unless it overflows. *)
Lemma binary_round_aux_lower m e l mb eb :
  0 < m → canonical mb eb →
  (val (Z.pos mb) eb <= val m e)%Q →
  is_finite (binary_round_aux prec emax false m e l) = true →
  (val (Z.pos mb) eb <= to_Q (binary_round_aux prec emax false m e l))%Q.
Proof.
  intros Hm Hcan Hle. unfold binary_round_aux.
  pose proof (val_pos (Z.pos mb) eb (Pos2Z.is_pos mb)) as HB.
  destruct (shr_fexp prec emax m e l) as [mrs' e'] eqn:H1.
  pose proof (shr_fexp_lower _ _ _ _ _ _ _ Hm Hcan Hle H1) as Hle1.
  destruct (round_nearest_even_bounds (shr_m mrs') (loc_of_shr_record mrs'))
    as [[Hlo Hhi] _].
  set (m1 := round_nearest_even _ _) in *.
  assert (val (Z.pos mb) eb <= val m1 e')%Q as Hle1'
    by (etrans; [exact Hle1|by apply val_le]).
  assert (0 < m1) as Hm1.
  { apply (val_lt_inv _ _ e'). rewrite val_0. by eapply Qlt_le_trans. }
  destruct (shr_fexp prec emax m1 e' loc_Exact) as [mrs'' e''] eqn:H2.
  pose proof (shr_fexp_lower _ _ _ _ _ _ _ Hm1 Hcan Hle1' H2) as Hle2.
  destruct (shr_m mrs'') as [|p|p] eqn:Hsm.
  - exfalso. rewrite val_0 in Hle2. apply (Qlt_irrefl 0). by eapply Qlt_le_trans.
  - destruct (Z.leb_spec e'' (emax - prec)); [done|]. by intros ?.
  - by intros ?.
Qed.

(** *** The three operations of the size formula *)

Lemma new_location_0 nb : new_location nb 0 = loc_Exact.
Proof. unfold new_location. by destruct (Z.even nb). Qed.

Lemma upper_new_location q nb r :
  upper q (new_location nb r) ≤ (if decide (r = 0) then q else q + 1).
Proof.
  case_decide as Hr; [by rewrite Hr, new_location_0|].
  destruct (new_location nb r); simpl; lia.
Qed.

Lemma val_mul a ea b eb : (val (a * b) (ea + eb) == val a ea * val b eb)%Q.
Proof. unfold val. rewrite pow2_add, inject_Z_mult. ring. Qed.

Lemma val_add a b e : (val (a + b) e == val a e + val b e)%Q.
Proof. unfold val. rewrite inject_Z_plus. ring. Qed.

Lemma val_1_0 : (val 1 0 == 1)%Q.
Proof. reflexivity. Qed.

Lemma to_Q_nonneg_sign s m e : (0 <= to_Q (S754_finite s m e))%Q → s = false.
Proof.
  destruct s; [|done]. simpl. intros H. exfalso.
  apply (Qlt_irrefl 0). eapply Qle_lt_trans; [exact H|].
  unfold val. pose proof (pow2_pos e) as He.
  assert (inject_Z (Z.neg m) < 0)%Q as Hn by (by apply (inj_lt _ 0)).
  revert He Hn. generalize (2 ^ e)%Q (inject_Z (Z.neg m)). intros x y ??. nra.
Qed.

(** The quotient of two ints [0 <= a <= b], [0 < b]. *)
Lemma div_unit a b :
  0 ≤ a ≤ b → 0 < b →
  is_finite (div (of_int_exact a) (of_int_exact b)) = true
  ∧ (0 <= to_Q (div (of_int_exact a) (of_int_exact b)))%Q
  ∧ (to_Q (div (of_int_exact a) (of_int_exact b)) <= 1)%Q.
Proof.
  intros [Ha Hab] Hb.
  destruct b as [|pb|pb]; try lia. destruct a as [|pa|pa]; try lia.
  { simpl. split; [done|]. split; [apply Qle_refl|done]. }
  unfold div. cbn [of_int_exact SFdiv xorb]. unfold SFdiv_core_binary.
  set (e' := Z.min _ _).
  assert (e' ≤ 0) as He' by (subst e'; lia).
  set (m' := match 0 - 0 - e' with Z.pos _ => _ | 0 => _ | Z.neg _ => _ end).
  assert (m' = Z.pos pa * 2 ^ (- e')) as Hm'.
  { subst m'. replace (0 - 0 - e') with (- e') by lia.
    destruct (- e') as [|p|p] eqn:Hs; [simpl; lia| |lia].
    by rewrite Z.shiftl_mul_pow2. }
  pose proof (Z_div_mod m' (Z.pos pb) ltac:(done)) as Hdm.
  destruct (Z.div_eucl m' (Z.pos pb)) as [q r]. destruct Hdm as [Hdm Hr].
  assert (0 < 2 ^ (- e')) as Hpow by (apply Z.pow_pos_nonneg; lia).
  assert (0 ≤ q) as Hq by nia.
  assert (val 4503599627370496 (-52) == 1)%Q as H1 by reflexivity.
  destruct (binary_round_aux_upper q e' (new_location (Z.pos pb) r)
              4503599627370496 (-52)) as (Hf & Hlo & Hhi); [done|done|done| |].
  2: { split; [done|]. split; [done|]. by rewrite <- H1. }
  rewrite H1. rewrite <- val_1_0.
  etrans; [apply val_le, upper_new_location|].
  etrans; [apply (val_le _ (2 ^ (- e')))|].
  { case_decide; nia. }
  rewrite <- (Z.mul_1_l (2 ^ (- e'))), val_shift by lia.
  by replace (e' + - e') with 0 by lia.
Qed.

Lemma div_zero b : 0 < b → div (of_int_exact 0) (of_int_exact b) = S754_zero false.
Proof. by destruct b. Qed.

Lemma div_self b : 0 < b → div (of_int_exact b) (of_int_exact b) = of_int 1.
Proof.
  destruct b as [|p|p]; try lia. intros _.
  unfold div. cbn [of_int_exact SFdiv xorb]. unfold SFdiv_core_binary.
  replace (Zdigits2 (Z.pos p) + 0 - (Zdigits2 (Z.pos p) + 0)) with 0 by lia.
  change (Z.min (fexp prec emax 0) (0 - 0)) with (-53).
  change (0 - 0 - -53) with 53. cbv iota.
  rewrite Z.shiftl_mul_pow2 by done.
  pose proof (Z_div_mod (Z.pos p * 2 ^ 53) (Z.pos p) ltac:(done)) as Hdm.
  destruct (Z.div_eucl (Z.pos p * 2 ^ 53) (Z.pos p)) as [q r].
  destruct Hdm as [Hdm Hr].
  assert (q = 2 ^ 53 ∧ r = 0) as [-> ->].
  { apply (Z.div_mod_unique (Z.pos p)); [lia|lia|]. rewrite <- Hdm. lia. }
  rewrite new_location_0. by vm_compute.
Qed.

(** Times 40. *)
Lemma mul_40 x :
  is_finite x = true → (0 <= to_Q x)%Q → (to_Q x <= 1)%Q →
  is_finite (mul x (of_int 40)) = true
  ∧ (0 <= to_Q (mul x (of_int 40)))%Q
  ∧ (to_Q (mul x (of_int 40)) <= 40)%Q.
Proof.
  intros Hfin H0 H1.
  change (of_int 40) with (S754_finite false 5629499534213120 (-47)).
  destruct x as [s| | |s m e]; [by destruct s|done|done|].
  pose proof (to_Q_nonneg_sign _ _ _ H0) as ->.
  unfold mul. cbn [SFmul xorb].
  change (Z.pos (m * 5629499534213120)) with (Z.pos m * 5629499534213120).
  assert (val 5629499534213120 (-47) == 40)%Q as H40 by reflexivity.
  rewrite <- H40.
  apply (binary_round_aux_upper _ _ loc_Exact 5629499534213120 (-47));
    [lia|done|done|].
  cbn [upper]. rewrite val_mul. simpl in H1.
  assert (0 < val 5629499534213120 (-47))%Q as Hpos by (by apply val_pos).
  revert H1 Hpos. generalize (val (Z.pos m) e) (val 5629499534213120 (-47)).
  intros x y ??. nra.
Qed.

Lemma iter_xO m d : Z.pos (Pos.iter xO m d) = Z.pos m * 2 ^ Z.pos d.
Proof.
  induction d as [|d IH] using Pos.peano_ind; [simpl; lia|].
  rewrite Pos.iter_succ, Pos2Z.inj_succ, Z.pow_succ_r by lia.
  change (Z.pos (Pos.iter xO m d)~0) with (2 * Z.pos (Pos.iter xO m d)).
  rewrite IH. lia.
Qed.

Lemma shl_align_val mx ex ex' :
  (val (Z.pos (shl_align mx ex ex').1) (shl_align mx ex ex').2 == val (Z.pos mx) ex)%Q.
Proof.
  unfold shl_align. destruct (ex' - ex) as [|d|d] eqn:Hd; simpl; try reflexivity.
  rewrite iter_xO, val_shift by lia. by replace (ex' + Z.pos d) with ex by lia.
Qed.

Lemma shl_align_fst mx ex ex' :
  ex' ≤ ex → Z.pos (shl_align mx ex ex').1 = Z.pos mx * 2 ^ (ex - ex').
Proof.
  intros H. unfold shl_align. destruct (ex' - ex) as [|d|d] eqn:Hd; simpl; [|lia|].
  - replace (ex - ex') with 0 by lia. lia.
  - rewrite iter_xO. by replace (ex - ex') with (Z.pos d) by lia.
Qed.

(** Ten plus. *)
Lemma add_10 y :
  is_finite y = true → (0 <= to_Q y)%Q → (to_Q y <= 40)%Q →
  is_finite (add (of_int 10) y) = true
  ∧ (10 <= to_Q (add (of_int 10) y))%Q
  ∧ (to_Q (add (of_int 10) y) <= 50)%Q.
Proof.
  intros Hfin H0 H40. destruct y as [s| | |s m e]; [by destruct s|done|done|].
  pose proof (to_Q_nonneg_sign _ _ _ H0) as ->.
  change (of_int 10) with (S754_finite false 5629499534213120 (-49)).
  unfold add. cbn [SFadd cond_Zopp]. set (ez := Z.min (-49) e).
  rewrite (shl_align_fst _ (-49) ez), (shl_align_fst m e ez) by (subst ez; lia).
  set (M := 5629499534213120 * 2 ^ (-49 - ez) + Z.pos m * 2 ^ (e - ez)).
  assert (0 < 2 ^ (-49 - ez)) by (apply Z.pow_pos_nonneg; subst ez; lia).
  assert (0 < 2 ^ (e - ez)) by (apply Z.pow_pos_nonneg; subst ez; lia).
  assert (val M ez == 10 + val (Z.pos m) e)%Q as HM.
  { subst M. rewrite val_add, !val_shift by (subst ez; lia).
    replace (ez + (-49 - ez)) with (-49) by lia.
    replace (ez + (e - ez)) with e by lia.
    apply Qplus_comp; reflexivity. }
  destruct M as [|pM|pM] eqn:HMeq; [lia| |lia].
  cbn [binary_normalize]. unfold binary_round.
  pose proof (shl_align_val pM ez (fexp prec emax (Z.pos (digits2_pos pM) + ez))) as Hal.
  destruct (shl_align pM ez _) as [mz ez']. cbn [fst snd] in Hal.
  rewrite HM in Hal. simpl in H40, H0.
  assert (val 5629499534213120 (-49) == 10)%Q as H10 by reflexivity.
  assert (val 7036874417766400 (-47) == 50)%Q as H50 by reflexivity.
  destruct (binary_round_aux_upper (Z.pos mz) ez' loc_Exact 7036874417766400 (-47))
    as (Hf & _ & Hu); [lia|done|done| |].
  { cbn [upper]. rewrite Hal, H50. lra. }
  split; [done|]. split; [|by rewrite <- H50].
  rewrite <- H10.
  apply binary_round_aux_lower; [lia|done| |done].
  rewrite Hal, H10. lra.
Qed.

(** *** Rounding stays inside the cell of any grid of the format *)

Lemma Zdigits2_unique m d : 0 < m → 2 ^ (d - 1) ≤ m < 2 ^ d → Zdigits2 m = d.
Proof.
  intros Hm [Hlo Hhi]. destruct (Zdigits2_bounds m Hm) as [Hlo' Hhi'].
  pose proof (Zdigits2_pos m Hm) as Hd'.
  assert (0 < d) as Hd.
  { destruct (decide (0 < d)); [done|]. exfalso.
    assert (2 ^ d ≤ 2 ^ 0) by (apply Z.pow_le_mono_r; lia). simpl in *. lia. }
  destruct (Z.lt_trichotomy (Zdigits2 m) d) as [Hlt|[Heq|Hgt]]; [|done|]; exfalso.
  - assert (2 ^ Zdigits2 m ≤ 2 ^ (d - 1)) by (apply Z.pow_le_mono_r; lia). lia.
  - assert (2 ^ d ≤ 2 ^ (Zdigits2 m - 1)) by (apply Z.pow_le_mono_r; lia). lia.
Qed.

Lemma Zdigits2_shift k j : 0 < k → 0 ≤ j → Zdigits2 (k * 2 ^ j) = Zdigits2 k + j.
Proof.
  intros Hk Hj. destruct (Zdigits2_bounds k Hk) as [Hlo Hhi].
  pose proof (Zdigits2_pos k Hk) as Hd.
  assert (0 < 2 ^ j) as Hpow by (by apply Z.pow_pos_nonneg).
  apply Zdigits2_unique; [nia|].
  replace (Zdigits2 k + j - 1) with ((Zdigits2 k - 1) + j) by lia.
  rewrite !Z.pow_add_r by lia. nia.
Qed.

Lemma Zdigits2_mono a b : 0 < a → a ≤ b → Zdigits2 a ≤ Zdigits2 b.
Proof.
  intros Ha Hab. destruct (Zdigits2_bounds a Ha) as [Hlo _].
  destruct (Zdigits2_bounds b ltac:(lia)) as [_ Hhi].
  pose proof (Zdigits2_pos b ltac:(lia)).
  destruct (decide (Zdigits2 a ≤ Zdigits2 b)); [done|]. exfalso.
  assert (2 ^ Zdigits2 b ≤ 2 ^ (Zdigits2 a - 1)) by (apply Z.pow_le_mono_r; lia).
  lia.
Qed.

(** Every [k * 2^g] with [0 < k <= 2^53] on a grid of the format is a
    double. *)
Lemma canonical_exists k g :
  0 < k ≤ 2 ^ 53 → -1074 ≤ g →
  ∃ mb eb, canonical mb eb ∧ (val (Z.pos mb) eb == val k g)%Q.
Proof.
  intros [Hk Hk53] Hg.
  destruct (decide (k = 2 ^ 53)) as [->|Hne].
  { exists 4503599627370496%positive, (g + 1). split.
    - unfold canonical. change (Z.pos (digits2_pos 4503599627370496)) with 53.
      unfold fexp, emin, prec, emax. lia.
    - rewrite <- val_shift by lia. done. }
  destruct (Zdigits2_bounds k Hk) as [Hlo Hhi].
  pose proof (Zdigits2_pos k Hk) as Hd.
  assert (Zdigits2 k ≤ 53) as Hd53.
  { destruct (decide (Zdigits2 k ≤ 53)); [done|]. exfalso.
    assert (2 ^ 53 ≤ 2 ^ (Zdigits2 k - 1)) by (apply Z.pow_le_mono_r; lia). lia. }
  set (eb := fexp prec emax (Zdigits2 k + g)).
  assert (eb ≤ g) as Heb by (subst eb; unfold fexp, emin, prec, emax; lia).
  assert (0 < 2 ^ (g - eb)) as Hpow by (apply Z.pow_pos_nonneg; lia).
  assert (0 < k * 2 ^ (g - eb)) as Hpos by nia.
  destruct (k * 2 ^ (g - eb)) as [|mb|mb] eqn:Hmb; try lia.
  exists mb, eb. split.
  - unfold canonical.
    change (Z.pos (digits2_pos mb)) with (Zdigits2 (Z.pos mb)).
    rewrite <- Hmb, Zdigits2_shift by lia.
    by replace (Zdigits2 k + (g - eb) + eb) with (Zdigits2 k + g) by lia.
  - rewrite <- Hmb, val_shift by lia. by replace (eb + (g - eb)) with g by lia.
Qed.

Lemma val_lt_pow2 k g n : k ≤ 2 ^ n → 0 ≤ n → (val k g <= 2 ^ (n + g))%Q.
Proof.
  intros Hk Hn. rewrite pow2_add, (pow2_Z n) by done.
  apply Qmult_le_compat_r; [by apply inj_le|]. apply Qlt_le_weak, pow2_pos.
Qed.

(** A value between two neighbouring points [Klo * 2^g] and [Khi * 2^g]
    of a grid of the format rounds to a double between them. *)
Lemma binary_round_aux_between m e l g Klo Khi :
  0 ≤ m → -1074 ≤ g ≤ 900 → 0 ≤ Klo → 0 < Khi ≤ 2 ^ 53 →
  (val Klo g <= val m e)%Q →
  (val (upper m l) e <= val Khi g)%Q →
  is_finite (binary_round_aux prec emax false m e l) = true
  ∧ (val Klo g <= to_Q (binary_round_aux prec emax false m e l))%Q
  ∧ (to_Q (binary_round_aux prec emax false m e l) <= val Khi g)%Q.
Proof.
  intros Hm [Hg Hg'] Hlo Hhi Hle1 Hle2.
  destruct (canonical_exists Khi g Hhi Hg) as (mb & eb & Hcan & Hval).
  destruct (binary_round_aux_upper m e l mb eb) as (Hf & H0 & Hu); [done|done| | |].
  { rewrite Hval. eapply Qle_lt_trans; [apply (val_lt_pow2 _ _ 53); lia|].
    apply pow2_lt. lia. }
  { by rewrite Hval. }
  split; [done|]. split; [|by rewrite <- Hval].
  destruct (decide (Klo = 0)) as [->|Hne]; [by rewrite val_0|].
  assert (0 < Klo) as Hlo' by lia.
  assert (Klo ≤ 2 ^ 53) as Hlo53.
  { assert (Klo ≤ Khi); [|lia].
    apply (val_le_inv _ _ g). etrans; [exact Hle1|]. etrans; [|exact Hle2].
    apply val_le. destruct l; simpl; lia. }
  destruct (canonical_exists Klo g (conj Hlo' Hlo53) Hg) as (mb' & eb' & Hcan' & Hval').
  rewrite <- Hval'. apply binary_round_aux_lower; [|done|by rewrite Hval'|done].
  apply (val_lt_inv _ _ e). rewrite val_0.
  eapply Qlt_le_trans; [|exact Hle1]. by apply val_pos.
Qed.

(** Rounding moves a value by at most one step of any grid of the format
    that is no finer than the mantissa's and on which the value has at most
    53 bits. *)
Lemma binary_round_aux_error m e l g v :
  0 ≤ m → e ≤ g → -1074 ≤ g ≤ 900 →
  (val m e < 2 ^ (53 + g))%Q →
  (val m e <= v)%Q → (v <= val (upper m l) e)%Q →
  is_finite (binary_round_aux prec emax false m e l) = true
  ∧ (to_Q (binary_round_aux prec emax false m e l) - 2 ^ g <= v)%Q
  ∧ (v <= to_Q (binary_round_aux prec emax false m e l) + 2 ^ g)%Q.
Proof.
  intros Hm Heg Hg Hsmall Hlo Hhi.
  assert (0 < 2 ^ (g - e)) as Hpow by (apply Z.pow_pos_nonneg; lia).
  set (K := m / 2 ^ (g - e)).
  assert (0 ≤ K) as HK by (by apply Z.div_pos).
  assert (val K g <= val m e)%Q as HKlo.
  { replace g with (e + (g - e)) at 1 by lia. apply val_floor; lia. }
  assert (K < 2 ^ 53) as HK53.
  { apply (val_lt_inv _ _ g). eapply Qle_lt_trans; [exact HKlo|].
    eapply Qlt_le_trans; [exact Hsmall|].
    rewrite pow2_add, (pow2_Z 53) by lia. apply Qle_refl. }
  assert (val (upper m l) e <= val (K + 1) g)%Q as HKhi.
  { replace g with (e + (g - e)) by lia. rewrite <- val_shift by lia.
    apply val_le.
    pose proof (Z.div_mod m (2 ^ (g - e)) ltac:(lia)) as Hdm.
    pose proof (Z.mod_pos_bound m (2 ^ (g - e)) Hpow) as Hmod.
    fold K in Hdm. assert (upper m l ≤ m + 1) by (destruct l; simpl; lia). nia. }
  destruct (binary_round_aux_between m e l g K (K + 1)) as (Hf & H1 & H2);
    [done|done|done|lia|done|done|].
  split; [done|].
  rewrite val_add, val_pow2 in H2, HKhi.
  pose proof (pow2_pos g) as Hgp.
  revert H1 H2 HKlo HKhi Hlo Hhi Hgp.
  generalize (to_Q (binary_round_aux prec emax false m e l)) (val K g) (2 ^ g)%Q
    (val m e) (val (upper m l) e).
  intros x1 x2 x3 x4 x5 ???????. split; lra.
Qed.

Lemma Qdiv_ge_cross (n A B P : Q) :
  (0 < B)%Q → (0 < P)%Q → (n * B <= A * P)%Q → (n * / P <= A / B)%Q.
Proof.
  intros HB HP H. apply Qle_shift_div_l; [done|].
  setoid_replace (n * / P * B)%Q with ((n * B) / P)%Q using relation Qeq
    by (unfold Qdiv; ring).
  by apply Qle_shift_div_r.
Qed.

Lemma Qdiv_le_cross (n A B P : Q) :
  (0 < B)%Q → (0 < P)%Q → (A * P <= n * B)%Q → (A / B <= n * / P)%Q.
Proof.
  intros HB HP H. apply Qle_shift_div_r; [done|].
  setoid_replace (n * / P * B)%Q with ((n * B) / P)%Q using relation Qeq
    by (unfold Qdiv; ring).
  by apply Qle_shift_div_l.
Qed.

Lemma pow2_neg s : 0 ≤ s → (2 ^ (- s) == / inject_Z (2 ^ s))%Q.
Proof. intros Hs. by rewrite Qpower_opp, pow2_Z. Qed.

Lemma upper_new_location_inexact q nb r :
  r ≠ 0 → upper q (new_location nb r) = q + 1.
Proof.
  intros Hr. apply Z.eqb_neq in Hr.
  unfold new_location, new_location_even, new_location_odd.
  destruct (Z.even nb); by rewrite Hr.
Qed.

Lemma upper_ge m l : m ≤ upper m l.
Proof. destruct l; simpl; lia. Qed.

(** The quotient of two ints [0 <= a <= b] is within [2^-53] of [a / b]. *)
Lemma div_error a b :
  0 ≤ a ≤ b → 0 < b →
  (to_Q (div (of_int_exact a) (of_int_exact b)) - 2 ^ (-53)
   <= inject_Z a / inject_Z b)%Q
  ∧ (inject_Z a / inject_Z b
     <= to_Q (div (of_int_exact a) (of_int_exact b)) + 2 ^ (-53))%Q.
Proof.
  intros [Ha Hab] Hb.
  assert (0 < inject_Z b)%Q as HbQ by (by apply (inj_lt 0)).
  destruct (decide (a = b)) as [->|Hne].
  { rewrite div_self by done.
    assert (inject_Z b / inject_Z b == 1)%Q as ->.
    { apply Qmult_inv_r. intros H. rewrite H in HbQ. by apply Qlt_irrefl in HbQ. }
    split; by vm_compute. }
  destruct (decide (a = 0)) as [->|Hne0].
  { rewrite div_zero by done.
    assert (inject_Z 0 / inject_Z b == 0)%Q as -> by (unfold Qdiv; apply Qmult_0_l).
    split; by vm_compute. }
  destruct b as [|pb|pb]; try lia. destruct a as [|pa|pa]; try lia.
  unfold div. cbn [of_int_exact SFdiv xorb]. unfold SFdiv_core_binary.
  set (e' := Z.min _ _).
  assert (e' ≤ -53) as He'.
  { subst e'. pose proof (Zdigits2_mono (Z.pos pa) (Z.pos pb) ltac:(lia) Hab).
    unfold fexp, emin, prec, emax. lia. }
  set (m' := match 0 - 0 - e' with Z.pos _ => _ | 0 => _ | Z.neg _ => _ end).
  assert (m' = Z.pos pa * 2 ^ (- e')) as Hm'.
  { subst m'. replace (0 - 0 - e') with (- e') by lia.
    destruct (- e') as [|p|p] eqn:Hs; [lia| |lia].
    by rewrite Z.shiftl_mul_pow2. }
  pose proof (Z_div_mod m' (Z.pos pb) ltac:(done)) as Hdm.
  destruct (Z.div_eucl m' (Z.pos pb)) as [q r]. destruct Hdm as [Hdm Hr].
  assert (0 < 2 ^ (- e')) as Hpow by (apply Z.pow_pos_nonneg; lia).
  assert (0 ≤ q) as Hq by nia.
  assert (q < 2 ^ (- e')) as Hq' by nia.
  assert (0 < inject_Z (2 ^ (- e')))%Q as HP by (by apply (inj_lt 0)).
  assert (∀ x, val x e' == inject_Z x * / inject_Z (2 ^ (- e')))%Q as Hval.
  { intros x. unfold val. replace e' with (- (- e')) at 1 by lia.
    by rewrite pow2_neg by lia. }
  destruct (binary_round_aux_error q e' (new_location (Z.pos pb) r) (-53)
              (inject_Z (Z.pos pa) / inject_Z (Z.pos pb))) as (_ & H1 & H2);
    [done|done|lia| | | |done].
  - assert (val q e' < val (2 ^ (- e')) e')%Q as Hlt.
    { unfold val. apply Qmult_lt_compat_r; [apply pow2_pos|by apply inj_lt]. }
    eapply Qlt_le_trans; [exact Hlt|].
    rewrite <- (Z.mul_1_l (2 ^ (- e'))), val_shift by lia.
    replace (e' + - e') with 0 by lia. apply Qle_refl.
  - rewrite Hval. apply Qdiv_ge_cross; [done|done|].
    rewrite <- !inject_Z_mult. apply inj_le. nia.
  - rewrite Hval. apply Qdiv_le_cross; [done|done|].
    rewrite <- !inject_Z_mult. apply inj_le.
    destruct (decide (r = 0)) as [->|Hr0].
    + pose proof (upper_ge q (new_location (Z.pos pb) 0)). nia.
    + rewrite upper_new_location_inexact by done. nia.
Qed.

Lemma val_ge_pow2 m e : 0 < m → (2 ^ e <= val m e)%Q.
Proof. intros Hm. rewrite <- val_pow2. apply val_le. lia. Qed.

(** Times 40: within [2^-47] of the product. *)
Lemma mul_40_error x :
  is_finite x = true → (0 <= to_Q x)%Q → (to_Q x <= 1)%Q →
  (to_Q (mul x (of_int 40)) - 2 ^ (-47) <= to_Q x * 40)%Q
  ∧ (to_Q x * 40 <= to_Q (mul x (of_int 40)) + 2 ^ (-47))%Q.
Proof.
  intros Hfin H0 H1.
  change (of_int 40) with (S754_finite false 5629499534213120 (-47)).
  destruct x as [s| | |s m e]; [by destruct s|done|done|].
  pose proof (to_Q_nonneg_sign _ _ _ H0) as ->.
  unfold mul. cbn [SFmul xorb].
  change (Z.pos (m * 5629499534213120)) with (Z.pos m * 5629499534213120).
  cbn [to_Q] in *.
  assert (val 5629499534213120 (-47) == 40)%Q as H40 by reflexivity.
  assert (e ≤ 0) as He.
  { destruct (decide (e ≤ 0)); [done|]. exfalso.
    pose proof (val_ge_pow2 (Z.pos m) e ltac:(done)) as Hge.
    pose proof (pow2_le 1 e ltac:(lia)) as Hp. change (2 ^ 1)%Q with 2%Q in Hp.
    revert H1 Hge Hp. generalize (val (Z.pos m) e) (2 ^ e)%Q. intros ?????. lra. }
  assert (val (Z.pos m * 5629499534213120) (e + -47) == val (Z.pos m) e * 40)%Q as Hv.
  { by rewrite val_mul, H40. }
  destruct (binary_round_aux_error (Z.pos m * 5629499534213120) (e + -47)
              loc_Exact (-47) (val (Z.pos m) e * 40)) as (_ & Ha & Hb);
    [lia|lia|lia| | | |done].
  - rewrite Hv. change (2 ^ (53 + -47))%Q with 64%Q.
    revert H1. generalize (val (Z.pos m) e). intros ??. lra.
  - rewrite Hv. apply Qle_refl.
  - cbn [upper]. rewrite Hv. apply Qle_refl.
Qed.

Lemma shl_align_snd_le mx ex ex' : (shl_align mx ex ex').2 ≤ ex.
Proof. unfold shl_align. destruct (ex' - ex) eqn:H; simpl; lia. Qed.

(** Ten plus: within [2^-47] of the sum. *)
Lemma add_10_error y :
  is_finite y = true → (0 <= to_Q y)%Q → (to_Q y <= 40)%Q →
  (to_Q (add (of_int 10) y) - 2 ^ (-47) <= 10 + to_Q y)%Q
  ∧ (10 + to_Q y <= to_Q (add (of_int 10) y) + 2 ^ (-47))%Q.
Proof.
  intros Hfin H0 H40. destruct y as [s| | |s m e]; [by destruct s|done|done|].
  pose proof (to_Q_nonneg_sign _ _ _ H0) as ->.
  change (of_int 10) with (S754_finite false 5629499534213120 (-49)).
  unfold add. cbn [SFadd cond_Zopp]. set (ez := Z.min (-49) e).
  rewrite (shl_align_fst _ (-49) ez), (shl_align_fst m e ez) by (subst ez; lia).
  set (M := 5629499534213120 * 2 ^ (-49 - ez) + Z.pos m * 2 ^ (e - ez)).
  assert (0 < 2 ^ (-49 - ez)) by (apply Z.pow_pos_nonneg; subst ez; lia).
  assert (0 < 2 ^ (e - ez)) by (apply Z.pow_pos_nonneg; subst ez; lia).
  assert (val M ez == 10 + val (Z.pos m) e)%Q as HM.
  { subst M. rewrite val_add, !val_shift by (subst ez; lia).
    replace (ez + (-49 - ez)) with (-49) by lia.
    replace (ez + (e - ez)) with e by lia.
    apply Qplus_comp; reflexivity. }
  destruct M as [|pM|pM] eqn:HMeq; [lia| |lia].
  cbn [binary_normalize]. unfold binary_round.
  pose proof (shl_align_val pM ez (fexp prec emax (Z.pos (digits2_pos pM) + ez))) as Hal.
  pose proof (shl_align_snd_le pM ez (fexp prec emax (Z.pos (digits2_pos pM) + ez)))
    as Hsnd.
  destruct (shl_align pM ez _) as [mz ez']. cbn [fst snd] in Hal, Hsnd.
  rewrite HM in Hal. cbn [to_Q] in *.
  destruct (binary_round_aux_error (Z.pos mz) ez' loc_Exact (-47)
              (10 + val (Z.pos m) e)) as (_ & Ha & Hb);
    [lia|subst ez; lia|lia| | | |done].
  - rewrite Hal. change (2 ^ (53 + -47))%Q with 64%Q.
    revert H40. generalize (val (Z.pos m) e). intros ??. lra.
  - rewrite Hal. apply Qle_refl.
  - cbn [upper]. rewrite Hal. apply Qle_refl.
Qed.

End f64_facts.

(** ** The scaled size *)

Lemma truediv_unit (a r : Z) :
  0 ≤ a ≤ r → 0 < r →
  truediv a r = Ok (f64.div (f64.of_int_exact a) (f64.of_int_exact r)).
Proof.
  intros Ha Hr. unfold truediv.
  destruct (Z.eqb_spec r 0) as [->|_]; [lia|].
  destruct (f64_facts.div_unit a r Ha Hr) as (Hfin & _).
  by destruct (f64.div _ _).
Qed.

(** The size for a node whose degree is [a] above the minimum, the divisor
    being [r]: a double between 10 and 50, within [2^-45] of the real
    number [10 + 40 * a / r]. *)
Lemma final_size_bounds (a r : Z) :
  0 ≤ a ≤ r → 0 < r →
  let s := fadd (f64.of_int 10)
             (fmul (f64.div (f64.of_int_exact a) (f64.of_int_exact r))
                (f64.of_int 40)) in
  f64.is_finite s = true
  ∧ (10 <= f64.to_Q s)%Q ∧ (f64.to_Q s <= 50)%Q
  ∧ (f64.to_Q s - 2 ^ (-45) <= 10 + 40 * (inject_Z a / inject_Z r))%Q
  ∧ (10 + 40 * (inject_Z a / inject_Z r) <= f64.to_Q s + 2 ^ (-45))%Q.
Proof.
  intros Ha Hr. unfold fadd, fmul.
  destruct (f64_facts.div_unit a r Ha Hr) as (Hqf & Hq0 & Hq1).
  destruct (f64_facts.div_error a r Ha Hr) as [Hqa Hqb].
  set (q := f64.div _ _) in *.
  destruct (f64_facts.mul_40 q Hqf Hq0 Hq1) as (Htf & Ht0 & Ht1).
  destruct (f64_facts.mul_40_error q Hqf Hq0 Hq1) as [Hta Htb].
  set (t := f64.mul q _) in *.
  destruct (f64_facts.add_10 t Htf Ht0 Ht1) as (Hsf & Hs0 & Hs1).
  destruct (f64_facts.add_10_error t Htf Ht0 Ht1) as [Hsa Hsb].
  cbv zeta. set (s := f64.add _ t) in *.
  split; [done|]. split; [done|]. split; [done|].
  change (2 ^ (-45))%Q with (1 # 35184372088832)%Q.
  change (2 ^ (-47))%Q with (1 # 140737488355328)%Q in *.
  change (2 ^ (-53))%Q with (1 # 9007199254740992)%Q in *.
  revert Hqa Hqb Hta Htb Hsa Hsb.
  generalize (f64.to_Q s) (f64.to_Q t) (f64.to_Q q) (inject_Z a / inject_Z r)%Q.
  intros ??????????. split; lra.
Qed.

Lemma final_size_low (r : Z) :
  0 < r →
  fadd (f64.of_int 10)
    (fmul (f64.div (f64.of_int_exact 0) (f64.of_int_exact r)) (f64.of_int 40))
  = f64.of_int 10.
Proof. intros Hr. by rewrite f64_facts.div_zero. Qed.

Lemma final_size_high (r : Z) :
  0 < r →
  fadd (f64.of_int 10)
    (fmul (f64.div (f64.of_int_exact r) (f64.of_int_exact r)) (f64.of_int 40))
  = f64.of_int 50.
Proof. intros Hr. rewrite f64_facts.div_self by done. by vm_compute. Qed.

(** The division of line 92 returns for every degree of the graph. *)
Lemma truediv_degree (degrees : list Z) (d : Z) :
  d ∈ degrees →
  truediv (d - spec_min_deg degrees) (spec_range degrees)
  = Ok (f64.div (f64.of_int_exact (d - spec_min_deg degrees))
          (f64.of_int_exact (spec_range degrees))).
Proof.
  intros Hin.
  pose proof (spec_min_le _ _ Hin) as Hlo.
  pose proof (spec_max_ge _ _ Hin) as Hhi.
  pose proof (spec_range_pos degrees) as Hpos.
  apply truediv_unit; [|done].
  unfold spec_range in *.
  destruct (Z.eqb_spec (spec_max_deg degrees - spec_min_deg degrees) 0); lia.
Qed.

(** *** What no double can be *)

Lemma pow2_mod_3 (k : nat) : 2 ^ Z.of_nat k `mod` 3 = 1 ∨ 2 ^ Z.of_nat k `mod` 3 = 2.
Proof.
  induction k as [|k IH]; [by left|].
  rewrite Nat2Z.inj_succ, Z.pow_succ_r by lia.
  rewrite Z.mul_mod by lia. destruct IH as [-> | ->]; [by right|by left].
Qed.

(** The real number 70/3 is no double. *)
Lemma no_double_70_3 (x : spec_float) : ¬ (f64.to_Q x == 70 # 3)%Q.
Proof.
  destruct x as [s|s| |s m e]; try done. simpl.
  set (M := if s then Z.neg m else Z.pos m). unfold f64.val.
  destruct (Z.le_gt_cases 0 e) as [He|He].
  - rewrite (f64_facts.pow2_Z e He), <- inject_Z_mult.
    unfold Qeq. simpl. lia.
  - replace e with (- (- e)) by lia.
    rewrite (f64_facts.pow2_neg (- e)) by lia.
    pose proof (Z.pow_pos_nonneg 2 (- e) ltac:(lia) ltac:(lia)) as Hpos.
    intros Heq.
    assert (M * 3 = 70 * 2 ^ (- e)) as Hz.
    { apply (Qmult_inj_r _ _ (inject_Z (2 ^ (- e)))) in Heq.
      - rewrite <- Qmult_assoc, (Qmult_comm (/ _)), Qmult_inv_r, Qmult_1_r in Heq.
        + revert Heq. unfold Qeq. simpl. lia.
        + unfold Qeq. simpl. lia.
      - unfold Qeq. simpl. lia. }
    assert ((70 * 2 ^ (- e)) `mod` 3 = 0) as Hmod.
    { rewrite <- Hz. apply Z.mod_mul. lia. }
    rewrite Z.mul_mod in Hmod by lia.
    rewrite <- (Z2Nat.id (- e)) in Hmod by lia.
    by destruct (pow2_mod_3 (Z.to_nat (- e))) as [Hk|Hk]; rewrite Hk in Hmod.
Qed.

(** ** Reading a returned figure *)

Lemma foldl_push_node acc items :
  foldl push_node acc items
  = mk_node_lists (node_x acc ++ map item_x items)
      (node_y acc ++ map item_y items)
      (node_text acc ++ map item_text items)
      (node_sizes acc ++ map item_size items)
      (node_colors acc ++ map item_color items).
Proof.
  revert acc. induction items as [|e items IH]; intros acc; simpl.
  - rewrite !app_nil_r. by destruct acc.
  - rewrite IH. simpl. by rewrite <- !app_assoc.
Qed.

Lemma foldl_push_edge acc segs :
  foldl push_edge acc segs
  = (acc.1 ++ concat (map segment_x segs), acc.2 ++ concat (map segment_y segs)).
Proof.
  revert acc. induction segs as [|p segs IH]; intros acc; simpl.
  - rewrite !app_nil_r. by destruct acc.
  - rewrite IH. simpl. by rewrite <- !app_assoc.
Qed.

Lemma figure_of_Ok float_str pos G fig :
  figure_of float_str pos G = Ok fig →
  ∃ items segs,
    Forall2 (λ n e, node_item_of float_str pos (spec_min_deg (degrees_of G))
                      (spec_range (degrees_of G)) G n = Ok e) (nx.nodes G) items
    ∧ Forall2 (λ ed p, edge_item_of pos ed = Ok p) (nx.edges G) segs
    ∧ fig = mk_figure (concat (map segment_x segs)) (concat (map segment_y segs))
              (map item_x items) (map item_y items) (map item_text items)
              (map item_size items) (map item_color items)
              (marker_cmin fig) (marker_cmax fig)
    ∧ color_bound value_min 0 (map item_color items) = Ok (marker_cmin fig)
    ∧ color_bound value_max 1 (map item_color items) = Ok (marker_cmax fig).
Proof.
  unfold figure_of. rewrite degree_view_degrees, degree_scale_spec. simpl.
  destruct (collect _ (nx.nodes G)) as [e|items] eqn:Hitems; [done|].
  destruct (collect _ (nx.edges G)) as [e|segs] eqn:Hsegs; [done|].
  rewrite foldl_push_node, foldl_push_edge. simpl.
  destruct (color_bound value_min _ _) as [e|cmin] eqn:Hmin; [done|].
  destruct (color_bound value_max _ _) as [e|cmax] eqn:Hmax; [done|].
  intros [= <-]. exists items, segs. simpl.
  split; [by apply collect_Forall2|]. split; [by apply collect_Forall2|]. done.
Qed.

Lemma spec_min_elem_of d ds : spec_min_deg (d :: ds) ∈ d :: ds.
Proof.
  simpl. revert d. induction ds as [|y ds IH]; intros d; simpl; [left|].
  destruct (Z.min_spec y (foldr Z.min d ds)) as [[_ ->]|[_ ->]].
  - right; left.
  - specialize (IH d). apply elem_of_cons in IH as [->|IH]; [left|by do 2 right].
Qed.

Lemma degree_row_degree G n d :
  nx.degree G n = Ok d →
  ∃ i r, nx.find_row G n = Some (i, r) ∧ d = nx.row_degree r ∧ d ∈ degrees_of G.
Proof.
  unfold nx.degree. destruct (nx.find_row G n) as [[i r]|] eqn:Hrow; [|done].
  intros [= <-]. exists i, r. split; [done|]. split; [done|].
  apply find_row_Some in Hrow as [Hi _].
  apply list_elem_of_fmap. exists r. split; [done|].
  by eapply list_elem_of_lookup_2.
Qed.

Lemma item_size_spec float_str pos G n e d :
  node_item_of float_str pos (spec_min_deg (degrees_of G))
    (spec_range (degrees_of G)) G n = Ok e →
  nx.degree G n = Ok d →
  item_size e = spec_pixel_size_f64 (degrees_of G) d.
Proof.
  intros He (i & r & Hrow & -> & _)%degree_row_degree.
  unfold node_item_of, truediv in He.
  destruct (getitem pos n); [done|]. rewrite Hrow in He.
  destruct (_ =? 0); [done|]. unfold spec_pixel_size_f64.
  destruct (f64.div _ _); try done; by injection He as <-.
Qed.

Section PixelSize.

Context {rng : Type}.
Variable RandomState : Z → rng.
Variable fruchterman_reingold : Graph → Q → nat → rng → Layout * rng.
Variable float_str : Q → string.

(** C2, amended. Whenever the pipeline returns a figure, the size of
    every node is the double that [10 + ((degree - minDeg) / range) * 40]
    gives in double precision, [range] forced to 1 when it is 0; it is
    within [2^-45] of the real number [10 + 40 * (degree - minDeg) / range];
    it lies in [10, 50]; it is exactly 10 at the lowest degree, exactly 50
    at the highest degree when the range is positive, and exactly 10 when
    all nodes have the same degree. *)
Theorem pixel_size_min_max network_name (w w' : @world rng) fig :
  create_plotly_graph RandomState fruchterman_reingold float_str network_name w
  = (Ok fig, w') →
  let degrees := degrees_of (nx_graph w) in
  length (marker_size fig) = length (nx_graph w)
  ∧ ∀ i n d,
      nx.nodes (nx_graph w) !! i = Some n →
      nx.degree (nx_graph w) n = Ok d →
      ∃ s, marker_size fig !! i = Some s
           ∧ s = spec_pixel_size_f64 degrees d
           ∧ f64.is_finite s = true
           ∧ (f64.to_Q s - 2 ^ (-45) <= spec_pixel_size degrees d)%Q
           ∧ (spec_pixel_size degrees d <= f64.to_Q s + 2 ^ (-45))%Q
           ∧ (10 <= f64.to_Q s)%Q ∧ (f64.to_Q s <= 50)%Q
           ∧ (d = spec_min_deg degrees → s = f64.of_int 10)
           ∧ (d = spec_max_deg degrees →
              spec_min_deg degrees < spec_max_deg degrees → s = f64.of_int 50)
           ∧ (Forall (λ d', d' = d) degrees → s = f64.of_int 10).
Proof.
  rewrite create_plotly_graph_run. intros [= Hfig _].
  set (G := nx_graph w) in *. intros degrees.
  apply figure_of_Ok in Hfig as (items & segs & Hitems & _ & -> & _).
  simpl. split.
  { rewrite length_map, <- (Forall2_length _ _ _ Hitems).
    unfold nx.nodes. by rewrite length_map. }
  intros i n d Hn Hd.
  destruct (Forall2_lookup_l _ _ _ _ _ Hitems Hn) as (e & He & Hitem).
  exists (item_size e). split; [by rewrite list_lookup_fmap, He|].
  rewrite (item_size_spec _ _ _ _ _ _ Hitem Hd). fold degrees.
  destruct (degree_row_degree _ _ _ Hd) as (_ & _ & _ & _ & Hin).
  fold G degrees in Hin.
  pose proof (spec_min_le _ _ Hin) as Hlo.
  pose proof (spec_max_ge _ _ Hin) as Hhi.
  pose proof (spec_range_pos degrees) as Hpos.
  assert (d - spec_min_deg degrees ≤ spec_range degrees) as Hle.
  { unfold spec_range in *.
    destruct (Z.eqb_spec (spec_max_deg degrees - spec_min_deg degrees) 0); lia. }
  destruct (final_size_bounds (d - spec_min_deg degrees) (spec_range degrees))
    as (Hfin & H10 & H50 & Ha & Hb); [lia|done|].
  assert (d = spec_min_deg degrees →
          spec_pixel_size_f64 degrees d = f64.of_int 10) as Hmin.
  { intros ->. unfold spec_pixel_size_f64. rewrite Z.sub_diag.
    by apply final_size_low. }
  split; [done|]. split; [done|]. split; [done|]. split; [done|].
  split; [done|]. split; [done|]. split; [done|].
  split.
  - intros -> Hlt. unfold spec_pixel_size_f64, spec_range.
    destruct (Z.eqb_spec (spec_max_deg degrees - spec_min_deg degrees) 0); [lia|].
    apply final_size_high. lia.
  - intros Hall. apply Hmin.
    destruct degrees as [|d0 ds]; [by apply elem_of_nil in Hin|].
    pose proof (spec_min_elem_of d0 ds) as Hm.
    rewrite Forall_forall in Hall. symmetry. by apply Hall.
Qed.

End PixelSize.

(** ** Graph facts: what the networkx invariant gives *)

Lemma multiplicity_cons v x l :
  nx.multiplicity v (x :: l)
  = ((if decide (x = v) then 1 else 0) + nx.multiplicity v l)%nat.
Proof. unfold nx.multiplicity. rewrite filter_cons. by destruct (decide (x = v)). Qed.

Lemma multiplicity_app v l1 l2 :
  nx.multiplicity v (l1 ++ l2) = (nx.multiplicity v l1 + nx.multiplicity v l2)%nat.
Proof. unfold nx.multiplicity. by rewrite filter_app, length_app. Qed.

Lemma multiplicity_pos v l : v ∈ l ↔ (0 < nx.multiplicity v l)%nat.
Proof.
  induction l as [|x l IH].
  - split; [by intros ?%elem_of_nil|]. unfold nx.multiplicity. simpl. lia.
  - rewrite multiplicity_cons, elem_of_cons.
    destruct (decide (x = v)) as [->|Hne].
    + split; [lia|by left].
    + rewrite IH. split; [intros [?|?]; [congruence|lia]|intros ?; right; lia].
Qed.

Lemma multiplicity_0 v l : v ∉ l ↔ nx.multiplicity v l = O.
Proof. rewrite multiplicity_pos. lia. Qed.

(** In an [nx.Graph] the degree is [len(nbrs) + (n in nbrs)]. *)
Lemma multiplicity_NoDup v l :
  NoDup l → nx.multiplicity v l = if decide (v ∈ l) then 1%nat else O.
Proof.
  induction 1 as [|x l Hnin Hnd IH]; [done|].
  rewrite multiplicity_cons, IH. destruct (decide (x = v)) as [->|Hne].
  - rewrite decide_False by done. rewrite decide_True by left. done.
  - destruct (decide (v ∈ l)).
    + rewrite decide_True by (by right). done.
    + rewrite decide_False; [done|]. rewrite not_elem_of_cons. naive_solver.
Qed.

Lemma row_degree_simple r :
  NoDup (nbrs r) →
  nx.row_degree r
  = Z.of_nat (length (nbrs r)) + (if bool_decide (nid r ∈ nbrs r) then 1 else 0).
Proof.
  intros Hnd. unfold nx.row_degree. rewrite multiplicity_NoDup by done.
  case_bool_decide; [by rewrite decide_True|by rewrite decide_False].
Qed.

Lemma wf_NoDup G : nx.wf G = true → NoDup (nx.nodes G).
Proof.
  unfold nx.wf. intros [H _]%andb_true_iff. by apply bool_decide_eq_true in H.
Qed.

Lemma wf_row_facts G r :
  nx.wf G = true → r ∈ G →
  ∀ v, v ∈ nbrs r →
       ∃ i r', nx.find_row G v = Some (i, r')
               ∧ nx.multiplicity (nid r) (nbrs r') = nx.multiplicity v (nbrs r).
Proof.
  unfold nx.wf. intros [_ H]%andb_true_iff Hr.
  rewrite forallb_forall in H. apply list_elem_of_In, H in Hr.
  unfold nx.wf_row in Hr. rewrite forallb_forall in Hr.
  intros v Hv. apply list_elem_of_In, Hr in Hv.
  destruct (nx.find_row G v) as [[i r']|]; [|done].
  apply Nat.eqb_eq in Hv. by exists i, r'.
Qed.

Lemma find_row_unique G i r :
  NoDup (nx.nodes G) → G !! i = Some r → nx.find_row G (nid r) = Some (i, r).
Proof.
  revert i. induction G as [|r0 G IH]; intros i Hnd Hi; [done|].
  simpl in Hnd. apply NoDup_cons in Hnd as [Hnin Hnd].
  destruct i as [|i]; simpl in *.
  - injection Hi as ->. by rewrite String.eqb_refl.
  - destruct (String.eqb_spec (nid r0) (nid r)) as [Heq|_].
    + exfalso. apply Hnin. rewrite Heq. apply list_elem_of_fmap.
      exists r. split; [done|]. by eapply list_elem_of_lookup_2.
    + by rewrite (IH i Hnd Hi).
Qed.

Lemma find_row_of_elem G r :
  NoDup (nx.nodes G) → r ∈ G → ∃ i, nx.find_row G (nid r) = Some (i, r).
Proof.
  intros Hnd [i Hi]%list_elem_of_lookup_1. exists i. by apply find_row_unique.
Qed.

Lemma row_unique G r r' :
  NoDup (nx.nodes G) → r ∈ G → r' ∈ G → nid r = nid r' → r = r'.
Proof.
  intros Hnd Hr Hr' Hid.
  destruct (find_row_of_elem G r Hnd Hr) as [i Hi].
  destruct (find_row_of_elem G r' Hnd Hr') as [j Hj].
  rewrite Hid, Hj in Hi. by injection Hi as _ ->.
Qed.

(** Two rows have each other as neighbours equally often. *)
Lemma wf_symmetric G r r' :
  nx.wf G = true → r ∈ G → r' ∈ G →
  nx.multiplicity (nid r') (nbrs r) = nx.multiplicity (nid r) (nbrs r').
Proof.
  intros Hwf Hr Hr'. pose proof (wf_NoDup G Hwf) as Hnd.
  destruct (find_row_of_elem G r Hnd Hr) as [i Hi].
  destruct (find_row_of_elem G r' Hnd Hr') as [j Hj].
  destruct (decide (nid r' ∈ nbrs r)) as [Hin|Hnin].
  - destruct (wf_row_facts G r Hwf Hr _ Hin) as (j' & r'' & Hrow & Heq).
    rewrite Hj in Hrow. injection Hrow as _ <-. done.
  - destruct (decide (nid r ∈ nbrs r')) as [Hin'|Hnin'].
    + destruct (wf_row_facts G r' Hwf Hr' _ Hin') as (i' & r'' & Hrow & Heq).
      rewrite Hi in Hrow. injection Hrow as _ <-. done.
    + apply multiplicity_0 in Hnin, Hnin'. congruence.
Qed.

Lemma wf_closed G r v :
  nx.wf G = true → r ∈ G → v ∈ nbrs r → v ∈ nx.nodes G.
Proof.
  intros Hwf Hr Hv.
  destruct (wf_row_facts G r Hwf Hr v Hv) as (i & r' & Hrow & _).
  apply find_row_Some in Hrow as [Hi <-].
  apply list_elem_of_fmap. exists r'. split; [done|].
  by eapply list_elem_of_lookup_2.
Qed.

(** Both ends of every edge are nodes. *)
Lemma edges_from_ends seen G u v :
  (u, v) ∈ nx.edges_from seen G →
  ∃ r, r ∈ G ∧ nid r = u ∧ v ∈ nbrs r.
Proof.
  revert seen. induction G as [|r G IH]; intros seen; simpl.
  - by intros ?%elem_of_nil.
  - rewrite elem_of_app. intros [Hin|Hin].
    + apply list_elem_of_fmap in Hin as (nbr & [= -> ->] & Hnbr).
      apply list_elem_of_filter in Hnbr as [_ Hnbr].
      exists r. split; [left|done].
    + destruct (IH _ Hin) as (r' & Hr' & Hu & Hv).
      exists r'. split; [by right|done].
Qed.

Lemma edges_ends G u v :
  nx.wf G = true → (u, v) ∈ nx.edges G → u ∈ nx.nodes G ∧ v ∈ nx.nodes G.
Proof.
  intros Hwf (r & Hr & <- & Hv)%edges_from_ends. split.
  - apply list_elem_of_fmap. by exists r.
  - by eapply wf_closed.
Qed.

(** ** The networkx invariant is kept by its own operations *)

Lemma find_row_None G n : nx.find_row G n = None → n ∉ nx.nodes G.
Proof.
  intros Hnone Hin. apply find_row_elem_of in Hin as [? Hsome]. congruence.
Qed.

Lemma wf_intro G :
  NoDup (nx.nodes G) →
  (∀ r v, r ∈ G → v ∈ nbrs r →
     ∃ r', r' ∈ G ∧ nid r' = v
           ∧ nx.multiplicity (nid r) (nbrs r') = nx.multiplicity v (nbrs r)) →
  nx.wf G = true.
Proof.
  intros Hnd Hrows. unfold nx.wf.
  apply andb_true_iff. split; [by apply bool_decide_eq_true|].
  apply forallb_forall. intros r Hr%list_elem_of_In. unfold nx.wf_row.
  apply forallb_forall. intros v Hv%list_elem_of_In.
  destruct (Hrows r v Hr Hv) as (r' & Hr' & <- & Hback).
  destruct (find_row_of_elem G r' Hnd Hr') as [i ->].
  by apply Nat.eqb_eq.
Qed.

Lemma wf_elim G :
  nx.wf G = true →
  NoDup (nx.nodes G)
  ∧ ∀ r v, r ∈ G → v ∈ nbrs r →
      ∃ r', r' ∈ G ∧ nid r' = v
            ∧ nx.multiplicity (nid r) (nbrs r') = nx.multiplicity v (nbrs r).
Proof.
  intros Hwf. split; [by apply wf_NoDup|]. intros r v Hr Hv.
  destruct (wf_row_facts G r Hwf Hr v Hv) as (i & r' & Hrow & Hback).
  apply find_row_Some in Hrow as [Hi Hid]. exists r'.
  split; [by eapply list_elem_of_lookup_2|done].
Qed.

Lemma Forall2_nodes (P : node_row → node_row → Prop) G G' :
  (∀ r r', P r r' → nid r' = nid r) → Forall2 P G G' → nx.nodes G' = nx.nodes G.
Proof.
  intros HP. induction 1 as [|r r' G G' Hr _ IH]; [done|].
  unfold nx.nodes in *. simpl. by rewrite (HP _ _ Hr), IH.
Qed.

Lemma elem_of_nodes G n : n ∈ nx.nodes G ↔ ∃ r, r ∈ G ∧ nid r = n.
Proof. unfold nx.nodes. rewrite list_elem_of_fmap. naive_solver. Qed.

(** What a change of the row of [a] alone does to the rows. *)
Lemma alter_row_rows (f : list string → list string) a G i r :
  NoDup (nx.nodes G) → nx.find_row G a = Some (i, r) →
  Forall2 (λ r0 r', nid r' = nid r0
                    ∧ (nbrs r' = if decide (nid r0 = a) then f (nbrs r0) else nbrs r0)
                    ∧ (nid r0 = a → r0 = r))
    G (<[i := mk_row a (ndata r) (f (nbrs r))]> G).
Proof.
  intros Hnd Hrow. destruct (find_row_Some _ _ _ _ Hrow) as [Hi Hid].
  apply Forall2_same_length_lookup_2; [by rewrite length_insert|].
  intros j x y Hx Hy.
  destruct (decide (j = i)) as [->|Hji].
  - rewrite Hi in Hx. injection Hx as <-.
    rewrite list_lookup_insert_eq in Hy by (by eapply lookup_lt_Some).
    injection Hy as <-. simpl. by rewrite decide_True.
  - rewrite list_lookup_insert_ne in Hy by done.
    assert (y = x) as -> by congruence.
    assert (nid x ≠ a) as Hne.
    { intros Heq. apply Hji.
      pose proof (find_row_unique G j x Hnd Hx) as Hj.
      rewrite Heq, Hrow in Hj. by injection Hj. }
    split; [done|]. by rewrite decide_False.
Qed.

Lemma same_rows G : Forall2 (λ r r' : node_row, r' = r) G G.
Proof. induction G; by constructor. Qed.

(** What [add_nbr a b] does to the rows: the row of [a] gains [b] unless
    it has it, every other row is as it was. *)
Lemma add_nbr_rows a b G :
  NoDup (nx.nodes G) →
  Forall2 (λ r r', nid r' = nid r
                   ∧ (NoDup (nbrs r) → NoDup (nbrs r'))
                   ∧ ∀ x, nx.multiplicity x (nbrs r')
                          = (nx.multiplicity x (nbrs r)
                             + if decide (nid r = a ∧ x = b ∧ b ∉ nbrs r)
                               then 1 else 0)%nat)
    G (nx.add_nbr a b G).
Proof.
  intros Hnd. unfold nx.add_nbr.
  destruct (nx.find_row G a) as [[i r]|] eqn:Hrow.
  - case_bool_decide as Hb.
    + apply Forall2_same_length_lookup_2; [done|].
      intros j x y Hx Hy. assert (y = x) as -> by congruence.
      split; [done|]. split; [done|]. intros z.
      rewrite decide_False; [lia|]. intros (Ha & -> & Hnin). apply Hnin.
      pose proof (find_row_unique G j x Hnd Hx) as Hj.
      rewrite Ha, Hrow in Hj. by injection Hj as _ <-.
    + destruct (find_row_Some _ _ _ _ Hrow) as [_ Hida].
      eapply Forall2_impl;
        [exact (alter_row_rows (λ l, l ++ [b]) a G i r Hnd Hrow)|].
      intros r0 r' (Hid' & Hnb & Hr0). split; [done|]. rewrite Hnb.
      destruct (decide (nid r0 = a)) as [Ha|Ha].
      * rewrite (Hr0 Ha). split.
        -- intros Hndr. apply NoDup_app. split; [done|]. split.
           ++ intros x Hx Hx'%list_elem_of_singleton. by subst x.
           ++ apply NoDup_singleton.
        -- intros z. rewrite multiplicity_app, multiplicity_cons.
           unfold nx.multiplicity at 3. simpl.
           destruct (decide (b = z)) as [->|Hne].
           ++ by rewrite decide_True.
           ++ rewrite decide_False by naive_solver. done.
      * split; [done|]. intros z. rewrite decide_False by naive_solver. lia.
  - apply Forall2_same_length_lookup_2; [done|].
    intros j x y Hx Hy. assert (y = x) as -> by congruence.
    split; [done|]. split; [done|]. intros z.
    rewrite decide_False; [lia|]. intros (Ha & _).
    apply find_row_None in Hrow. apply Hrow. rewrite <- Ha.
    apply list_elem_of_fmap. exists x. split; [done|].
    by eapply list_elem_of_lookup_2.
Qed.

(** Rows that change only by [k] more edges between [u] and [v], at both
    ends, keep the graph well-formed. *)
Lemma wf_joined (k : nat) u v G G' :
  nx.wf G = true → u ∈ nx.nodes G → v ∈ nx.nodes G →
  Forall2 (λ r r', nid r' = nid r
                   ∧ ∀ x, nx.multiplicity x (nbrs r')
                          = (nx.multiplicity x (nbrs r)
                             + if decide ((nid r = u ∧ x = v) ∨ (nid r = v ∧ x = u))
                               then k else 0)%nat) G G' →
  nx.wf G' = true.
Proof.
  intros Hwf Hu Hv Hrel. destruct (wf_elim G Hwf) as [Hnd Hrows].
  assert (nx.nodes G' = nx.nodes G) as Hnodes.
  { eapply Forall2_nodes; [|exact Hrel]. naive_solver. }
  assert (∀ n, n ∈ nx.nodes G →
            ∃ r r', r ∈ G ∧ r' ∈ G' ∧ nid r = n ∧ nid r' = n
                    ∧ ∀ x, nx.multiplicity x (nbrs r')
                           = (nx.multiplicity x (nbrs r)
                              + if decide ((nid r = u ∧ x = v) ∨ (nid r = v ∧ x = u))
                                then k else 0)%nat) as Himg.
  { intros n (r & [i Hi]%list_elem_of_lookup_1 & Hid)%elem_of_nodes.
    destruct (Forall2_lookup_l _ _ _ _ _ Hrel Hi) as (r' & Hi' & Hid' & Hm).
    exists r, r'. split; [by eapply list_elem_of_lookup_2|].
    split; [by eapply list_elem_of_lookup_2|]. split; [done|]. split; [congruence|done]. }
  apply wf_intro; [by rewrite Hnodes|].
  intros r' x [i Hi']%list_elem_of_lookup_1 Hx.
  destruct (Forall2_lookup_r _ _ _ _ _ Hrel Hi') as (r & Hi & Hid & Hm).
  assert (r ∈ G) as Hr by (by eapply list_elem_of_lookup_2).
  assert (x ∈ nx.nodes G) as Hxn.
  { apply multiplicity_pos in Hx. rewrite Hm in Hx.
    destruct (decide (x ∈ nbrs r)) as [Hin|Hnin]; [by eapply wf_closed|].
    apply multiplicity_0 in Hnin. rewrite Hnin in Hx.
    case_decide as Hc; [|lia]. naive_solver. }
  destruct (Himg x Hxn) as (r0 & r0' & Hr0 & Hr0' & Hid0 & Hid0' & Hm0).
  exists r0'. split; [done|]. split; [done|].
  rewrite Hm0, Hm, Hid, (wf_symmetric G r0 r Hwf Hr0 Hr), Hid0. f_equal.
  destruct (decide ((x = u ∧ nid r = v) ∨ (x = v ∧ nid r = u))) as [Hc|Hc].
  - rewrite decide_True by naive_solver. done.
  - rewrite decide_False by naive_solver. done.
Qed.

Lemma add_node_rows n attr G :
  nx.nodes (nx.add_node n attr G) = nx.nodes G ++ (if decide (n ∈ nx.nodes G) then [] else [n])
  ∧ ∀ r', r' ∈ nx.add_node n attr G →
          (∃ r, r ∈ G ∧ nid r' = nid r ∧ nbrs r' = nbrs r)
          ∨ ((n ∉ nx.nodes G) ∧ nid r' = n ∧ nbrs r' = []).
Proof.
  unfold nx.add_node.
  destruct (nx.find_row G n) as [[i r]|] eqn:Hrow.
  - destruct (find_row_Some _ _ _ _ Hrow) as [Hi Hid].
    assert (n ∈ nx.nodes G) as Hn.
    { apply elem_of_nodes. exists r. split; [by eapply list_elem_of_lookup_2|done]. }
    rewrite decide_True by done. rewrite app_nil_r. split.
    + unfold nx.nodes. rewrite list_fmap_insert. simpl.
      apply list_insert_id. by rewrite list_lookup_fmap, Hi, <- Hid.
    + intros r' [j Hj]%list_elem_of_lookup_1. left.
      destruct (decide (j = i)) as [->|Hne].
      * rewrite list_lookup_insert_eq in Hj by (by eapply lookup_lt_Some).
        injection Hj as <-. exists r.
        split; [by eapply list_elem_of_lookup_2|done].
      * rewrite list_lookup_insert_ne in Hj by done. exists r'.
        split; [by eapply list_elem_of_lookup_2|done].
  - apply find_row_None in Hrow. rewrite decide_False by done. split.
    + unfold nx.nodes. by rewrite map_app.
    + intros r' [Hr'|Hr']%elem_of_app.
      * left. by exists r'.
      * apply list_elem_of_singleton in Hr' as ->. by right.
Qed.

Lemma wf_add_node n attr G :
  nx.wf G = true → nx.wf (nx.add_node n attr G) = true.
Proof.
  intros [Hnd Hrows]%wf_elim.
  destruct (add_node_rows n attr G) as [Hnodes Hshape].
  assert (∀ r, r ∈ G → ∃ r', r' ∈ nx.add_node n attr G
                              ∧ nid r' = nid r ∧ nbrs r' = nbrs r) as Himg.
  { intros r Hr.
    assert (nid r ∈ nx.nodes (nx.add_node n attr G)) as Hin.
    { rewrite Hnodes, elem_of_app. left. apply elem_of_nodes. by exists r. }
    apply elem_of_nodes in Hin as (r' & Hr' & Hid). exists r'.
    split; [done|]. split; [done|].
    destruct (Hshape r' Hr') as [(r0 & Hr0 & Hid0 & ->)|(Hfresh & Hn & _)].
    - f_equal. apply (row_unique G); [done..|congruence].
    - exfalso. apply Hfresh, elem_of_nodes. exists r. split; [done|congruence]. }
  apply wf_intro.
  - rewrite Hnodes. destruct (decide (n ∈ nx.nodes G)).
    + by rewrite app_nil_r.
    + apply NoDup_app. split; [done|]. split; [|apply NoDup_singleton].
      intros x Hx Hx'%list_elem_of_singleton. by subst x.
  - intros r' v Hr'.
    destruct (Hshape r' Hr') as [(r & Hr & Hid & Hnb)|(_ & _ & Hnb)].
    + rewrite Hnb, Hid. intros Hv.
      destruct (Hrows r v Hr Hv) as (r0 & Hr0 & Hid0 & Hback).
      destruct (Himg r0 Hr0) as (r0' & Hr0' & Hid0' & Hnb0').
      exists r0'. split; [done|]. split; [congruence|]. by rewrite Hnb0'.
    + rewrite Hnb. by intros ?%elem_of_nil.
Qed.

Lemma add_node_elem n attr G : n ∈ nx.nodes (nx.add_node n attr G).
Proof.
  destruct (add_node_rows n attr G) as [-> _]. rewrite elem_of_app.
  destruct (decide (n ∈ nx.nodes G)); [by left|right; left].
Qed.

Lemma add_node_mono n attr G m :
  m ∈ nx.nodes G → m ∈ nx.nodes (nx.add_node n attr G).
Proof.
  destruct (add_node_rows n attr G) as [-> _]. rewrite elem_of_app. by left.
Qed.

Lemma wf_add_edge u v G :
  nx.wf G = true → nx.wf (nx.add_edge u v G) = true.
Proof.
  intros Hwf. unfold nx.add_edge.
  set (G1 := nx.add_node v ∅ (nx.add_node u ∅ G)).
  assert (nx.wf G1 = true) as Hwf1 by (by do 2 apply wf_add_node).
  assert (u ∈ nx.nodes G1) as Hu by apply add_node_mono, add_node_elem.
  assert (v ∈ nx.nodes G1) as Hv by apply add_node_elem.
  pose proof (wf_NoDup G1 Hwf1) as Hnd1.
  pose proof (add_nbr_rows u v G1 Hnd1) as H12.
  assert (nx.nodes (nx.add_nbr u v G1) = nx.nodes G1) as Hnodes2.
  { eapply Forall2_nodes; [|exact H12]. naive_solver. }
  pose proof (add_nbr_rows v u (nx.add_nbr u v G1)) as H23.
  rewrite Hnodes2 in H23. specialize (H23 Hnd1).
  apply elem_of_nodes in Hu as (ru & Hru & Hidu).
  apply elem_of_nodes in Hv as (rv & Hrv & Hidv).
  pose proof (wf_symmetric G1 ru rv Hwf1 Hru Hrv) as Hsym.
  rewrite Hidu, Hidv in Hsym.
  assert (u ∈ nx.nodes G1) as Hu by (apply elem_of_nodes; by exists ru).
  assert (v ∈ nx.nodes G1) as Hv by (apply elem_of_nodes; by exists rv).
  apply (wf_joined (if decide (v ∈ nbrs ru) then 0 else 1) u v G1); [done..|].
  assert (Forall2 (λ r1 r3,
            ∃ r2, r1 ∈ G1
                  ∧ (nid r2 = nid r1
                     ∧ (NoDup (nbrs r1) → NoDup (nbrs r2))
                     ∧ ∀ x, nx.multiplicity x (nbrs r2)
                            = (nx.multiplicity x (nbrs r1)
                               + if decide (nid r1 = u ∧ x = v ∧ v ∉ nbrs r1)
                                 then 1 else 0)%nat)
                  ∧ (nid r3 = nid r2
                     ∧ (NoDup (nbrs r2) → NoDup (nbrs r3))
                     ∧ ∀ x, nx.multiplicity x (nbrs r3)
                            = (nx.multiplicity x (nbrs r2)
                               + if decide (nid r2 = v ∧ x = u ∧ u ∉ nbrs r2)
                                 then 1 else 0)%nat))
            G1 (nx.add_nbr v u (nx.add_nbr u v G1))) as Hrel.
  { apply Forall2_same_length_lookup_2.
    { rewrite <- (Forall2_length _ _ _ H23). by apply Forall2_length in H12. }
    intros j r1 r3 H1 H3.
    destruct (Forall2_lookup_l _ _ _ _ _ H12 H1) as (r2 & H2 & Hr12).
    destruct (Forall2_lookup_l _ _ _ _ _ H23 H2) as (r3' & H3' & Hr23).
    assert (r3' = r3) as -> by congruence.
    exists r2. split; [by eapply list_elem_of_lookup_2|done]. }
  eapply Forall2_impl; [exact Hrel|].
  intros r1 r3 (r2 & Hr1 & (Hid2 & _ & Hm2) & (Hid3 & _ & Hm3)).
  split; [congruence|]. intros x. rewrite Hm3, Hm2, Hid2.
  assert (nid r1 = u → r1 = ru) as Hisu
    by (intros ?; apply (row_unique G1); [done..|congruence]).
  assert (nid r1 = v → r1 = rv) as Hisv
    by (intros ?; apply (row_unique G1); [done..|congruence]).
  assert (∀ y, y ∉ nbrs r2 ↔ nx.multiplicity y (nbrs r1)
               + (if decide (nid r1 = u ∧ y = v ∧ v ∉ nbrs r1) then 1 else 0) = 0)%nat
    as Hmem2 by (intros y; by rewrite multiplicity_0, Hm2).
  destruct (decide (v ∈ nbrs ru)) as [Hadj|Hadj].
  - (* the edge is there already *)
    assert (u ∈ nbrs rv) as Hadj'.
    { apply multiplicity_pos. rewrite <- Hsym. by apply multiplicity_pos. }
    rewrite decide_False by (intros (Ha & _ & Hn); apply Hn; by rewrite (Hisu Ha)).
    rewrite decide_False.
    + destruct (decide _); lia.
    + intros (Ha & _ & Hn). apply Hn. apply multiplicity_pos.
      rewrite Hm2, (Hisv Ha). apply multiplicity_pos in Hadj'. lia.
  - assert (u ∉ nbrs rv) as Hadj'.
    { apply multiplicity_0. rewrite <- Hsym. by apply multiplicity_0. }
    destruct (decide (nid r1 = u ∧ x = v)) as [[Ha ->]|Hc1].
    + rewrite (decide_True (P := nid r1 = u ∧ v = v ∧ v ∉ nbrs r1))
        by (by rewrite (Hisu Ha)).
      rewrite (decide_True (P := (nid r1 = u ∧ v = v) ∨ (nid r1 = v ∧ v = u)))
        by (by left).
      rewrite decide_False; [lia|]. intros (Hb & -> & Hn).
      apply Hn. apply multiplicity_pos. rewrite Hm2.
      rewrite decide_True by (by rewrite (Hisu Ha)). lia.
    + rewrite (decide_False (P := nid r1 = u ∧ x = v ∧ v ∉ nbrs r1)) by naive_solver.
      destruct (decide (nid r1 = v ∧ x = u)) as [[Hb ->]|Hc2].
      * rewrite (decide_True (P := (nid r1 = u ∧ u = v) ∨ (nid r1 = v ∧ u = u)))
          by (by right).
        rewrite decide_True; [lia|]. split; [done|]. split; [done|].
        apply multiplicity_0. rewrite Hm2.
        rewrite decide_False by naive_solver.
        rewrite (Hisv Hb). apply multiplicity_0 in Hadj'. lia.
      * rewrite decide_False by naive_solver.
        rewrite decide_False by naive_solver. lia.
Qed.

(** Every graph built by [add_node] and [add_edge] from the empty graph
    is well-formed. *)
Lemma wf_empty : nx.wf [] = true.
Proof. done. Qed.

Lemma multiplicity_insert_nbr x v l :
  nx.multiplicity x (nx.insert_nbr v l)
  = (nx.multiplicity x l + if decide (x = v) then 1 else 0)%nat.
Proof.
  induction l as [|y l IH]; simpl.
  - rewrite multiplicity_cons. unfold nx.multiplicity. simpl.
    destruct (decide (v = x)) as [->|Hne]; [by rewrite decide_True|].
    by rewrite decide_False by congruence.
  - destruct (String.eqb_spec y v) as [->|Hne].
    + rewrite !multiplicity_cons.
      destruct (decide (v = x)) as [->|Hne]; [rewrite decide_True by done; lia|].
      rewrite decide_False by congruence. lia.
    + rewrite !multiplicity_cons, IH. lia.
Qed.

Lemma add_key_rows a b G :
  NoDup (nx.nodes G) → a ∈ nx.nodes G →
  Forall2 (λ r r', nid r' = nid r
                   ∧ ∀ x, nx.multiplicity x (nbrs r')
                          = (nx.multiplicity x (nbrs r)
                             + if decide (nid r = a ∧ x = b) then 1 else 0)%nat)
    G (nx.add_key a b G).
Proof.
  intros Hnd Ha. unfold nx.add_key.
  destruct (find_row_elem_of _ _ Ha) as [[i r] Hrow]. rewrite Hrow.
  eapply Forall2_impl; [exact (alter_row_rows (nx.insert_nbr b) a G i r Hnd Hrow)|].
  intros r0 r' (Hid & Hnb & _). split; [done|]. intros x. rewrite Hnb.
  destruct (decide (nid r0 = a)) as [Heq|Hne].
  - rewrite multiplicity_insert_nbr.
    destruct (decide (x = b)); [by rewrite decide_True|].
    by rewrite decide_False by naive_solver.
  - rewrite decide_False by naive_solver. lia.
Qed.

(** The same for the edges of a [MultiGraph]. *)
Lemma wf_add_parallel_edge u v G :
  nx.wf G = true → nx.wf (nx.add_parallel_edge u v G) = true.
Proof.
  intros Hwf. unfold nx.add_parallel_edge.
  set (G1 := nx.add_node v ∅ (nx.add_node u ∅ G)).
  assert (nx.wf G1 = true) as Hwf1 by (by do 2 apply wf_add_node).
  assert (u ∈ nx.nodes G1) as Hu by apply add_node_mono, add_node_elem.
  assert (v ∈ nx.nodes G1) as Hv by apply add_node_elem.
  pose proof (wf_NoDup G1 Hwf1) as Hnd1.
  pose proof (add_key_rows u v G1 Hnd1 Hu) as H12.
  destruct (String.eqb_spec u v) as [->|Hne].
  - apply (wf_joined 1 v v G1); [done..|].
    eapply Forall2_impl; [exact H12|].
    intros r r' [Hid Hm]. split; [done|]. intros x. rewrite Hm.
    destruct (decide (nid r = v ∧ x = v)).
    + by rewrite decide_True by (by left).
    + by rewrite decide_False by naive_solver.
  - assert (nx.nodes (nx.add_key u v G1) = nx.nodes G1) as Hnodes2.
    { eapply Forall2_nodes; [|exact H12]. naive_solver. }
    pose proof (add_key_rows v u (nx.add_key u v G1)) as H23.
    rewrite Hnodes2 in H23. specialize (H23 Hnd1 Hv).
    apply (wf_joined 1 u v G1); [done..|].
    eapply Forall2_trans; [|exact H12|exact H23].
    intros r1 r2 r3 [Hid2 Hm2] [Hid3 Hm3]. split; [congruence|].
    intros x. rewrite Hm3, Hm2, Hid2.
    destruct (decide (nid r1 = u ∧ x = v)) as [[? ?]|?],
             (decide (nid r1 = v ∧ x = u)) as [[? ?]|?].
    + congruence.
    + rewrite decide_True by (by left). lia.
    + rewrite decide_True by (by right). lia.
    + rewrite decide_False by naive_solver. lia.
Qed.

(** ** Counting edge ends *)

Lemma endpoint_count_app E1 E2 n :
  endpoint_count (E1 ++ E2) n = (endpoint_count E1 n + endpoint_count E2 n)%nat.
Proof. unfold endpoint_count. rewrite !filter_app, !length_app. lia. Qed.

Lemma count_first_map (u n : string) (l : list string) :
  length (filter (λ e : string * string, e.1 = n) (map (λ v, (u, v)) l))
  = if decide (u = n) then length l else O.
Proof.
  induction l as [|v l IH]; simpl; [by destruct (decide (u = n))|].
  rewrite filter_cons. simpl. destruct (decide (u = n)); simpl; by rewrite IH.
Qed.

Lemma count_second_map (u n : string) (l : list string) :
  length (filter (λ e : string * string, e.2 = n) (map (λ v, (u, v)) l))
  = nx.multiplicity n l.
Proof.
  unfold nx.multiplicity. induction l as [|v l IH]; simpl; [done|].
  rewrite !filter_cons. simpl. destruct (decide (v = n)); simpl; by rewrite IH.
Qed.

Lemma multiplicity_filter_seen (seen : gset string) (n : string) (l : list string) :
  nx.multiplicity n (filter (λ v, v ∉ seen) l)
  = if decide (n ∉ seen) then nx.multiplicity n l else O.
Proof.
  induction l as [|v l IH]; [by destruct (decide (n ∉ seen))|].
  rewrite filter_cons. destruct (decide (v ∉ seen)) as [Hv|Hv].
  - rewrite !multiplicity_cons, IH.
    destruct (decide (n ∉ seen)) as [Hn|Hn]; [done|].
    rewrite decide_False; [done|]. by intros ->.
  - rewrite multiplicity_cons, IH. destruct (decide (n ∉ seen)) as [Hn|Hn]; [|done].
    rewrite decide_False; [done|]. by intros ->.
Qed.

Lemma filter_seen_step (seen : gset string) (x : string) (l : list string) :
  x ∉ seen →
  (length (filter (λ v, v ∉ seen ∪ {[x]}) l) + nx.multiplicity x l)%nat
  = length (filter (λ v, v ∉ seen) l).
Proof.
  intros Hx. induction l as [|v l IH]; [done|].
  rewrite !filter_cons, multiplicity_cons.
  destruct (decide (v = x)) as [->|Hne].
  - rewrite decide_False by set_solver.
    rewrite (decide_True (P := x ∉ seen)) by done. simpl. lia.
  - destruct (decide (v ∉ seen)) as [Hv|Hv].
    + rewrite decide_True by set_solver. simpl. lia.
    + rewrite decide_False by set_solver. lia.
Qed.

Lemma endpoint_count_chunk (seen : gset string) (r0 : node_row) (n : string) :
  endpoint_count (map (λ nbr, (nid r0, nbr)) (filter (λ nbr, nbr ∉ seen) (nbrs r0))) n
  = ((if decide (nid r0 = n)
      then length (filter (λ nbr, nbr ∉ seen) (nbrs r0)) else O)
     + (if decide (n ∉ seen) then nx.multiplicity n (nbrs r0) else O))%nat.
Proof.
  unfold endpoint_count.
  by rewrite count_first_map, count_second_map, multiplicity_filter_seen.
Qed.

Lemma endpoint_count_edges_from G :
  nx.wf G = true →
  ∀ G2 G1, G = G1 ++ G2 → ∀ r, r ∈ G →
    endpoint_count (nx.edges_from (list_to_set (nx.nodes G1)) G2) (nid r)
    = if decide (nid r ∈ nx.nodes G1) then O
      else (length (filter (λ v, v ∉ (list_to_set (nx.nodes G1) : gset string)) (nbrs r))
            + nx.multiplicity (nid r) (nbrs r))%nat.
Proof.
  intros Hwf. pose proof (wf_NoDup G Hwf) as HndG.
  induction G2 as [|r0 G2 IH]; intros G1 HG r Hr.
  - rewrite app_nil_r in HG. subst G1. simpl.
    rewrite decide_True; [done|]. apply list_elem_of_fmap. by exists r.
  - assert (r0 ∈ G) as Hr0 by (subst G; set_solver).
    assert (nid r0 ∉ nx.nodes G1) as Hfresh.
    { subst G. unfold nx.nodes in *. rewrite map_app in HndG. simpl in HndG.
      apply NoDup_app in HndG as (_ & Hdisj & _). intros Hin.
      apply (Hdisj _ Hin). left. }
    assert ((list_to_set (nx.nodes (G1 ++ [r0])) : gset string)
            = list_to_set (nx.nodes G1) ∪ {[nid r0]}) as Hseen.
    { unfold nx.nodes. rewrite map_app, list_to_set_app_L. simpl. set_solver. }
    specialize (IH (G1 ++ [r0])). rewrite Hseen in IH.
    rewrite <- app_assoc in IH. specialize (IH HG r Hr).
    simpl. rewrite endpoint_count_app, endpoint_count_chunk, IH.
    set (seen := list_to_set (nx.nodes G1) : gset string) in *.
    assert (∀ n, n ∈ nx.nodes (G1 ++ [r0]) ↔ n ∈ nx.nodes G1 ∨ n = nid r0) as Hsnoc.
    { intros n. unfold nx.nodes. rewrite map_app, elem_of_app. simpl.
      by rewrite list_elem_of_singleton. }
    destruct (decide (nid r ∈ nx.nodes G1)) as [Hin1|Hnin1].
    + assert (nid r0 ≠ nid r) by (intros Heq; by rewrite Heq in Hfresh).
      rewrite (decide_False (P := nid r0 = nid r)) by done.
      rewrite (decide_False (P := nid r ∉ seen)) by set_solver.
      rewrite (decide_True (P := nid r ∈ nx.nodes (G1 ++ [r0])))
        by (apply Hsnoc; by left).
      done.
    + assert (nid r ∉ seen) as Hns by set_solver.
      rewrite (decide_True (P := nid r ∉ seen)) by done.
      destruct (decide (nid r0 = nid r)) as [Heq|Hne].
      * assert (r0 = r) as -> by (by apply (row_unique G)).
        rewrite (decide_True (P := nid r ∈ nx.nodes (G1 ++ [r])))
          by (apply Hsnoc; by right).
        lia.
      * rewrite (decide_False (P := nid r ∈ nx.nodes (G1 ++ [r0])))
          by (rewrite Hsnoc; naive_solver).
        rewrite <- (filter_seen_step seen (nid r0) (nbrs r)) by set_solver.
        rewrite (wf_symmetric G r0 r Hwf Hr0 Hr). lia.
Qed.

Lemma filter_all {A} (P : A → Prop) `{∀ x, Decision (P x)} (l : list A) :
  (∀ x, P x) → filter P l = l.
Proof.
  intros HP. induction l as [|v l IH]; [done|].
  rewrite filter_cons, decide_True by done. by rewrite IH.
Qed.

(** The degree networkx reports is the number of edge ends at the node. *)
Lemma row_degree_endpoint_count G r :
  nx.wf G = true → r ∈ G →
  nx.row_degree r = Z.of_nat (endpoint_count (nx.edges G) (nid r)).
Proof.
  intros Hwf Hr. unfold nx.edges.
  pose proof (endpoint_count_edges_from G Hwf G [] eq_refl r Hr) as H.
  simpl in H. rewrite H, filter_all by set_solver.
  unfold nx.row_degree. lia.
Qed.

(** ** The number of edges *)

Lemma sum_list_indicator (x : string) (ns : list string) :
  NoDup ns → x ∈ ns →
  sum_list (map (λ n, if decide (x = n) then 1%nat else O) ns) = 1%nat.
Proof.
  induction 1 as [|n ns Hnin Hnd IH]; [by intros ?%elem_of_nil|].
  intros Hx. simpl. destruct (decide (x = n)) as [->|Hne].
  - assert (sum_list (map (λ n0, if decide (n = n0) then 1%nat else O) ns) = O) as ->; [|done].
    clear IH Hx Hnd. induction ns as [|m ns IH]; [done|]. simpl.
    apply not_elem_of_cons in Hnin as [Hne Hnin].
    rewrite decide_False by done. by apply IH.
  - apply elem_of_cons in Hx as [?|Hx]; [done|]. by rewrite IH.
Qed.

Lemma sum_list_count {A} (f : A → string) (E : list A) (ns : list string) :
  NoDup ns → (∀ e, e ∈ E → f e ∈ ns) →
  sum_list (map (λ n, length (filter (λ e, f e = n) E)) ns) = length E.
Proof.
  intros Hnd. induction E as [|e0 E IH]; intros Hin.
  - clear. induction ns as [|n ns IHn]; [done|]. simpl. apply IHn.
  - assert (sum_list (map (λ n, length (filter (λ e, f e = n) (e0 :: E))) ns)
            = (sum_list (map (λ n, if decide (f e0 = n) then 1%nat else O) ns)
               + sum_list (map (λ n, length (filter (λ e, f e = n) E)) ns))%nat) as ->.
    { clear. induction ns as [|n ns IHn]; [done|]. simpl.
      rewrite filter_cons, IHn. destruct (decide (f e0 = n)); simpl; lia. }
    rewrite sum_list_indicator by (done || (apply Hin; left)).
    rewrite IH; [done|]. intros e He. apply Hin. by right.
Qed.

Lemma sum_endpoint_count (E : list (string * string)) (ns : list string) :
  NoDup ns → (∀ e, e ∈ E → e.1 ∈ ns ∧ e.2 ∈ ns) →
  sum_list (map (endpoint_count E) ns) = (2 * length E)%nat.
Proof.
  intros Hnd Hin.
  assert (sum_list (map (endpoint_count E) ns)
          = (sum_list (map (λ n, length (filter (λ e, e.1 = n) E)) ns)
             + sum_list (map (λ n, length (filter (λ e, e.2 = n) E)) ns))%nat) as ->.
  { clear. induction ns as [|n ns IHn]; [done|]. simpl.
    rewrite IHn. unfold endpoint_count. lia. }
  rewrite !sum_list_count; [lia|done|naive_solver|done|naive_solver].
Qed.

Lemma sum_degrees G :
  nx.wf G = true →
  foldr Z.add 0 (degrees_of G) = Z.of_nat (2 * length (nx.edges G)).
Proof.
  intros Hwf.
  rewrite <- (sum_endpoint_count (nx.edges G) (nx.nodes G)).
  - unfold degrees_of, nx.nodes. rewrite map_map.
    assert (∀ l, (∀ r, r ∈ l → r ∈ G) →
              foldr Z.add 0 (map nx.row_degree l)
              = Z.of_nat (sum_list (map (λ r, endpoint_count (nx.edges G) (nid r)) l))) as Hsum.
    { induction l as [|r l IH]; intros Hl; [done|]. simpl.
      rewrite IH by (intros; apply Hl; by right).
      rewrite (row_degree_endpoint_count G r) by (done || (apply Hl; left)). lia. }
    by apply Hsum.
  - by apply wf_NoDup.
  - intros [u v] He. by apply edges_ends.
Qed.

(** [G.number_of_edges()] is the number of pairs [G.edges()] yields. *)
Lemma number_of_edges_length G :
  nx.wf G = true → nx.number_of_edges G = Z.of_nat (length (nx.edges G)).
Proof.
  intros Hwf. unfold nx.number_of_edges, nx.size.
  rewrite degree_view_degrees, sum_degrees by done.
  rewrite Nat2Z.inj_mul. change (Z.of_nat 2) with 2.
  rewrite Z.mul_comm. by apply Z.div_mul.
Qed.

(** ** When the pipeline returns *)

Lemma covers_lookup pos G n :
  covers pos G = true → n ∈ nx.nodes G → ∃ xy, getitem pos n = Ok xy ∧ pos !! n = Some xy.
Proof.
  unfold covers, getitem. rewrite forallb_forall. intros H Hn.
  apply list_elem_of_In, H, bool_decide_eq_true in Hn as [xy ->]. by exists xy.
Qed.

Lemma node_items_ok float_str pos G :
  covers pos G = true →
  ∃ items, collect (node_item_of float_str pos (spec_min_deg (degrees_of G))
                      (spec_range (degrees_of G)) G) (nx.nodes G) = Ok items.
Proof.
  intros Hcov. apply collect_all_ok, Forall_forall. intros n Hn.
  unfold node_item_of.
  destruct (covers_lookup _ _ _ Hcov Hn) as (xy & -> & _).
  destruct (find_row_elem_of _ _ Hn) as [[i r] Hrow]. rewrite Hrow.
  assert (nx.row_degree r ∈ degrees_of G) as Hin.
  { apply find_row_Some in Hrow as [Hi _]. apply list_elem_of_fmap.
    exists r. split; [done|]. by eapply list_elem_of_lookup_2. }
  by rewrite truediv_degree.
Qed.

Lemma edge_items_ok pos G :
  nx.wf G = true → covers pos G = true →
  ∃ segs, collect (edge_item_of pos) (nx.edges G) = Ok segs.
Proof.
  intros Hwf Hcov. apply collect_all_ok, Forall_forall. intros [u v] He.
  destruct (edges_ends _ _ _ Hwf He) as [Hu Hv].
  unfold edge_item_of. simpl.
  destruct (covers_lookup _ _ _ Hcov Hu) as (p0 & -> & _).
  by destruct (covers_lookup _ _ _ Hcov Hv) as (p1 & -> & _).
Qed.

Lemma edge_item_positions pos ed p :
  edge_item_of pos ed = Ok p → pos !! ed.1 = Some p.1 ∧ pos !! ed.2 = Some p.2.
Proof.
  unfold edge_item_of, getitem.
  destruct (pos !! ed.1) as [p0|]; [|done].
  destruct (pos !! ed.2) as [p1|]; [|done]. by intros [= <-].
Qed.

Lemma scan_best_total {A} (better : A → A → result bool) (P : A → Prop) cur l :
  (∀ x y, P x → P y → is_ok (better x y) = true) →
  P cur → Forall P l → ∃ v, scan_best better cur l = Ok v.
Proof.
  intros Hok. revert cur. induction l as [|x l IH]; intros cur Hcur Hl; simpl.
  - by eexists.
  - apply Forall_cons in Hl as [Hx Hl].
    specialize (Hok x cur Hx Hcur). destruct (better x cur) as [e|[]]; [done|..];
      by apply IH.
Qed.

Lemma value_lt_num a b : is_num a = true → is_num b = true → is_ok (value_lt a b) = true.
Proof. by destruct a, b. Qed.

Lemma color_bounds_ok colors :
  Forall (λ c, is_num c = true) colors →
  (∃ cmin, color_bound value_min 0 colors = Ok cmin)
  ∧ (∃ cmax, color_bound value_max 1 colors = Ok cmax).
Proof.
  destruct colors as [|c cs]; [by split; eexists|].
  unfold color_bound, value_min, value_max, py_best.
  intros [Hc Hcs]%Forall_cons; split.
  - apply (scan_best_total _ (λ c, is_num c = true)); auto using value_lt_num.
  - apply (scan_best_total _ (λ c, is_num c = true)); auto using value_lt_num.
Qed.

Lemma item_color_row float_str pos m rg G n e :
  node_item_of float_str pos m rg G n = Ok e →
  ∃ r, r ∈ G ∧ nid r = n ∧ item_color e = community_of r.
Proof.
  unfold node_item_of. destruct (getitem pos n); [done|].
  destruct (nx.find_row G n) as [[i r]|] eqn:Hrow; [|done].
  destruct (truediv _ _); [done|]. intros [= <-].
  apply find_row_Some in Hrow as [Hi Hid].
  exists r. split; [by eapply list_elem_of_lookup_2|done].
Qed.

Lemma item_colors_numeric float_str pos m rg G items :
  numeric_colors G = true →
  Forall2 (λ n e, node_item_of float_str pos m rg G n = Ok e) (nx.nodes G) items →
  Forall (λ c, is_num c = true) (map item_color items).
Proof.
  unfold numeric_colors. intros H Hitems.
  rewrite forallb_forall in H. apply Forall_forall.
  intros c (e & -> & He)%list_elem_of_fmap.
  apply list_elem_of_lookup_1 in He as [i He].
  destruct (Forall2_lookup_r _ _ _ _ _ Hitems He) as (n & _ & Hn).
  apply item_color_row in Hn as (r & Hr & _ & ->).
  by apply H, list_elem_of_In.
Qed.

(** The pipeline returns a figure on every well-formed graph that the
    layout covers and whose community values are numbers. *)
Lemma figure_of_total float_str pos G :
  nx.wf G = true → covers pos G = true → numeric_colors G = true →
  ∃ fig, figure_of float_str pos G = Ok fig.
Proof.
  intros Hwf Hcov Hcmp. unfold figure_of.
  rewrite degree_view_degrees, degree_scale_spec. simpl.
  destruct (node_items_ok float_str pos G Hcov) as [items Hitems].
  destruct (edge_items_ok pos G Hwf Hcov) as [segs Hsegs].
  rewrite Hitems, Hsegs, foldl_push_node. simpl.
  destruct (color_bounds_ok (map item_color items)) as [[cmin ->] [cmax ->]];
    [|by eexists].
  eapply item_colors_numeric; [done|]. by apply collect_Forall2.
Qed.

(** ** Properties of the encoding pipeline *)

Section PipelineClaims.

Context {rng : Type}.
Variable RandomState : Z → rng.
Variable fruchterman_reingold : Graph → Q → nat → rng → Layout * rng.
Variable float_str : Q → string.

Local Abbreviation create :=
  (create_plotly_graph RandomState fruchterman_reingold float_str).
Local Abbreviation layout := (layout_of RandomState fruchterman_reingold).

(** C1, amended. On every undirected graph, an [nx.Graph] or an
    [nx.MultiGraph] as networkx keeps it (self-loops and parallel edges
    allowed), that the layout covers and whose community values are all
    numbers, the pipeline returns a figure with one position, hover text,
    size and colour per node and one pair of end positions per edge, in
    edge order, every parallel edge being an edge of its own. *)
Theorem encoded_counts network_name (w : @world rng) :
  nx.wf (nx_graph w) = true →
  covers (layout (nx_graph w)) (nx_graph w) = true →
  numeric_colors (nx_graph w) = true →
  ∃ fig segs,
    create network_name w = (Ok fig, w)
    ∧ Z.of_nat (length (node_trace_x fig)) = nx.number_of_nodes (nx_graph w)
    ∧ Z.of_nat (length (node_trace_y fig)) = nx.number_of_nodes (nx_graph w)
    ∧ Z.of_nat (length (hovertext fig)) = nx.number_of_nodes (nx_graph w)
    ∧ Z.of_nat (length (marker_size fig)) = nx.number_of_nodes (nx_graph w)
    ∧ Z.of_nat (length (marker_color fig)) = nx.number_of_nodes (nx_graph w)
    ∧ Z.of_nat (length segs) = nx.number_of_edges (nx_graph w)
    ∧ Forall2 (λ ed p, layout (nx_graph w) !! ed.1 = Some p.1
                       ∧ layout (nx_graph w) !! ed.2 = Some p.2)
        (nx.edges (nx_graph w)) segs
    ∧ edge_trace_x fig = concat (map segment_x segs)
    ∧ edge_trace_y fig = concat (map segment_y segs).
Proof.
  intros Hwf Hcov Hcmp. rewrite create_plotly_graph_run.
  destruct (figure_of_total float_str _ _ Hwf Hcov Hcmp) as [fig Hfig].
  rewrite Hfig.
  apply figure_of_Ok in Hfig as (items & segs & Hitems & Hsegs & -> & _).
  exists (mk_figure (concat (map segment_x segs)) (concat (map segment_y segs))
            (map item_x items) (map item_y items) (map item_text items)
            (map item_size items) (map item_color items)
            (marker_cmin fig) (marker_cmax fig)), segs.
  assert (length items = length (nx_graph w)) as Hlen.
  { rewrite <- (Forall2_length _ _ _ Hitems). unfold nx.nodes. by rewrite length_map. }
  unfold nx.number_of_nodes. simpl. rewrite !length_map, Hlen.
  rewrite number_of_edges_length by done.
  rewrite (Forall2_length _ _ _ Hsegs).
  repeat split; try done.
  eapply Forall2_impl; [exact Hsegs|]. intros ed p. apply edge_item_positions.
Qed.

(** C8. The layout is computed from the graph and the fixed seed alone:
    two layout calls in a row give the same positions, two pipeline runs
    in a row the same figure, and whatever state the process-wide
    generator is in, positions and figure are the same. *)
Theorem layout_deterministic network_name (G : Graph) (r1 r2 : rng) :
  (pos1 <~ spring_layout RandomState fruchterman_reingold (3 # 10) 50 (Some 42) ;;
   pos2 <~ spring_layout RandomState fruchterman_reingold (3 # 10) 50 (Some 42) ;;
   ret (pos1, pos2)) (mk_world G r1)
  = (Ok (layout G, layout G), mk_world G r1)
  ∧ (fig1 <~ create network_name ;; fig2 <~ create network_name ;;
     ret (fig1, fig2)) (mk_world G r1)
    = (match (create network_name (mk_world G r1)).1 with
       | Ok fig => Ok (fig, fig)
       | Raise e => Raise e
       end, mk_world G r1)
  ∧ (spring_layout RandomState fruchterman_reingold (3 # 10) 50 (Some 42)
       (mk_world G r1)).1
    = (spring_layout RandomState fruchterman_reingold (3 # 10) 50 (Some 42)
         (mk_world G r2)).1
  ∧ (create network_name (mk_world G r1)).1
    = (create network_name (mk_world G r2)).1.
Proof.
  split; [done|]. split; [|split; [done|by rewrite !create_plotly_graph_run]].
  unfold bind at 1. rewrite create_plotly_graph_run. simpl.
  destruct (figure_of _ _ _) as [e|fig1] eqn:Hfig; [done|].
  unfold bind. rewrite create_plotly_graph_run. simpl. by rewrite Hfig.
Qed.

(** C9. The pipeline leaves the world as it found it: the graph has the
    same nodes, edges and attribute dicts after the call as before. *)
Theorem graph_not_mutated network_name (w : @world rng) :
  let w' := (create network_name w).2 in
  w' = w
  ∧ nx.nodes (nx_graph w') = nx.nodes (nx_graph w)
  ∧ nx.edges (nx_graph w') = nx.edges (nx_graph w)
  ∧ map ndata (nx_graph w') = map ndata (nx_graph w).
Proof. by rewrite create_plotly_graph_run. Qed.

(** C10. On the graph without nodes the pipeline returns the empty
    figure with colour bounds 0 and 1: the scale is the guarded
    [(0, 1)], and the [min]/[max] that would raise on an empty list are
    not evaluated. *)
Theorem empty_graph_returns network_name (r : rng) :
  create network_name (mk_world [] r)
  = (Ok (mk_figure [] [] [] [] [] [] [] (VInt 0) (VInt 1)), mk_world [] r)
  ∧ degree_scale [] = Ok (0, 1)
  ∧ is_ok (int_min []) = false ∧ is_ok (int_max []) = false
  ∧ is_ok (value_min []) = false ∧ is_ok (value_max []) = false.
Proof. by rewrite create_plotly_graph_run. Qed.

End PipelineClaims.

(** C1 as stated fails: the mixed sample is an undirected graph as
    networkx keeps it and is covered by its layout, and the pipeline
    raises [TypeError] on it instead of returning a figure. *)
Lemma counts_fail_on_mixed_colors :
  nx.wf Sample.mixed = true
  ∧ covers (layout_of Sample.RandomState Sample.grid_layout Sample.mixed)
      Sample.mixed = true
  ∧ (Sample.run Sample.mixed).1 = Raise TypeError
  ∧ ¬ ∃ fig w', Sample.run Sample.mixed = (Ok fig, w').
Proof.
  assert ((Sample.run Sample.mixed).1 = Raise TypeError) as H by (by vm_compute).
  split; [by vm_compute|]. split; [by vm_compute|]. split; [done|].
  intros (fig & w' & Hrun). by rewrite Hrun in H.
Qed.

(** The counts on the star: five nodes, four edges. *)
Lemma encoded_counts_star :
  ∃ fig segs,
    Sample.run Sample.star = (Ok fig, mk_world Sample.star 0)
    ∧ Z.of_nat (length (node_trace_x fig)) = nx.number_of_nodes Sample.star
    ∧ Z.of_nat (length (node_trace_y fig)) = nx.number_of_nodes Sample.star
    ∧ Z.of_nat (length (hovertext fig)) = nx.number_of_nodes Sample.star
    ∧ Z.of_nat (length (marker_size fig)) = nx.number_of_nodes Sample.star
    ∧ Z.of_nat (length (marker_color fig)) = nx.number_of_nodes Sample.star
    ∧ Z.of_nat (length segs) = nx.number_of_edges Sample.star
    ∧ Forall2 (λ ed p,
                 layout_of Sample.RandomState Sample.grid_layout Sample.star !! ed.1
                 = Some p.1
                 ∧ layout_of Sample.RandomState Sample.grid_layout Sample.star !! ed.2
                   = Some p.2)
        (nx.edges Sample.star) segs
    ∧ edge_trace_x fig = concat (map segment_x segs)
    ∧ edge_trace_y fig = concat (map segment_y segs).
Proof.
  apply (encoded_counts Sample.RandomState Sample.grid_layout Sample.float_str
           "sample" (mk_world Sample.star 0)); vm_compute; reflexivity.
Defined.

(** ** Degrees come from the edges, not from stored attributes *)

Lemma same_but_scores_degrees G1 G2 :
  same_but_scores G1 G2 → degrees_of G1 = degrees_of G2.
Proof.
  induction 1 as [|r1 r2 G1 G2 (Hid & Hnb & _) _ IH]; [done|].
  unfold degrees_of in *. simpl. rewrite IH. f_equal.
  unfold nx.row_degree. by rewrite Hid, Hnb.
Qed.

Lemma same_but_scores_find_row G1 G2 n i r1 :
  same_but_scores G1 G2 → nx.find_row G1 n = Some (i, r1) →
  ∃ r2, nx.find_row G2 n = Some (i, r2)
        ∧ nx.row_degree r1 = nx.row_degree r2
        ∧ community_of r1 = community_of r2.
Proof.
  intros Hsame. revert i.
  induction Hsame as [|r1' r2' G1 G2 (Hid & Hnb & Hattr) _ IH]; intros i; [done|].
  simpl. rewrite <- Hid. destruct (String.eqb (nid r1') n).
  - intros [= <- <-]. exists r2'. split; [done|]. split.
    + unfold nx.row_degree. by rewrite Hid, Hnb.
    + unfold community_of.
      assert (∀ m : gmap string value,
                m !! "community_id" = strip_scores m !! "community_id") as Hstrip.
      { intros m. unfold strip_scores. by rewrite !lookup_delete_ne. }
      by rewrite (Hstrip (ndata r1')), Hattr, <- Hstrip.
  - destruct (nx.find_row G1 n) as [[j r]|]; [|done].
    intros [= <- <-]. destruct (IH j eq_refl) as (r2 & -> & ?). by exists r2.
Qed.

Lemma same_but_scores_item float_str pos1 pos2 m rg G1 G2 n e1 e2 :
  same_but_scores G1 G2 →
  node_item_of float_str pos1 m rg G1 n = Ok e1 →
  node_item_of float_str pos2 m rg G2 n = Ok e2 →
  item_size e1 = item_size e2 ∧ item_text e1 = item_text e2.
Proof.
  intros Hsame. unfold node_item_of.
  destruct (getitem pos1 n); [done|]. destruct (getitem pos2 n); [done|].
  destruct (nx.find_row G1 n) as [[i r1]|] eqn:Hrow; [|done].
  destruct (same_but_scores_find_row _ _ _ _ _ Hsame Hrow) as (r2 & -> & <- & <-).
  destruct (truediv _ _); [done|]. by intros [= <-] [= <-].
Qed.

Lemma Forall2_map_agree {A B C} (f1 f2 : A → result B) (g : B → C) ns items1 items2 :
  (∀ n e1 e2, f1 n = Ok e1 → f2 n = Ok e2 → g e1 = g e2) →
  Forall2 (λ n e, f1 n = Ok e) ns items1 →
  Forall2 (λ n e, f2 n = Ok e) ns items2 →
  map g items1 = map g items2.
Proof.
  intros Hg H1. revert items2.
  induction H1 as [|n e1 ns items1 He1 _ IH]; intros items2 H2.
  - by apply Forall2_nil_inv_l in H2 as ->.
  - apply Forall2_cons_inv_l in H2 as (e2 & items2' & He2 & H2 & ->).
    simpl. f_equal; [by eapply Hg|by apply IH].
Qed.

Lemma same_but_scores_nodes G1 G2 :
  same_but_scores G1 G2 → nx.nodes G1 = nx.nodes G2.
Proof.
  induction 1 as [|r1 r2 G1 G2 (Hid & _) _ IH]; [done|].
  unfold nx.nodes in *. simpl. by rewrite Hid, IH.
Qed.

(** Without an edge from [n] to itself, the edge ends at [n] are the edges
    that touch [n]. *)
Lemma endpoint_count_incident (E : list (string * string)) (n : string) :
  (n, n) ∉ E → endpoint_count E n = incident_count E n.
Proof.
  unfold endpoint_count, incident_count.
  induction E as [|[u v] E IH]; [done|].
  rewrite not_elem_of_cons. intros [Hne Hnin].
  rewrite !filter_cons. simpl. specialize (IH Hnin).
  destruct (decide (u = n)) as [->|Hu], (decide (v = n)) as [->|Hv]; try done.
  - rewrite decide_True by (by left). simpl. lia.
  - rewrite decide_True by (by right). simpl. lia.
  - rewrite decide_False by naive_solver. done.
Qed.

Lemma self_edge_self_nbr G r :
  nx.wf G = true → r ∈ G → (nid r, nid r) ∈ nx.edges G → nid r ∈ nbrs r.
Proof.
  intros Hwf Hr (r' & Hr' & Hid & Hin)%edges_from_ends.
  destruct (find_row_of_elem G r (wf_NoDup G Hwf) Hr) as [i Hi].
  destruct (find_row_of_elem G r' (wf_NoDup G Hwf) Hr') as [j Hj].
  rewrite Hid, Hi in Hj. by injection Hj as _ ->.
Qed.

Lemma degrees_endpoint_counts G :
  nx.wf G = true →
  degrees_of G = map (λ n, Z.of_nat (endpoint_count (nx.edges G) n)) (nx.nodes G).
Proof.
  intros Hwf. unfold degrees_of, nx.nodes. rewrite map_map.
  apply map_ext_in. intros r Hr%list_elem_of_In.
  by apply row_degree_endpoint_count.
Qed.

Section DegreeClaims.

Context {rng : Type}.
Variable RandomState : Z → rng.
Variable fruchterman_reingold : Graph → Q → nat → rng → Layout * rng.
Variable float_str : Q → string.

Local Abbreviation create :=
  (create_plotly_graph RandomState fruchterman_reingold float_str).

(** C3, amended. On every undirected graph, an [nx.Graph] or an
    [nx.MultiGraph] as networkx keeps it, the degree behind the size and
    the hover text of a node is the number of edge ends at it in the edge
    set (the edges touching it, an edge from the node to itself counted
    twice), the size being the double-precision value of the size formula
    at that number; and no stored attribute enters: a graph that differs
    only in the values stored under [degree] or [centrality] gets the
    same sizes and hover texts. *)
Theorem degree_from_edges network_name (w1 w2 w1' w2' : @world rng) fig1 fig2 :
  nx.wf (nx_graph w1) = true →
  same_but_scores (nx_graph w1) (nx_graph w2) →
  create network_name w1 = (Ok fig1, w1') →
  create network_name w2 = (Ok fig2, w2') →
  let E := nx.edges (nx_graph w1) in
  let counts := map (λ n, Z.of_nat (endpoint_count E n)) (nx.nodes (nx_graph w1)) in
  (marker_size fig1 = marker_size fig2 ∧ hovertext fig1 = hovertext fig2)
  ∧ ∀ i r, nx_graph w1 !! i = Some r →
      let d := Z.of_nat (endpoint_count E (nid r)) in
      nx.degree (nx_graph w1) (nid r) = Ok d
      ∧ hovertext fig1 !! i = Some (hover_info float_str (nid r) d (community_of r))
      ∧ marker_size fig1 !! i = Some (spec_pixel_size_f64 counts d)
      ∧ (nid r ∉ nbrs r → d = Z.of_nat (incident_count E (nid r))).
Proof.
  rewrite !create_plotly_graph_run. intros Hwf Hsame [= Hfig1 _] [= Hfig2 _].
  set (G1 := nx_graph w1) in *. set (G2 := nx_graph w2) in *.
  intros E counts.
  apply figure_of_Ok in Hfig1 as (items1 & segs1 & Hitems1 & _ & -> & _).
  apply figure_of_Ok in Hfig2 as (items2 & segs2 & Hitems2 & _ & -> & _).
  rewrite <- (same_but_scores_degrees _ _ Hsame) in Hitems2.
  rewrite <- (same_but_scores_nodes _ _ Hsame) in Hitems2.
  simpl. split.
  { split.
    - eapply Forall2_map_agree; [|exact Hitems1|exact Hitems2].
      intros n e1 e2 H1 H2.
      by destruct (same_but_scores_item _ _ _ _ _ _ _ _ _ _ Hsame H1 H2).
    - eapply Forall2_map_agree; [|exact Hitems1|exact Hitems2].
      intros n e1 e2 H1 H2.
      by destruct (same_but_scores_item _ _ _ _ _ _ _ _ _ _ Hsame H1 H2). }
  intros i r Hi. set (d := Z.of_nat (endpoint_count E (nid r))).
  assert (r ∈ G1) as Hr by (by eapply list_elem_of_lookup_2).
  pose proof (find_row_unique G1 i r (wf_NoDup G1 Hwf) Hi) as Hrow.
  pose proof (row_degree_endpoint_count G1 r Hwf Hr) as Hdeg. fold E d in Hdeg.
  assert (nx.degree G1 (nid r) = Ok d) as Hd.
  { unfold nx.degree. by rewrite Hrow, Hdeg. }
  assert (nx.nodes G1 !! i = Some (nid r)) as Hn.
  { unfold nx.nodes. by rewrite list_lookup_fmap, Hi. }
  destruct (Forall2_lookup_l _ _ _ _ _ Hitems1 Hn) as (e & He & Hitem).
  split; [done|]. split; [|split].
  - rewrite list_lookup_fmap, He. simpl. f_equal.
    unfold node_item_of in Hitem. destruct (getitem _ (nid r)); [done|].
    rewrite Hrow in Hitem. destruct (truediv _ _); [done|].
    injection Hitem as <-. simpl. by rewrite Hdeg.
  - rewrite list_lookup_fmap, He. simpl.
    rewrite (item_size_spec _ _ _ _ _ _ Hitem Hd). unfold counts, E.
    by rewrite <- (degrees_endpoint_counts G1 Hwf).
  - intros Hself. unfold d. f_equal. apply endpoint_count_incident.
    intros Hin. by apply Hself, (self_edge_self_nbr G1).
Qed.

End DegreeClaims.

(** C3 as stated fails on a node joined to itself: one edge touches it,
    and the degree used for its size and shown in its hover text is 2. *)
Lemma degree_counts_loop_twice :
  nx.wf Sample.loop = true
  ∧ nx.edges Sample.loop = [("a", "a")]
  ∧ incident_count (nx.edges Sample.loop) "a" = 1%nat
  ∧ nx.degree Sample.loop "a" = Ok 2
  ∧ (∃ fig, (Sample.run Sample.loop).1 = Ok fig
            ∧ hovertext fig = ["<b>a</b><br>Degree: 2<br>Community ID: 0"]
            ∧ marker_size fig = [f64.of_int 10])
  ∧ ¬ (∀ G n d, nx.wf G = true → nx.degree G n = Ok d →
                d = Z.of_nat (incident_count (nx.edges G) n)).
Proof.
  split; [by vm_compute|]. split; [by vm_compute|]. split; [by vm_compute|].
  split; [by vm_compute|]. split.
  - eexists. split; [by vm_compute|]. done.
  - intros H. by specialize (H Sample.loop "a" 2 eq_refl eq_refl).
Qed.

(** C2 as stated fails in the last binary place.  On the kite the leaf
    [l1] has degree 2, the lowest degree is 1 and the range is 3.  The
    real number [10 + 40 * (2 - 1) / 3] is 70/3, which no double is; the
    size in the figure is the double [6567749456581973 * 2^-48]
    (23.333333333333332), and the formula evaluated in doubles as it is
    written, product first, gives the next double up
    (23.333333333333336). *)
Lemma pixel_size_rounds_on_kite :
  ∃ fig s,
    (Sample.run Sample.kite).1 = Ok fig
    ∧ nx.nodes Sample.kite !! 1%nat = Some "l1"
    ∧ nx.degree Sample.kite "l1" = Ok 2
    ∧ degrees_of Sample.kite = [4; 2; 2; 1; 1]
    ∧ marker_size fig !! 1%nat = Some s
    ∧ s = S754_finite false 6567749456581973 (-48)
    ∧ (spec_pixel_size (degrees_of Sample.kite) 2 == 70 # 3)%Q
    ∧ ¬ (f64.to_Q s == spec_pixel_size (degrees_of Sample.kite) 2)%Q
    ∧ (∀ x, ¬ (f64.to_Q x == spec_pixel_size (degrees_of Sample.kite) 2)%Q)
    ∧ spec_pixel_size_written (degrees_of Sample.kite) 2
      = S754_finite false 6567749456581974 (-48)
    ∧ s ≠ spec_pixel_size_written (degrees_of Sample.kite) 2.
Proof.
  assert (spec_pixel_size (degrees_of Sample.kite) 2 == 70 # 3)%Q as Hreal
    by (by vm_compute).
  eexists. eexists. split; [by vm_compute|].
  split; [by vm_compute|]. split; [by vm_compute|]. split; [by vm_compute|].
  split; [by vm_compute|]. split; [done|]. split; [done|].
  split; [rewrite Hreal; apply no_double_70_3|].
  split; [intros x; rewrite Hreal; apply no_double_70_3|].
  split; [by vm_compute|]. by vm_compute.
Qed.

(** The sizes on the star: 50 for the centre, 10 for the leaves. *)
Lemma pixel_size_star :
  ∃ fig,
    Sample.run Sample.star = (Ok fig, mk_world Sample.star 0)
    ∧ length (marker_size fig) = length Sample.star
    ∧ ∀ i n d,
        nx.nodes Sample.star !! i = Some n →
        nx.degree Sample.star n = Ok d →
        ∃ s, marker_size fig !! i = Some s
             ∧ s = spec_pixel_size_f64 (degrees_of Sample.star) d
             ∧ f64.is_finite s = true
             ∧ (f64.to_Q s - 2 ^ (-45) <= spec_pixel_size (degrees_of Sample.star) d)%Q
             ∧ (spec_pixel_size (degrees_of Sample.star) d <= f64.to_Q s + 2 ^ (-45))%Q
             ∧ (10 <= f64.to_Q s)%Q ∧ (f64.to_Q s <= 50)%Q
             ∧ (d = spec_min_deg (degrees_of Sample.star) → s = f64.of_int 10)
             ∧ (d = spec_max_deg (degrees_of Sample.star) →
                spec_min_deg (degrees_of Sample.star)
                < spec_max_deg (degrees_of Sample.star) → s = f64.of_int 50)
             ∧ (Forall (λ d', d' = d) (degrees_of Sample.star) →
                s = f64.of_int 10).
Proof.
  eexists. split; [vm_compute; reflexivity|].
  apply (pixel_size_min_max Sample.RandomState Sample.grid_layout Sample.float_str
           "sample" (mk_world Sample.star 0) (mk_world Sample.star 0)).
  vm_compute. reflexivity.
Defined.

(** The triangle and its copy with stored [degree] and [centrality]
    values get the same sizes and hover texts. *)
Lemma degree_from_edges_triangle :
  ∃ fig1 fig2,
    Sample.run Sample.triangle = (Ok fig1, mk_world Sample.triangle 0)
    ∧ Sample.run Sample.triangle_scored = (Ok fig2, mk_world Sample.triangle_scored 0)
    ∧ (marker_size fig1 = marker_size fig2 ∧ hovertext fig1 = hovertext fig2)
    ∧ ∀ i r, Sample.triangle !! i = Some r →
        nx.degree Sample.triangle (nid r)
        = Ok (Z.of_nat (endpoint_count (nx.edges Sample.triangle) (nid r)))
        ∧ hovertext fig1 !! i
          = Some (hover_info Sample.float_str (nid r)
                    (Z.of_nat (endpoint_count (nx.edges Sample.triangle) (nid r)))
                    (community_of r))
        ∧ marker_size fig1 !! i
          = Some (spec_pixel_size_f64
                    (map (λ n, Z.of_nat (endpoint_count (nx.edges Sample.triangle) n))
                       (nx.nodes Sample.triangle))
                    (Z.of_nat (endpoint_count (nx.edges Sample.triangle) (nid r))))
        ∧ (nid r ∉ nbrs r →
           Z.of_nat (endpoint_count (nx.edges Sample.triangle) (nid r))
           = Z.of_nat (incident_count (nx.edges Sample.triangle) (nid r))).
Proof.
  eexists. eexists.
  split; [vm_compute; reflexivity|]. split; [vm_compute; reflexivity|].
  apply (degree_from_edges Sample.RandomState Sample.grid_layout Sample.float_str
           "sample" (mk_world Sample.triangle 0) (mk_world Sample.triangle_scored 0)
           (mk_world Sample.triangle 0) (mk_world Sample.triangle_scored 0)).
  - vm_compute. reflexivity.
  - repeat constructor; vm_compute; reflexivity.
  - vm_compute. reflexivity.
  - vm_compute. reflexivity.
Defined.

(** ** The loader runs as its closed form *)

Lemma list_alter_lookup {A} (f : A → A) (l : list A) i x :
  l !! i = Some x → alter f i l = <[i := f x]> l.
Proof.
  revert i. induction l as [|y l IH]; intros [|i] Hi; simpl in *; try done.
  - by injection Hi as ->.
  - f_equal. by apply IH.
Qed.

Section LoaderFacts.

Variable read_graphml : string → result Graph.
Variable float_of_string : string → option Q.
Variable str_exn : exn → string.

Local Abbreviation clean := (clean_row float_of_string).

Lemma clean_node_run (G : Graph) i r n :
  G !! i = Some r →
  clean_node float_of_string (n, i) tt G = (Ok tt, <[i := clean r]> G).
Proof.
  intros Hi.
  unfold clean_node, bind, data_contains, data_getitem, gets, clean_row. simpl.
  rewrite Hi. unfold getitem.
  destruct (ndata r !! "size") as [v|] eqn:Hsize; simpl.
  - rewrite Hi, Hsize.
    destruct v as [b|z|q|s]; simpl; unfold ret;
      try (by rewrite list_insert_id).
    unfold try_except, data_setitem, modify.
    destruct (float_of_string s) as [q|]; simpl.
    + by rewrite (list_alter_lookup _ _ _ _ Hi).
    + by rewrite list_insert_id.
  - unfold ret. by rewrite list_insert_id.
Qed.

Lemma clean_loop (P G' : Graph) :
  for_each (imap (λ i r, (nid r, (length P + i)%nat)) G')
    (clean_node float_of_string) tt (P ++ G')
  = (Ok tt, P ++ map clean G').
Proof.
  revert P. induction G' as [|r G' IH]; intros P; [done|].
  rewrite imap_cons. simpl. unfold bind.
  rewrite (clean_node_run _ _ r).
  2:{ rewrite Nat.add_0_r. by apply list_lookup_middle. }
  rewrite insert_app_r. simpl.
  specialize (IH (P ++ [clean r])). rewrite <- !app_assoc in IH. simpl in IH.
  rewrite <- IH. f_equal.
  apply imap_ext. intros i x _. simpl. rewrite length_app. simpl.
  f_equal. lia.
Qed.

(** Lines 32-36 never raise and rewrite every node in place. *)
Lemma clean_attributes_run (G : Graph) :
  clean_attributes float_of_string G = (Ok tt, map clean G).
Proof.
  unfold clean_attributes, bind, nodes_data, gets.
  apply (clean_loop [] G).
Qed.

Local Abbreviation entry := (entry_graph read_graphml float_of_string).
Local Abbreviation loaded := (load_dict read_graphml float_of_string).

Lemma load_entry_run folder_path filename (d : gmap string Graph) out :
  ∃ out',
    load_entry read_graphml float_of_string str_exn folder_path filename d out
    = (Ok (match entry folder_path filename with
           | Some G => <[network_name_of filename := G]> d
           | None => d
           end), out').
Proof.
  unfold load_entry, entry_graph.
  destruct (endswith filename ".graphml"); [|by eexists].
  unfold try_except, load_file, bind, lift.
  destruct (read_graphml _) as [e|G].
  - unfold print, modify, ret. by eexists.
  - rewrite clean_attributes_run. unfold ret. by eexists.
Qed.

Lemma load_loop folder_path names (d : gmap string Graph) out :
  ∃ out',
    for_each names (load_entry read_graphml float_of_string str_exn folder_path) d out
    = (Ok (loaded folder_path names d), out').
Proof.
  revert d out. induction names as [|f names IH]; intros d out; simpl.
  - by eexists.
  - unfold bind. destruct (load_entry_run folder_path f d out) as [out1 ->].
    apply IH.
Qed.

Lemma load_all_networks_directory fs folder_path names out :
  fs folder_path = os.Directory names →
  ∃ out',
    load_all_networks fs read_graphml float_of_string str_exn folder_path out
    = (Ok (Some (loaded folder_path names ∅)), out').
Proof.
  intros Hdir. unfold load_all_networks, os.exists_, os.listdir. rewrite Hdir.
  simpl. unfold bind, lift.
  destruct (load_loop folder_path names ∅ out) as [out' ->].
  unfold ret. by eexists.
Qed.

Lemma load_dict_snoc folder_path names f (d : gmap string Graph) :
  loaded folder_path (names ++ [f]) d
  = match entry folder_path f with
    | Some G => <[network_name_of f := G]> (loaded folder_path names d)
    | None => loaded folder_path names d
    end.
Proof. unfold load_dict. by rewrite foldl_app. Qed.

Lemma load_dict_lookup folder_path names (d : gmap string Graph) k G' :
  loaded folder_path names d !! k = Some G' →
  d !! k = Some G'
  ∨ ∃ f, f ∈ names ∧ entry folder_path f = Some G' ∧ k = network_name_of f.
Proof.
  induction names as [|f names IH] using rev_ind; [by left|].
  rewrite load_dict_snoc.
  destruct (entry folder_path f) as [G|] eqn:Hentry.
  - destruct (decide (network_name_of f = k)) as [<-|Hne].
    + rewrite lookup_insert_eq. intros [= <-]. right. exists f.
      split; [set_solver|done].
    + rewrite lookup_insert_ne by done. intros [?|(g & ? & ?)]%IH; [by left|].
      right. exists g. split; [set_solver|done].
  - intros [?|(g & ? & ?)]%IH; [by left|].
    right. exists g. split; [set_solver|done].
Qed.

Lemma load_dict_dom folder_path names (d : gmap string Graph) k :
  k ∈ dom (loaded folder_path names d)
  ↔ k ∈ dom d
    ∨ ∃ f, f ∈ names ∧ is_Some (entry folder_path f) ∧ k = network_name_of f.
Proof.
  induction names as [|f names IH] using rev_ind.
  - simpl. split; [by left|]. intros [?|(f & ?%elem_of_nil & _)]; done.
  - rewrite load_dict_snoc.
    destruct (entry folder_path f) as [G|] eqn:Hentry.
    + rewrite dom_insert_L, elem_of_union, elem_of_singleton, IH. split.
      * intros [->|[?|(g & ? & ?)]]; [|by left|].
        -- right. exists f. rewrite Hentry. split; [set_solver|done].
        -- right. exists g. split; [set_solver|done].
      * intros [?|(g & Hg & Hsome & ->)]; [right; by left|].
        apply elem_of_app in Hg as [Hg|Hg%list_elem_of_singleton].
        -- right. right. by exists g.
        -- subst g. by left.
    + rewrite IH. split.
      * intros [?|(g & ? & ?)]; [by left|].
        right. exists g. split; [set_solver|done].
      * intros [?|(g & Hg & Hsome & ->)]; [by left|].
        apply elem_of_app in Hg as [Hg|Hg%list_elem_of_singleton].
        -- right. by exists g.
        -- subst g. rewrite Hentry in Hsome. by destruct Hsome.
Qed.

(** A directory entry that contributes nothing can as well be absent. *)
Lemma load_dict_skip folder_path names f (d : gmap string Graph) :
  entry folder_path f = None →
  loaded folder_path (filter (λ g, g ≠ f) names) d = loaded folder_path names d.
Proof.
  intros Hnone. revert d. induction names as [|g names IH]; intros d; [done|].
  rewrite filter_cons. destruct (decide (g ≠ f)) as [Hne|Heq].
  - simpl. apply IH.
  - apply dec_stable in Heq as ->. simpl. rewrite Hnone. apply IH.
Qed.

End LoaderFacts.

(** ** Strings: stripping the extension *)

Lemma prefix_refl (s : string) : String.prefix s s = true.
Proof.
  induction s as [|c s IH]; simpl; [done|]. by destruct (Ascii.ascii_dec c c).
Qed.

Lemma prefix_same_length (p s : string) :
  String.prefix p s = true → String.length s = String.length p → s = p.
Proof.
  revert s. induction p as [|a p IH]; intros [|b s]; simpl; try done.
  destruct (Ascii.ascii_dec a b) as [->|]; [|done].
  intros Hp [= Hlen]. f_equal. by apply IH.
Qed.

Lemma endswith_length (s suf : string) :
  endswith s suf = true → (String.length suf ≤ String.length s)%nat.
Proof.
  induction s as [|c s IH]; cbn [endswith].
  - destruct (String.eqb_spec EmptyString suf) as [<-|_]; [simpl; lia|done].
  - destruct (String.eqb_spec (String c s) suf) as [<-|_]; [simpl; lia|].
    intros H%IH. simpl. lia.
Qed.

Lemma replace_scan_skip (old new s : string) (k : nat) :
  (String.length s ≤ k)%nat → replace_scan old new k s = EmptyString.
Proof.
  revert k. induction s as [|c s IH]; intros k; simpl; [done|].
  destruct k as [|k]; [lia|]. intros ?. apply IH. lia.
Qed.

Lemma substring_0_0 (s : string) : String.substring 0 0 s = EmptyString.
Proof. by destruct s. Qed.

Lemma replace_scan_strip (old s : string) :
  old ≠ EmptyString → endswith s old = true →
  str_find s old = Some (String.length s - String.length old)%nat →
  replace_scan old EmptyString 0 s
  = String.substring 0 (String.length s - String.length old) s.
Proof.
  intros Hold. induction s as [|c s IH].
  - cbn [endswith]. destruct (String.eqb_spec EmptyString old) as [<-|_]; done.
  - intros Hends Hfind. pose proof (endswith_length _ _ Hends) as Hlen.
    cbn [str_find] in Hfind. cbn [replace_scan].
    destruct (String.prefix old (String c s)) eqn:Hpre.
    + injection Hfind as Hfind.
      assert (String c s = old) as Heq.
      { apply prefix_same_length; [done|]. cbn [String.length] in *. lia. }
      cbn [String.length] in *. rewrite <- Hfind, substring_0_0. simpl.
      apply replace_scan_skip. rewrite <- Heq. simpl. lia.
    + cbn [endswith] in Hends.
      destruct (String.eqb_spec (String c s) old) as [Heq|_].
      { rewrite <- Heq, prefix_refl in Hpre. done. }
      destruct (str_find s old) as [n|] eqn:Hn; [|done].
      injection Hfind as Hfind.
      pose proof (endswith_length _ _ Hends) as Hlen'.
      cbn [String.length] in *.
      replace (S (String.length s) - String.length old)%nat
        with (S (String.length s - String.length old)) by lia.
      cbn [String.substring]. f_equal. apply IH; [done|]. f_equal. lia.
Qed.

Lemma replace_strip_ext (filename : string) :
  endswith filename ".graphml" = true → ext_only_at_end filename = true →
  network_name_of filename = strip_ext filename.
Proof.
  intros Hends Honly%bool_decide_eq_true.
  unfold network_name_of, replace, strip_ext.
  by apply replace_scan_strip.
Qed.

Lemma endswith_split (s suf : string) :
  endswith s suf = true →
  s = String.substring 0 (String.length s - String.length suf) s +:+ suf.
Proof.
  induction s as [|c s IH]; cbn [endswith].
  - by destruct (String.eqb_spec EmptyString suf) as [<-|_].
  - destruct (String.eqb_spec (String c s) suf) as [<-|_].
    + intros _. rewrite Nat.sub_diag. done.
    + intros Hends. pose proof (endswith_length _ _ Hends).
      cbn [String.length].
      replace (S (String.length s) - String.length suf)%nat
        with (S (String.length s - String.length suf)) by lia.
      cbn [String.substring].
      change (String c ?x +:+ ?y) with (String c (x +:+ y)).
      f_equal. by apply IH.
Qed.

Lemma strip_ext_inj (f g : string) :
  endswith f ".graphml" = true → endswith g ".graphml" = true →
  strip_ext f = strip_ext g → f = g.
Proof.
  intros Hf%endswith_split Hg%endswith_split Heq.
  unfold strip_ext in Heq. rewrite Hf, Hg. by rewrite Heq.
Qed.

(** ** Properties of the loader *)

Lemma clean_row_coerced float_of_string r :
  coerced float_of_string r (clean_row float_of_string r).
Proof.
  unfold coerced, clean_row.
  destruct (ndata r !! "size") as [[b|z|q|s]|] eqn:Hsize; try done.
  destruct (float_of_string s) as [q|]; [|done]. simpl.
  split; [done|]. split; [done|]. split.
  - intros k Hk. by rewrite lookup_insert_ne.
  - by rewrite lookup_insert_eq.
Qed.

Section LoaderClaims.

Variable read_graphml : string → result Graph.
Variable float_of_string : string → option Q.
Variable str_exn : exn → string.

Local Abbreviation load :=
  (λ fs, load_all_networks fs read_graphml float_of_string str_exn).
Local Abbreviation entry := (entry_graph read_graphml float_of_string).
Local Abbreviation loaded := (load_dict read_graphml float_of_string).
Local Abbreviation key := network_name_of.

Lemma entry_is_Some folder_path filename :
  is_Some (entry folder_path filename)
  ↔ endswith filename ".graphml" = true
    ∧ is_ok (read_graphml (os.join folder_path filename)) = true.
Proof.
  unfold entry_graph. destruct (endswith filename ".graphml").
  - destruct (read_graphml _); simpl; split;
      try (by intros [? ?]); try (by intros [? ?]); by eexists.
  - split; [by intros [? ?]|by intros [? ?]].
Qed.

Lemma load_loop_no_graph_files folder_path names (d : gmap string Graph) out :
  Forall (λ f, endswith f ".graphml" = false) names →
  for_each names (load_entry read_graphml float_of_string str_exn folder_path) d out
  = (Ok d, out).
Proof.
  induction 1 as [|f names Hf _ IH]; [done|].
  simpl. unfold bind, load_entry. rewrite Hf. simpl. apply IH.
Qed.

Lemma load_dict_size folder_path names :
  NoDup names →
  Forall (λ f, endswith f ".graphml" = true → ext_only_at_end f = true) names →
  size (loaded folder_path names ∅)
  = length (filter (λ f, endswith f ".graphml" = true
                         ∧ is_ok (read_graphml (os.join folder_path f)) = true)
              names).
Proof.
  induction names as [|f names IH] using rev_ind; intros Hnd Hclean; [done|].
  apply NoDup_app in Hnd as (Hnd & Hdisj & _).
  apply Forall_app in Hclean as [Hclean Hf]. rewrite Forall_singleton in Hf.
  rewrite load_dict_snoc, filter_app, length_app, filter_cons, filter_nil.
  pose proof (entry_is_Some folder_path f) as Hsome.
  destruct (entry folder_path f) as [G|].
  - rewrite decide_True by (apply Hsome; by eexists).
    rewrite map_size_insert_None; [rewrite IH by done; simpl; lia|].
    apply not_elem_of_dom. rewrite load_dict_dom.
    intros [?%elem_of_empty|(g & Hg & Hgsome & Hkey)]; [done|].
    apply entry_is_Some in Hgsome as [Hgext _].
    destruct Hsome as [[Hfext _] _]; [by eexists|].
    rewrite Forall_forall in Hclean.
    assert (ext_only_at_end f = true) as Hfonly by auto.
    assert (ext_only_at_end g = true) as Hgonly by auto.
    rewrite (replace_strip_ext f Hfext Hfonly) in Hkey.
    rewrite (replace_strip_ext g Hgext Hgonly) in Hkey.
    apply strip_ext_inj in Hkey; [|done..]. subst g.
    apply (Hdisj f Hg). left.
  - rewrite decide_False.
    2:{ intros H%Hsome. by destruct H. }
    rewrite IH by done. simpl. lia.
Qed.

(** C4, amended. For an existing directory of distinct names in which
    the extension occurs in a graph file's name only at its end, the keys
    of the result are the names, extension stripped, of the files that end
    in [.graphml] and parse: one key for each of them, none for any other
    file. *)
Theorem loader_keys fs folder_path names out :
  fs folder_path = os.Directory names →
  NoDup names →
  Forall (λ f, endswith f ".graphml" = true → ext_only_at_end f = true) names →
  ∃ d out',
    load fs folder_path out = (Ok (Some d), out')
    ∧ (∀ k, k ∈ dom d
            ↔ ∃ f, f ∈ names ∧ endswith f ".graphml" = true
                   ∧ is_ok (read_graphml (os.join folder_path f)) = true
                   ∧ k = strip_ext f)
    ∧ size d
      = length (filter (λ f, endswith f ".graphml" = true
                             ∧ is_ok (read_graphml (os.join folder_path f)) = true)
                  names).
Proof.
  intros Hdir Hnd Hclean.
  destruct (load_all_networks_directory read_graphml float_of_string str_exn
              fs folder_path names out Hdir) as [out' Hload].
  exists (loaded folder_path names ∅), out'. split; [done|]. split.
  - intros k. rewrite load_dict_dom. rewrite Forall_forall in Hclean. split.
    + intros [?%elem_of_empty|(f & Hf & [Hext Hok]%entry_is_Some & ->)]; [done|].
      exists f. repeat (split; [done|]). apply replace_strip_ext; auto.
    + intros (f & Hf & Hext & Hok & ->). right. exists f.
      split; [done|]. split; [by apply entry_is_Some|].
      symmetry. apply replace_strip_ext; auto.
  - by apply load_dict_size.
Qed.

(** C5. The loader returns [None] exactly when the path does not exist;
    for a directory without a name ending in [.graphml] it returns the
    empty dict, which is not [None]. *)
Theorem not_found_sentinel fs folder_path out :
  ((load fs folder_path out).1 = Ok None ↔ fs folder_path = os.Missing)
  ∧ (∀ names,
       fs folder_path = os.Directory names →
       Forall (λ f, endswith f ".graphml" = false) names →
       load fs folder_path out = (Ok (Some ∅), out))
  ∧ (∀ d : gmap string Graph, Some d ≠ None).
Proof.
  split; [|split; [|done]].
  - unfold load_all_networks, os.exists_, os.listdir.
    destruct (fs folder_path) as [| |names] eqn:Hfs; simpl; [done|done|].
    unfold bind, lift.
    destruct (load_loop read_graphml float_of_string str_exn folder_path names ∅ out)
      as [out' ->]. done.
  - intros names Hdir Hnone.
    unfold load_all_networks, os.exists_, os.listdir. rewrite Hdir. simpl.
    unfold bind, lift. by rewrite load_loop_no_graph_files.
Qed.

(** C6. A file whose parse raises does not make the load raise, and the
    result is the one the folder gives without that file: every file
    that parses still has its key, every graph in the result comes from
    another file, one that parsed, and the failing file's key is absent
    unless such a file maps to it. *)
Theorem parse_failure_skipped fs fs' folder_path names f e out out2 :
  fs folder_path = os.Directory names →
  f ∈ names →
  read_graphml (os.join folder_path f) = Raise e →
  fs' folder_path = os.Directory (filter (λ g, g ≠ f) names) →
  ∃ d out' out2',
    load fs folder_path out = (Ok (Some d), out')
    ∧ load fs' folder_path out2 = (Ok (Some d), out2')
    ∧ (∀ g G, g ∈ names → endswith g ".graphml" = true →
              read_graphml (os.join folder_path g) = Ok G →
              is_Some (d !! key g))
    ∧ (∀ k G', d !! k = Some G' →
         ∃ g G, g ∈ names ∧ g ≠ f ∧ endswith g ".graphml" = true
                ∧ read_graphml (os.join folder_path g) = Ok G ∧ k = key g)
    ∧ ((∀ g, g ∈ names → g ≠ f → key g ≠ key f) → d !! key f = None).
Proof.
  intros Hdir Hf Hraise Hdir'.
  destruct (load_all_networks_directory read_graphml float_of_string str_exn
              fs folder_path names out Hdir) as [out' Hload].
  destruct (load_all_networks_directory read_graphml float_of_string str_exn
              fs' folder_path _ out2 Hdir') as [out2' Hload'].
  assert (entry folder_path f = None) as Hnone.
  { unfold entry_graph. rewrite Hraise. by destruct (endswith f ".graphml"). }
  rewrite load_dict_skip in Hload' by done.
  exists (loaded folder_path names ∅), out', out2'.
  split; [done|]. split; [done|]. split; [|split].
  - intros g G Hg Hext Hok. apply elem_of_dom, load_dict_dom. right.
    exists g. split; [done|]. split; [|done].
    apply entry_is_Some. by rewrite Hok.
  - intros k G' [?|(g & Hg & Hentry & ->)]%load_dict_lookup; [done|].
    assert (g ≠ f) as Hne by (intros ->; by rewrite Hnone in Hentry).
    unfold entry_graph in Hentry.
    destruct (endswith g ".graphml") eqn:Hext; [|done].
    destruct (read_graphml (os.join folder_path g)) as [e'|G] eqn:Hok; [done|].
    by exists g, G.
  - intros Hother. apply not_elem_of_dom. rewrite load_dict_dom.
    intros [?%elem_of_empty|(g & Hg & Hsome & Hkey)]; [done|].
    destruct (decide (g = f)) as [->|Hne].
    + rewrite Hnone in Hsome. by destruct Hsome.
    + by apply (Hother g).
Qed.

(** C7. The cleaning of [size] never raises; every file that parses
    keeps its key; and every graph in the result is a parsed file whose
    nodes are all there, each with a textual [size] that reads as a
    number turned into that number and everything else as it was. *)
Theorem size_coercion fs folder_path names out :
  fs folder_path = os.Directory names →
  ∃ d out',
    load fs folder_path out = (Ok (Some d), out')
    ∧ (∀ f G, f ∈ names → endswith f ".graphml" = true →
              read_graphml (os.join folder_path f) = Ok G →
              is_Some (d !! key f))
    ∧ (∀ k G', d !! k = Some G' →
         ∃ f G, f ∈ names ∧ endswith f ".graphml" = true
                ∧ read_graphml (os.join folder_path f) = Ok G
                ∧ k = key f
                ∧ clean_attributes float_of_string G = (Ok tt, G')
                ∧ Forall2 (coerced float_of_string) G G').
Proof.
  intros Hdir.
  destruct (load_all_networks_directory read_graphml float_of_string str_exn
              fs folder_path names out Hdir) as [out' Hload].
  exists (loaded folder_path names ∅), out'. split; [done|]. split.
  - intros f G Hf Hext Hok. apply elem_of_dom, load_dict_dom. right.
    exists f. split; [done|]. split; [|done].
    apply entry_is_Some. by rewrite Hok.
  - intros k G' [?|(f & Hf & Hentry & ->)]%load_dict_lookup; [done|].
    unfold entry_graph in Hentry.
    destruct (endswith f ".graphml") eqn:Hext; [|done].
    destruct (read_graphml (os.join folder_path f)) as [e|G] eqn:Hok; [done|].
    injection Hentry as <-. exists f, G.
    repeat (split; [done|]). split; [apply clean_attributes_run|].
    apply Forall2_fmap_r, Forall_Forall2_diag, Forall_forall.
    intros r _. apply clean_row_coerced.
Qed.

End LoaderClaims.

(** C4 as stated fails: a file that ends in [.graphml] and does not parse
    gets no key. *)
Lemma keys_miss_corrupt_file :
  SampleFs.fs "corrupt" = os.Directory ["bad.graphml"]
  ∧ endswith "bad.graphml" ".graphml" = true
  ∧ strip_ext "bad.graphml" = "bad"
  ∧ SampleFs.load "corrupt"
    = (Ok (Some ∅), ["Error loading bad.graphml: not well-formed (invalid token)"])
  ∧ ¬ (∀ k, k ∈ dom (∅ : gmap string Graph)
            ↔ ∃ f, f ∈ ["bad.graphml"] ∧ endswith f ".graphml" = true
                   ∧ k = strip_ext f).
Proof.
  repeat (split; [by vm_compute|]).
  intros H. specialize (H "bad"). destruct H as [_ H].
  apply (not_elem_of_empty (C := gset string) "bad"). rewrite dom_empty_L in H.
  apply H. exists "bad.graphml". split; [set_solver|]. by vm_compute.
Qed.

(** The keys of the sample folder [data]. *)
Lemma loader_keys_data :
  ∃ d out',
    SampleFs.load "data" = (Ok (Some d), out')
    ∧ (∀ k, k ∈ dom d
            ↔ ∃ f, f ∈ ["a.graphml"; "b.graphml"; "notes.txt"]
                   ∧ endswith f ".graphml" = true
                   ∧ is_ok (SampleFs.read_graphml (os.join "data" f)) = true
                   ∧ k = strip_ext f)
    ∧ size d
      = length (filter (λ f, endswith f ".graphml" = true
                             ∧ is_ok (SampleFs.read_graphml (os.join "data" f)) = true)
                  ["a.graphml"; "b.graphml"; "notes.txt"]).
Proof.
  apply (loader_keys SampleFs.read_graphml SampleFs.float_of_string SampleFs.str_exn
           SampleFs.fs "data" ["a.graphml"; "b.graphml"; "notes.txt"] []).
  - reflexivity.
  - apply (bool_decide_eq_true_1 _). vm_compute. reflexivity.
  - repeat (apply Forall_cons_2;
              [first [intros _; vm_compute; reflexivity
                     |intros H; vm_compute in H; discriminate H]|]).
    apply Forall_nil_2.
Defined.

(** The folder of the specification's example has exactly the keys [a]
    and [b]. *)
Example loader_keys_a_b :
  ∃ d out, SampleFs.load "data" = (Ok (Some d), out) ∧ dom d = {["a"; "b"]}.
Proof. eexists _, _. split; [by vm_compute|]. by vm_compute. Qed.

(** A missing path, a folder without graph files, and a path that is a
    file. *)
Lemma not_found_sentinel_sample :
  ((SampleFs.load "nowhere").1 = Ok None ↔ SampleFs.fs "nowhere" = os.Missing)
  ∧ SampleFs.load "empty" = (Ok (Some ∅), [])
  ∧ (SampleFs.load "app.py").1 = Raise NotADirectoryError.
Proof.
  split; [|split].
  - apply (not_found_sentinel SampleFs.read_graphml SampleFs.float_of_string
             SampleFs.str_exn SampleFs.fs "nowhere" []).
  - apply (not_found_sentinel SampleFs.read_graphml SampleFs.float_of_string
             SampleFs.str_exn SampleFs.fs "empty" [] ) with (names := ["notes.txt"]).
    + reflexivity.
    + repeat constructor.
  - vm_compute. reflexivity.
Defined.

(** The sample folder [broken] loads as it does once [bad.graphml] is
    removed. *)
Lemma parse_failure_skipped_broken :
  ∃ d out' out2',
    SampleFs.load "broken" = (Ok (Some d), out')
    ∧ load_all_networks SampleFs.fs_repaired SampleFs.read_graphml
        SampleFs.float_of_string SampleFs.str_exn "broken" []
      = (Ok (Some d), out2')
    ∧ (∀ g G, g ∈ ["a.graphml"; "bad.graphml"; "b.graphml"] →
              endswith g ".graphml" = true →
              SampleFs.read_graphml (os.join "broken" g) = Ok G →
              is_Some (d !! network_name_of g))
    ∧ (∀ k G', d !! k = Some G' →
         ∃ g G, g ∈ ["a.graphml"; "bad.graphml"; "b.graphml"]
                ∧ g ≠ "bad.graphml" ∧ endswith g ".graphml" = true
                ∧ SampleFs.read_graphml (os.join "broken" g) = Ok G
                ∧ k = network_name_of g)
    ∧ ((∀ g, g ∈ ["a.graphml"; "bad.graphml"; "b.graphml"] → g ≠ "bad.graphml" →
             network_name_of g ≠ network_name_of "bad.graphml") →
       d !! network_name_of "bad.graphml" = None).
Proof.
  apply (parse_failure_skipped SampleFs.read_graphml SampleFs.float_of_string
           SampleFs.str_exn SampleFs.fs SampleFs.fs_repaired "broken"
           ["a.graphml"; "bad.graphml"; "b.graphml"] "bad.graphml"
           (GraphMLError "not well-formed (invalid token)") [] []).
  - reflexivity.
  - apply (bool_decide_eq_true_1 _). vm_compute. reflexivity.
  - vm_compute. reflexivity.
  - vm_compute. reflexivity.
Defined.

(** Every graph loaded from the sample folder [data] is a cleaned parse. *)
Lemma size_coercion_data :
  ∃ d out',
    SampleFs.load "data" = (Ok (Some d), out')
    ∧ (∀ f G, f ∈ ["a.graphml"; "b.graphml"; "notes.txt"] →
              endswith f ".graphml" = true →
              SampleFs.read_graphml (os.join "data" f) = Ok G →
              is_Some (d !! network_name_of f))
    ∧ (∀ k G', d !! k = Some G' →
         ∃ f G, f ∈ ["a.graphml"; "b.graphml"; "notes.txt"]
                ∧ endswith f ".graphml" = true
                ∧ SampleFs.read_graphml (os.join "data" f) = Ok G
                ∧ k = network_name_of f
                ∧ clean_attributes SampleFs.float_of_string G = (Ok tt, G')
                ∧ Forall2 (coerced SampleFs.float_of_string) G G').
Proof.
  apply (size_coercion SampleFs.read_graphml SampleFs.float_of_string
           SampleFs.str_exn SampleFs.fs "data"
           ["a.graphml"; "b.graphml"; "notes.txt"] []).
  reflexivity.
Defined.

(** The sizes of the sample file after loading: ["2.5"] has become a
    number, ["big"] and the numeric 4 are as they were. *)
Example sized_after_loading :
  ∃ d out G,
    SampleFs.load "data" = (Ok (Some d), out)
    ∧ d !! "a" = Some G
    ∧ map (λ r, ndata r !! "size") G
      = [Some (VFloat (5 # 2)); Some (VStr "big"); Some (VInt 4); None].
Proof.
  eexists _, _, _. split; [by vm_compute|]. split; [by vm_compute|]. by vm_compute.
Qed.

(** Without a seed the layout would follow the process-wide generator. *)
Example unseeded_layout_follows_generator :
  (spring_layout Sample.RandomState Sample.grid_layout (3 # 10) 50 None
     (mk_world Sample.triangle 0)).1
  ≠ (spring_layout Sample.RandomState Sample.grid_layout (3 # 10) 50 None
       (mk_world Sample.triangle 1)).1.
Proof. by vm_compute. Qed.

(** The end-to-end examples of the specification. *)
Example triangle_end_to_end :
  ∃ fig w, Sample.run Sample.triangle = (Ok fig, w)
    ∧ marker_size fig = [f64.of_int 10; f64.of_int 10; f64.of_int 10]
    ∧ length (edge_trace_x fig) = 9%nat
    ∧ hovertext fig = ["<b>a</b><br>Degree: 2<br>Community ID: 0";
                       "<b>b</b><br>Degree: 2<br>Community ID: 0";
                       "<b>c</b><br>Degree: 2<br>Community ID: 0"].
Proof. eexists _, _. split; [by vm_compute|]. done. Qed.

Example star_end_to_end :
  ∃ fig w, Sample.run Sample.star = (Ok fig, w)
    ∧ marker_size fig
      = [f64.of_int 50; f64.of_int 10; f64.of_int 10; f64.of_int 10; f64.of_int 10].
Proof. eexists _, _. split; [by vm_compute|]. done. Qed.

(** The pipeline on a [MultiGraph]: every parallel edge is a segment of
    its own and counts in the degree of both its ends. *)
Example doubled_end_to_end :
  nx.wf Sample.doubled = true
  ∧ nx.simple Sample.doubled = false
  ∧ map (λ r, (nid r, nbrs r)) Sample.doubled
    = [("a", ["b"; "b"]); ("b", ["a"; "a"; "b"; "c"]); ("c", ["b"])]
  ∧ nx.edges Sample.doubled = [("a", "b"); ("a", "b"); ("b", "b"); ("b", "c")]
  ∧ nx.number_of_edges Sample.doubled = 4
  ∧ degrees_of Sample.doubled = [2; 5; 1]
  ∧ ∃ fig,
      (Sample.run Sample.doubled).1 = Ok fig
      ∧ length (edge_trace_x fig) = 12%nat
      ∧ hovertext fig = ["<b>a</b><br>Degree: 2<br>Community ID: 0";
                         "<b>b</b><br>Degree: 5<br>Community ID: 0";
                         "<b>c</b><br>Degree: 1<br>Community ID: 0"]
      ∧ marker_size fig = [f64.of_int 20; f64.of_int 50; f64.of_int 10].
Proof.
  split; [by vm_compute|]. split; [by vm_compute|]. split; [by vm_compute|].
  split; [by vm_compute|]. split; [by vm_compute|]. split; [by vm_compute|].
  eexists. split; [by vm_compute|]. by vm_compute.
Qed.

(** ** Further properties of the encoding pipeline *)

Lemma collect_app_raise {A B} (f : A → result B) l1 x l2 e :
  Forall (λ y, is_ok (f y) = true) l1 → f x = Raise e →
  collect f (l1 ++ x :: l2) = Raise e.
Proof.
  intros Hl1 Hx. induction Hl1 as [|y l1 Hy _ IH]; simpl.
  - by rewrite Hx.
  - destruct (f y); [done|]. by rewrite IH.
Qed.

Lemma node_item_ok float_str pos G n :
  n ∈ nx.nodes G → is_Some (pos !! n) →
  is_ok (node_item_of float_str pos (spec_min_deg (degrees_of G))
           (spec_range (degrees_of G)) G n) = true.
Proof.
  intros Hn [xy Hxy]. unfold node_item_of, getitem. rewrite Hxy.
  destruct (find_row_elem_of _ _ Hn) as [[i r] Hrow]. rewrite Hrow.
  assert (nx.row_degree r ∈ degrees_of G) as Hin.
  { apply find_row_Some in Hrow as [Hi _]. apply list_elem_of_fmap.
    exists r. split; [done|]. by eapply list_elem_of_lookup_2. }
  by rewrite truediv_degree.
Qed.

(** Under distinct node keys the item of a row carries that row's own
    community value, degree and position. *)
Lemma node_item_row float_str pos m rg G i r e :
  NoDup (nx.nodes G) → G !! i = Some r →
  node_item_of float_str pos m rg G (nid r) = Ok e →
  ∃ xy, pos !! nid r = Some xy ∧ item_x e = xy.1 ∧ item_y e = xy.2
        ∧ item_color e = community_of r
        ∧ item_text e = hover_info float_str (nid r) (nx.row_degree r) (community_of r).
Proof.
  intros Hnd Hi. unfold node_item_of, getitem.
  destruct (pos !! nid r) as [xy|]; [|done].
  rewrite (find_row_unique G i r Hnd Hi).
  destruct (truediv _ _); [done|]. intros [= <-]. by exists xy.
Qed.

Lemma item_colors_rows float_str pos m rg G items :
  NoDup (nx.nodes G) →
  Forall2 (λ n e, node_item_of float_str pos m rg G n = Ok e) (nx.nodes G) items →
  map item_color items = map community_of G.
Proof.
  intros Hnd Hitems. apply list_eq. intros i. rewrite !list_lookup_fmap.
  destruct (G !! i) as [r|] eqn:Hi; simpl.
  - assert (nx.nodes G !! i = Some (nid r)) as Hn.
    { unfold nx.nodes. by rewrite list_lookup_fmap, Hi. }
    destruct (Forall2_lookup_l _ _ _ _ _ Hitems Hn) as (e & -> & He). simpl.
    destruct (node_item_row _ _ _ _ _ _ _ _ Hnd Hi He) as (xy & _ & _ & _ & -> & _).
    done.
  - assert (items !! i = None) as ->; [|done].
    apply lookup_ge_None. rewrite <- (Forall2_length _ _ _ Hitems).
    unfold nx.nodes. rewrite length_map. by apply lookup_ge_None.
Qed.

Lemma value_lt_classes a b :
  value_lt a b = Raise TypeError ↔ is_str a ≠ is_str b.
Proof. destruct a, b; simpl; split; (done || congruence). Qed.

Lemma scan_mixed_raises cur l :
  (∃ x, x ∈ l ∧ is_str x ≠ is_str cur) →
  scan_best (λ x c, value_lt x c) cur l = Raise TypeError.
Proof.
  revert cur. induction l as [|y l IH]; intros cur (x & Hx & Hcls).
  - by apply elem_of_nil in Hx.
  - simpl. destruct (decide (is_str y = is_str cur)) as [Hy|Hy].
    + destruct (value_lt y cur) as [e|b] eqn:Hlt.
      { exfalso. destruct y, cur; simpl in *; congruence. }
      apply elem_of_cons in Hx as [->|Hx]; [done|].
      destruct b; apply IH; exists x; (split; [done|congruence]).
    + apply value_lt_classes in Hy. by rewrite Hy.
Qed.

Lemma value_min_mixed_raises colors :
  (∃ c, c ∈ colors ∧ is_str c = true) → (∃ c, c ∈ colors ∧ is_num c = true) →
  color_bound value_min 0 colors = Raise TypeError.
Proof.
  intros (s & Hs & Hstr) (n & Hn & Hnum).
  destruct colors as [|c cs]; [by apply elem_of_nil in Hs|].
  unfold color_bound, value_min, py_best. apply scan_mixed_raises.
  assert (is_str n = false) as Hn' by (by destruct n).
  destruct (is_str c) eqn:Hc.
  - exists n. apply elem_of_cons in Hn as [->|Hn]; [congruence|].
    split; [done|congruence].
  - exists s. apply elem_of_cons in Hs as [->|Hs]; [congruence|].
    split; [done|congruence].
Qed.

Lemma value_lt_num_spec a b :
  is_num a = true → is_num b = true →
  value_lt a b = Ok (negb (Qle_bool (num_of b) (num_of a))).
Proof. by destruct a, b. Qed.

Lemma scan_min_num cur l :
  is_num cur = true → Forall (λ c, is_num c = true) l →
  ∃ m, scan_best (λ x c, value_lt x c) cur l = Ok m
       ∧ m ∈ cur :: l ∧ ∀ c, c ∈ cur :: l → (num_of m <= num_of c)%Q.
Proof.
  intros Hcur Hl. revert cur Hcur.
  induction Hl as [|y l Hy _ IH]; intros cur Hcur; simpl.
  - exists cur. split; [done|]. split; [left|].
    intros c ->%list_elem_of_singleton. apply Qle_refl.
  - rewrite value_lt_num_spec by done.
    destruct (Qle_bool (num_of cur) (num_of y)) eqn:Hle; simpl.
    + apply Qle_bool_iff in Hle.
      destruct (IH cur Hcur) as (m & -> & Hm & Hmin). exists m.
      split; [done|]. split.
      * apply elem_of_cons in Hm as [->|Hm]; [left|by do 2 right].
      * intros c [->|[->|Hc]%elem_of_cons]%elem_of_cons.
        -- apply Hmin. left.
        -- eapply Qle_trans; [apply Hmin; left|done].
        -- apply Hmin. by right.
    + assert (num_of y <= num_of cur)%Q as Hyc.
      { destruct (Qlt_le_dec (num_of y) (num_of cur)) as [?|H];
          [by apply Qlt_le_weak|].
        apply Qle_bool_iff in H. congruence. }
      destruct (IH y Hy) as (m & -> & Hm & Hmin). exists m.
      split; [done|]. split; [by right|].
      intros c [->|[->|Hc]%elem_of_cons]%elem_of_cons.
      * eapply Qle_trans; [apply Hmin; left|done].
      * apply Hmin. left.
      * apply Hmin. by right.
Qed.

Lemma scan_max_num cur l :
  is_num cur = true → Forall (λ c, is_num c = true) l →
  ∃ m, scan_best (λ x c, value_lt c x) cur l = Ok m
       ∧ m ∈ cur :: l ∧ ∀ c, c ∈ cur :: l → (num_of c <= num_of m)%Q.
Proof.
  intros Hcur Hl. revert cur Hcur.
  induction Hl as [|y l Hy _ IH]; intros cur Hcur; simpl.
  - exists cur. split; [done|]. split; [left|].
    intros c ->%list_elem_of_singleton. apply Qle_refl.
  - rewrite value_lt_num_spec by done.
    destruct (Qle_bool (num_of y) (num_of cur)) eqn:Hle; simpl.
    + apply Qle_bool_iff in Hle.
      destruct (IH cur Hcur) as (m & -> & Hm & Hmax). exists m.
      split; [done|]. split.
      * apply elem_of_cons in Hm as [->|Hm]; [left|by do 2 right].
      * intros c [->|[->|Hc]%elem_of_cons]%elem_of_cons.
        -- apply Hmax. left.
        -- eapply Qle_trans; [done|apply Hmax; left].
        -- apply Hmax. by right.
    + assert (num_of cur <= num_of y)%Q as Hyc.
      { destruct (Qlt_le_dec (num_of cur) (num_of y)) as [?|H];
          [by apply Qlt_le_weak|].
        apply Qle_bool_iff in H. congruence. }
      destruct (IH y Hy) as (m & -> & Hm & Hmax). exists m.
      split; [done|]. split; [by right|].
      intros c [->|[->|Hc]%elem_of_cons]%elem_of_cons.
      * eapply Qle_trans; [done|apply Hmax; left].
      * apply Hmax. left.
      * apply Hmax. by right.
Qed.

Lemma same_encoding_input_degrees G1 G2 :
  same_encoding_input G1 G2 → degrees_of G1 = degrees_of G2.
Proof.
  induction 1 as [|r1 r2 G1 G2 (Hid & Hnb & _) _ IH]; [done|].
  unfold degrees_of in *. simpl. rewrite IH. f_equal.
  unfold nx.row_degree. by rewrite Hid, Hnb.
Qed.

Lemma same_encoding_input_nodes G1 G2 :
  same_encoding_input G1 G2 → nx.nodes G1 = nx.nodes G2.
Proof.
  induction 1 as [|r1 r2 G1 G2 (Hid & _) _ IH]; [done|].
  unfold nx.nodes in *. simpl. by rewrite Hid, IH.
Qed.

Lemma same_encoding_input_find_row G1 G2 n i r1 :
  same_encoding_input G1 G2 → nx.find_row G1 n = Some (i, r1) →
  ∃ r2, nx.find_row G2 n = Some (i, r2)
        ∧ nx.row_degree r1 = nx.row_degree r2
        ∧ community_of r1 = community_of r2.
Proof.
  intros Hsame. revert i.
  induction Hsame as [|r1' r2' G1 G2 (Hid & Hnb & Hcom) _ IH]; intros i; [done|].
  simpl. rewrite <- Hid. destruct (String.eqb (nid r1') n).
  - intros [= <- <-]. exists r2'. split; [done|]. split; [|done].
    unfold nx.row_degree. by rewrite Hid, Hnb.
  - destruct (nx.find_row G1 n) as [[j r]|]; [|done].
    intros [= <- <-]. destruct (IH j eq_refl) as (r2 & -> & ?). by exists r2.
Qed.

Lemma same_encoding_input_item float_str pos1 pos2 m rg G1 G2 n e1 e2 :
  same_encoding_input G1 G2 →
  node_item_of float_str pos1 m rg G1 n = Ok e1 →
  node_item_of float_str pos2 m rg G2 n = Ok e2 →
  item_size e1 = item_size e2 ∧ item_text e1 = item_text e2
  ∧ item_color e1 = item_color e2.
Proof.
  intros Hsame. unfold node_item_of.
  destruct (getitem pos1 n); [done|]. destruct (getitem pos2 n); [done|].
  destruct (nx.find_row G1 n) as [[i r1]|] eqn:Hrow; [|done].
  destruct (same_encoding_input_find_row _ _ _ _ _ Hsame Hrow) as (r2 & -> & <- & <-).
  destruct (truediv _ _); [done|]. by intros [= <-] [= <-].
Qed.

Lemma clean_row_same_encoding_input float_of_string G :
  same_encoding_input G (map (clean_row float_of_string) G).
Proof.
  apply Forall2_fmap_r, Forall_Forall2_diag, Forall_forall. intros r _.
  destruct (clean_row_coerced float_of_string r) as (Hid & Hnb & Hother & _).
  split; [done|]. split; [done|].
  unfold community_of. by rewrite Hother.
Qed.

Section PipelineMore.

Context {rng : Type}.
Variable RandomState : Z → rng.
Variable fruchterman_reingold : Graph → Q → nat → rng → Layout * rng.
Variable float_str : Q → string.

Local Abbreviation create :=
  (create_plotly_graph RandomState fruchterman_reingold float_str).
Local Abbreviation layout := (layout_of RandomState fruchterman_reingold).

(** X1. When the layout has no position for a node, the pipeline raises
    [KeyError] for the first such node, and the world is as it was. *)
Theorem missing_position_raises network_name (w : @world rng) l1 n l2 :
  nx.nodes (nx_graph w) = l1 ++ n :: l2 →
  Forall (λ m, is_Some (layout (nx_graph w) !! m)) l1 →
  layout (nx_graph w) !! n = None →
  create network_name w = (Raise (KeyError n), w).
Proof.
  intros Hnodes Hl1 Hn. rewrite create_plotly_graph_run. f_equal.
  unfold figure_of. rewrite degree_view_degrees, degree_scale_spec. simpl.
  rewrite Hnodes, (collect_app_raise _ l1 n l2 (KeyError n)); [done| |].
  - apply Forall_forall. intros m Hm. apply node_item_ok.
    + rewrite Hnodes. apply elem_of_app. by left.
    + rewrite Forall_forall in Hl1. by apply Hl1.
  - unfold node_item_of, getitem. by rewrite Hn.
Qed.

(** X2. On a well-formed graph that the layout covers, a textual
    community value on one node and a numeric one (or none, which reads
    as 0) on another make the pipeline raise [TypeError]. *)
Theorem mixed_colors_raise network_name (w : @world rng) r1 r2 :
  nx.wf (nx_graph w) = true →
  covers (layout (nx_graph w)) (nx_graph w) = true →
  r1 ∈ nx_graph w → is_str (community_of r1) = true →
  r2 ∈ nx_graph w → is_num (community_of r2) = true →
  create network_name w = (Raise TypeError, w).
Proof.
  intros Hwf Hcov Hr1 Hstr Hr2 Hnum. rewrite create_plotly_graph_run. f_equal.
  unfold figure_of. rewrite degree_view_degrees, degree_scale_spec. simpl.
  destruct (node_items_ok float_str _ _ Hcov) as [items Hitems].
  destruct (edge_items_ok _ _ Hwf Hcov) as [segs Hsegs].
  rewrite Hitems, Hsegs, foldl_push_node. simpl.
  rewrite (item_colors_rows _ _ _ _ _ _ (wf_NoDup _ Hwf) (collect_Forall2 _ _ _ Hitems)).
  rewrite value_min_mixed_raises; [done| |].
  - exists (community_of r1). split; [|done]. apply list_elem_of_fmap. by exists r1.
  - exists (community_of r2). split; [|done]. apply list_elem_of_fmap. by exists r2.
Qed.

(** X3. In a returned figure whose colours are numbers, [cmin] and [cmax]
    are a lower and an upper bound of every colour, and are themselves
    colours of the figure unless there is none (then they are 0 and 1). *)
Theorem color_bounds network_name (w w' : @world rng) fig :
  create network_name w = (Ok fig, w') →
  Forall (λ c, is_num c = true) (marker_color fig) →
  (∀ c, c ∈ marker_color fig →
        (num_of (marker_cmin fig) <= num_of c)%Q
        ∧ (num_of c <= num_of (marker_cmax fig))%Q)
  ∧ (marker_color fig ≠ [] →
     marker_cmin fig ∈ marker_color fig ∧ marker_cmax fig ∈ marker_color fig)
  ∧ (marker_color fig = [] →
     marker_cmin fig = VInt 0 ∧ marker_cmax fig = VInt 1).
Proof.
  rewrite create_plotly_graph_run. intros [= Hfig _].
  apply figure_of_Ok in Hfig as (items & segs & _ & _ & Heq & Hmin & Hmax).
  rewrite Heq. simpl. clear Heq.
  destruct (map item_color items) as [|c0 cs]; intros Hnum.
  - simpl in *. injection Hmin as <-. injection Hmax as <-.
    split; [by intros c ?%elem_of_nil|]. split; [done|done].
  - apply Forall_cons in Hnum as [Hc0 Hcs].
    unfold color_bound, value_min, value_max, py_best in *.
    destruct (scan_min_num c0 cs Hc0 Hcs) as (m & Hm & Hmin_in & Hmin_le).
    destruct (scan_max_num c0 cs Hc0 Hcs) as (M & HM & Hmax_in & Hmax_ge).
    rewrite Hm in Hmin. rewrite HM in Hmax.
    injection Hmin as <-. injection Hmax as <-.
    split; [|split; [done|done]].
    intros c Hc. split; [by apply Hmin_le|by apply Hmax_ge].
Qed.

(** X4. With distinct node keys, entry [i] of the node trace is node [i]
    of the graph: its position in the layout and its community value, 0
    when it has none. *)
Theorem node_trace_entries network_name (w w' : @world rng) fig :
  NoDup (nx.nodes (nx_graph w)) →
  create network_name w = (Ok fig, w') →
  ∀ i r, nx_graph w !! i = Some r →
    ∃ xy, layout (nx_graph w) !! nid r = Some xy
          ∧ node_trace_x fig !! i = Some xy.1
          ∧ node_trace_y fig !! i = Some xy.2
          ∧ marker_color fig !! i = Some (default (VInt 0) (ndata r !! "community_id")).
Proof.
  intros Hnd. rewrite create_plotly_graph_run. intros [= Hfig _] i r Hi.
  apply figure_of_Ok in Hfig as (items & segs & Hitems & _ & -> & _). simpl.
  assert (nx.nodes (nx_graph w) !! i = Some (nid r)) as Hn.
  { unfold nx.nodes. by rewrite list_lookup_fmap, Hi. }
  destruct (Forall2_lookup_l _ _ _ _ _ Hitems Hn) as (e & He & Hitem).
  destruct (node_item_row _ _ _ _ _ _ _ _ Hnd Hi Hitem)
    as (xy & Hxy & Hx & Hy & Hc & _).
  exists xy. rewrite !list_lookup_fmap, He. simpl.
  by rewrite Hx, Hy, Hc.
Qed.

(** X6. The [size] attribute the loader rewrites is never read: the
    cleaned graph gets the same sizes, hover texts, colours and colour
    bounds as the graph as parsed. *)
Theorem cleaning_keeps_figure float_of_string network_name
    (G : Graph) (r1 r2 : rng) (w1' w2' : @world rng) fig1 fig2 :
  create network_name (mk_world G r1) = (Ok fig1, w1') →
  create network_name (mk_world (clean_attributes float_of_string G).2 r2)
  = (Ok fig2, w2') →
  marker_size fig1 = marker_size fig2
  ∧ hovertext fig1 = hovertext fig2
  ∧ marker_color fig1 = marker_color fig2
  ∧ marker_cmin fig1 = marker_cmin fig2
  ∧ marker_cmax fig1 = marker_cmax fig2.
Proof.
  rewrite clean_attributes_run, !create_plotly_graph_run. simpl.
  pose proof (clean_row_same_encoding_input float_of_string G) as Hsame.
  set (G' := map (clean_row float_of_string) G) in *.
  intros [= Hfig1 _] [= Hfig2 _].
  apply figure_of_Ok in Hfig1 as (items1 & segs1 & Hitems1 & _ & Heq1 & Hmin1 & Hmax1).
  apply figure_of_Ok in Hfig2 as (items2 & segs2 & Hitems2 & _ & Heq2 & Hmin2 & Hmax2).
  rewrite <- (same_encoding_input_degrees _ _ Hsame) in Hitems2.
  rewrite <- (same_encoding_input_nodes _ _ Hsame) in Hitems2.
  assert (∀ (C : Type) (g : node_item → C),
            (∀ n e1 e2,
               node_item_of float_str (layout G) (spec_min_deg (degrees_of G))
                 (spec_range (degrees_of G)) G n = Ok e1 →
               node_item_of float_str (layout G') (spec_min_deg (degrees_of G))
                 (spec_range (degrees_of G)) G' n = Ok e2 → g e1 = g e2) →
            map g items1 = map g items2) as Hmap.
  { intros C g Hg. eapply Forall2_map_agree; [exact Hg|exact Hitems1|exact Hitems2]. }
  assert (map item_size items1 = map item_size items2) as Hsz.
  { apply Hmap. intros n e1 e2 H1 H2.
    by destruct (same_encoding_input_item _ _ _ _ _ _ _ _ _ _ Hsame H1 H2) as (? & ? & ?). }
  assert (map item_text items1 = map item_text items2) as Htx.
  { apply Hmap. intros n e1 e2 H1 H2.
    by destruct (same_encoding_input_item _ _ _ _ _ _ _ _ _ _ Hsame H1 H2) as (? & ? & ?). }
  assert (map item_color items1 = map item_color items2) as Hcl.
  { apply Hmap. intros n e1 e2 H1 H2.
    by destruct (same_encoding_input_item _ _ _ _ _ _ _ _ _ _ Hsame H1 H2) as (? & ? & ?). }
  rewrite Hcl in Hmin1, Hmax1. rewrite Hmin1 in Hmin2. rewrite Hmax1 in Hmax2.
  injection Hmin2 as Hmin2. injection Hmax2 as Hmax2.
  rewrite Heq1, Heq2. simpl. by rewrite Hsz, Htx, Hcl.
Qed.

End PipelineMore.

(** ** Further properties of the loader *)

Section LoaderMore.

Variable read_graphml : string → result Graph.
Variable float_of_string : string → option Q.
Variable str_exn : exn → string.

Local Abbreviation load fs :=
  (load_all_networks fs read_graphml float_of_string str_exn).
Local Abbreviation entry := (entry_graph read_graphml float_of_string).
Local Abbreviation loaded := (load_dict read_graphml float_of_string).

Lemma load_entry_log folder_path filename (d : gmap string Graph) out :
  load_entry read_graphml float_of_string str_exn folder_path filename d out
  = (Ok (match entry folder_path filename with
         | Some G => <[network_name_of filename := G]> d
         | None => d
         end), out ++ failure_line read_graphml str_exn folder_path filename).
Proof.
  unfold load_entry, entry_graph, failure_line.
  destruct (endswith filename ".graphml"); [|by rewrite app_nil_r].
  unfold try_except, load_file, bind, lift.
  destruct (read_graphml _) as [e|G].
  - done.
  - rewrite clean_attributes_run. unfold ret. by rewrite app_nil_r.
Qed.

Lemma load_loop_log folder_path names (d : gmap string Graph) out :
  for_each names (load_entry read_graphml float_of_string str_exn folder_path) d out
  = (Ok (loaded folder_path names d),
     out ++ failure_lines read_graphml str_exn folder_path names).
Proof.
  revert d out. induction names as [|f names IH]; intros d out; simpl.
  - unfold failure_lines. simpl. by rewrite app_nil_r.
  - unfold bind. rewrite load_entry_log, IH.
    unfold failure_lines. simpl. by rewrite app_assoc.
Qed.

Lemma load_all_networks_run fs folder_path out :
  load fs folder_path out
  = match fs folder_path with
    | os.Missing => (Ok None, out)
    | os.RegularFile => (Raise NotADirectoryError, out)
    | os.Directory names =>
        (Ok (Some (loaded folder_path names ∅)),
         out ++ failure_lines read_graphml str_exn folder_path names)
    end.
Proof.
  unfold load_all_networks, os.exists_, os.listdir.
  destruct (fs folder_path) as [| |names]; simpl; [done|done|].
  unfold bind, lift. by rewrite load_loop_log.
Qed.

(** X7. For a directory the loader prints exactly one line per file that
    ends in [.graphml] and fails to parse, in listing order and after what
    was printed before; files that parse and other files print nothing. *)
Theorem loader_log fs folder_path names out :
  fs folder_path = os.Directory names →
  (load fs folder_path out).2
  = out ++ failure_lines read_graphml str_exn folder_path names
  ∧ length (failure_lines read_graphml str_exn folder_path names)
    = length (filter (λ f, endswith f ".graphml" = true
                           ∧ is_ok (read_graphml (os.join folder_path f)) = false)
                names)
  ∧ (Forall (λ f, endswith f ".graphml" = true →
                  is_ok (read_graphml (os.join folder_path f)) = true) names →
     (load fs folder_path out).2 = out).
Proof.
  intros Hfs. rewrite load_all_networks_run, Hfs.
  assert (length (failure_lines read_graphml str_exn folder_path names)
          = length (filter (λ f, endswith f ".graphml" = true
                      ∧ is_ok (read_graphml (os.join folder_path f)) = false)
                      names)) as Hlen.
  { unfold failure_lines. clear Hfs. induction names as [|f names IH]; [done|].
    simpl. rewrite length_app, IH, filter_cons. unfold failure_line.
    destruct (endswith f ".graphml");
      [destruct (read_graphml (os.join folder_path f))|];
      case_decide as Hd; simpl in *; try done; exfalso; naive_solver. }
  split; [done|]. split; [done|].
  intros Hall. simpl.
  assert (failure_lines read_graphml str_exn folder_path names = []) as ->;
    [|by rewrite app_nil_r].
  unfold failure_lines. clear Hfs Hlen.
  induction Hall as [|f names Hf _ IH]; [done|].
  simpl. rewrite IH, app_nil_r. unfold failure_line.
  destruct (endswith f ".graphml"); [|done].
  specialize (Hf eq_refl). by destruct (read_graphml _).
Qed.

Lemma load_dict_app folder_path l1 l2 (d : gmap string Graph) :
  loaded folder_path (l1 ++ l2) d = loaded folder_path l2 (loaded folder_path l1 d).
Proof. unfold load_dict. by rewrite foldl_app. Qed.

Lemma load_dict_lookup_other folder_path names (d : gmap string Graph) k :
  (∀ g, g ∈ names → is_Some (entry folder_path g) → network_name_of g ≠ k) →
  loaded folder_path names d !! k = d !! k.
Proof.
  revert d. induction names as [|f names IH]; intros d Hother; [done|].
  simpl. rewrite IH by (intros g Hg; apply Hother; by right).
  destruct (entry folder_path f) as [G|] eqn:Hentry; [|done].
  apply lookup_insert_ne, Hother; [left|by rewrite Hentry].
Qed.

(** X8. When several files of a directory map to the same key, the dict
    holds the cleaned graph of the last of them that parses. *)
Theorem last_file_wins fs folder_path l1 f l2 G out :
  fs folder_path = os.Directory (l1 ++ f :: l2) →
  endswith f ".graphml" = true →
  read_graphml (os.join folder_path f) = Ok G →
  (∀ g, g ∈ l2 → endswith g ".graphml" = true →
        is_ok (read_graphml (os.join folder_path g)) = true →
        network_name_of g ≠ network_name_of f) →
  ∃ d out',
    load fs folder_path out = (Ok (Some d), out')
    ∧ d !! network_name_of f = Some (clean_attributes float_of_string G).2.
Proof.
  intros Hdir Hext Hok Hlast. rewrite load_all_networks_run, Hdir.
  eexists _, _. split; [done|].
  rewrite load_dict_app. simpl.
  rewrite load_dict_lookup_other.
  - unfold entry_graph at 1. rewrite Hext, Hok, lookup_insert_eq.
    by rewrite clean_attributes_run.
  - intros g Hg [Hgext Hgok]%entry_is_Some. by apply Hlast.
Qed.

End LoaderMore.

Lemma clean_row_idempotent float_of_string r :
  clean_row float_of_string (clean_row float_of_string r)
  = clean_row float_of_string r.
Proof.
  unfold clean_row at 2.
  destruct (ndata r !! "size") as [[b|z|q|s]|] eqn:Hsize;
    try (unfold clean_row; by rewrite Hsize).
  destruct (float_of_string s) as [q|] eqn:Hfloat.
  - unfold clean_row. cbn [ndata]. by rewrite lookup_insert_eq, Hsize, Hfloat.
  - unfold clean_row. by rewrite Hsize, Hfloat.
Qed.

Lemma clean_row_shape float_of_string r :
  nid (clean_row float_of_string r) = nid r
  ∧ nbrs (clean_row float_of_string r) = nbrs r.
Proof. by destruct (clean_row_coerced float_of_string r) as (? & ? & _). Qed.

Lemma find_row_clean float_of_string G n :
  nx.find_row (map (clean_row float_of_string) G) n
  = (λ ir, (ir.1, clean_row float_of_string ir.2)) <$> nx.find_row G n.
Proof.
  induction G as [|r G IH]; [done|]. simpl.
  destruct (clean_row_shape float_of_string r) as [-> _].
  destruct (String.eqb (nid r) n); [done|].
  rewrite IH. by destruct (nx.find_row G n) as [[i r']|].
Qed.

Lemma edges_from_clean float_of_string seen G :
  nx.edges_from seen (map (clean_row float_of_string) G) = nx.edges_from seen G.
Proof.
  revert seen. induction G as [|r G IH]; intros seen; [done|]. simpl.
  destruct (clean_row_shape float_of_string r) as [-> ->]. by rewrite IH.
Qed.

Lemma forallb_map_ext {A B} (f : B → bool) (g : A → bool) (h : A → B) l :
  (∀ x, f (h x) = g x) → forallb f (map h l) = forallb g l.
Proof.
  intros Hfg. induction l as [|x l IH]; [done|]. simpl. by rewrite Hfg, IH.
Qed.

Lemma wf_clean float_of_string G :
  nx.wf (map (clean_row float_of_string) G) = nx.wf G.
Proof.
  unfold nx.wf, nx.nodes. rewrite map_map.
  assert (map (λ x, nid (clean_row float_of_string x)) G = map nid G) as ->.
  { apply map_ext. intros r. by destruct (clean_row_shape float_of_string r). }
  f_equal. apply forallb_map_ext. intros r.
  unfold nx.wf_row.
  destruct (clean_row_shape float_of_string r) as [-> ->].
  transitivity
    (forallb (λ v, match nx.find_row (map (clean_row float_of_string) G) v with
                   | Some (_, r') =>
                       Nat.eqb (nx.multiplicity (nid r) (nbrs r'))
                         (nx.multiplicity v (nbrs r))
                   | None => false
                   end) (map id (nbrs r))); [by rewrite map_id|].
  apply forallb_map_ext.
  intros v. simpl. rewrite find_row_clean.
  destruct (nx.find_row G v) as [[i r']|]; simpl; [|done].
  by destruct (clean_row_shape float_of_string r') as [_ ->].
Qed.

(** X9. Cleaning a graph a second time changes nothing, and cleaning
    keeps the nodes, the edges, the degrees and the well-formedness of the
    graph. *)
Theorem cleaning_idempotent float_of_string (G : Graph) :
  (_ <~ clean_attributes float_of_string ;; clean_attributes float_of_string) G
  = clean_attributes float_of_string G
  ∧ nx.nodes (clean_attributes float_of_string G).2 = nx.nodes G
  ∧ nx.edges (clean_attributes float_of_string G).2 = nx.edges G
  ∧ nx.degree_view (clean_attributes float_of_string G).2 = nx.degree_view G
  ∧ nx.wf (clean_attributes float_of_string G).2 = nx.wf G.
Proof.
  unfold bind. rewrite !clean_attributes_run. simpl.
  split; [|split; [|split; [|split]]].
  - f_equal. rewrite map_map. apply map_ext. intros r.
    apply clean_row_idempotent.
  - unfold nx.nodes. rewrite map_map. apply map_ext. intros r.
    by destruct (clean_row_shape float_of_string r).
  - apply edges_from_clean.
  - unfold nx.degree_view. rewrite map_map. apply map_ext. intros r.
    unfold nx.row_degree.
    by destruct (clean_row_shape float_of_string r) as [-> ->].
  - apply wf_clean.
Qed.

(** ** The script runs as its closed form *)

Section ScriptFacts.

Context {rng : Type}.
Variable RandomState : Z → rng.
Variable fruchterman_reingold : Graph → Q → nat → rng → Layout * rng.
Variable float_str : Q → string.
Variable read_graphml : string → result Graph.
Variable float_of_string : string → option Q.
Variable str_exn : exn → string.
Variable dict_keys : gmap string Graph → list string.

Local Abbreviation layout := (layout_of RandomState fruchterman_reingold).
Local Abbreviation loaded := (load_dict read_graphml float_of_string).
Local Abbreviation run_script :=
  (script RandomState fruchterman_reingold float_str read_graphml
     float_of_string str_exn dict_keys).
Local Abbreviation show :=
  (show_result RandomState fruchterman_reingold float_str dict_keys).

Lemma shown_shown l1 l2 (s : @session rng) :
  shown l2 (shown l1 s) = shown (l1 ++ l2) s.
Proof. unfold shown. simpl. by rewrite app_assoc. Qed.

Lemma call_create_plotly_graph_run networks G name (s : @session rng) :
  resource_cache s !! GRAPHML_FOLDER = Some (Some networks) →
  networks !! name = Some G →
  call_create_plotly_graph RandomState fruchterman_reingold float_str G name s
  = (figure_of float_str (layout G) G, s).
Proof.
  intros Hcache Hname. unfold call_create_plotly_graph.
  rewrite create_plotly_graph_run. simpl. f_equal.
  destruct s as [pg out cache np]. simpl in *. f_equal.
  apply map_eq. intros k. rewrite lookup_alter.
  case_decide as Hk; [|done]. subst k. rewrite Hcache. simpl.
  by rewrite insert_id.
Qed.

Lemma show_network_run networks choice (s : @session rng) :
  resource_cache s !! GRAPHML_FOLDER = Some (Some networks) →
  show_network RandomState fruchterman_reingold float_str dict_keys networks choice s
  = match lookup_selected networks (dict_keys networks !! choice) with
    | Raise e => (Raise e, shown (page_controls (dict_keys networks)) s)
    | Ok sel =>
        match figure_of float_str (layout sel.2) sel.2 with
        | Raise e =>
            (Raise e, shown (page_controls (dict_keys networks)
                             ++ page_metrics sel.1 sel.2) s)
        | Ok fig =>
            (Ok tt, shown (page_controls (dict_keys networks)
                           ++ page_metrics sel.1 sel.2 ++ page_chart fig) s)
        end
    end.
Proof.
  intros Hcache. unfold show_network, st_selectbox.
  unfold bind at 1. unfold st_element at 1, modify at 1.
  unfold bind at 1. unfold bind at 1. unfold st_element at 1, modify at 1.
  unfold ret at 1. unfold bind at 1. unfold lift at 1.
  destruct (lookup_selected networks (dict_keys networks !! choice))
    as [e|[name G]] eqn:Hsel.
  { unfold shown, page_controls. simpl. by rewrite <- app_assoc. }
  assert (networks !! name = Some G) as Hname.
  { unfold lookup_selected in Hsel.
    destruct (dict_keys networks !! choice) as [k|]; [|done].
    destruct (networks !! k) as [G'|] eqn:Hk; [|done]. by injection Hsel as <- <-. }
  cbv zeta. cbn [fst snd].
  do 5 (unfold bind at 1; unfold st_element at 1, modify at 1).
  unfold bind at 1.
  rewrite (call_create_plotly_graph_run networks G name); [|done|done].
  destruct (figure_of float_str (layout G) G) as [e|fig];
    unfold bind, st_element, modify, shown, page_controls, page_metrics, page_chart;
    simpl; by rewrite <- !app_assoc.
Qed.

Lemma script_run fs choice (s : @session rng) :
  run_script fs choice s
  = match resource_cache s !! GRAPHML_FOLDER with
    | Some v => show v choice (shown page_header s)
    | None =>
        match fs GRAPHML_FOLDER with
        | os.Missing =>
            show None choice
              (mk_session (page s ++ page_header) (stdout s)
                 (<[GRAPHML_FOLDER := None]> (resource_cache s)) (np_state s))
        | os.RegularFile => (Raise NotADirectoryError, shown page_header s)
        | os.Directory names =>
            show (Some (loaded GRAPHML_FOLDER names ∅)) choice
              (mk_session (page s ++ page_header)
                 (stdout s ++ failure_lines read_graphml str_exn GRAPHML_FOLDER names)
                 (<[GRAPHML_FOLDER := Some (loaded GRAPHML_FOLDER names ∅)]>
                    (resource_cache s)) (np_state s))
        end
    end.
Proof.
  unfold script. unfold bind at 1. unfold st_element at 1, modify at 1.
  unfold bind at 1. unfold st_element at 1, modify at 1.
  unfold bind at 1. unfold st_element at 1, modify at 1.
  unfold bind at 1. unfold cached_load_all_networks. simpl.
  rewrite <- !app_assoc. simpl.
  destruct (resource_cache s !! GRAPHML_FOLDER) as [v|]; [done|].
  rewrite load_all_networks_run.
  by destruct (fs GRAPHML_FOLDER).
Qed.

Lemma show_result_keeps v choice (s : @session rng) :
  resource_cache s !! GRAPHML_FOLDER = Some v →
  ∃ l, (show v choice s).2 = shown l s.
Proof.
  intros Hcache. unfold show_result.
  destruct v as [networks|]; [|by eexists].
  destruct (size networks =? 0)%nat; [by eexists|].
  rewrite show_network_run by done.
  destruct (lookup_selected _ _) as [e|sel]; [by eexists|].
  destruct (figure_of _ _ _); by eexists.
Qed.

Lemma loaded_size_0 folder_path names :
  size (loaded folder_path names ∅) = 0%nat
  ↔ ∀ f, f ∈ names → endswith f ".graphml" = true →
         is_ok (read_graphml (os.join folder_path f)) = false.
Proof.
  rewrite map_size_empty_iff. split.
  - intros Hempty f Hf Hext.
    destruct (is_ok (read_graphml (os.join folder_path f))) eqn:Hok; [|done].
    assert (network_name_of f ∈ dom (loaded folder_path names ∅)) as Hin.
    { apply load_dict_dom. right. exists f. split; [done|]. split; [|done].
      by apply entry_is_Some. }
    rewrite Hempty in Hin. by apply not_elem_of_empty in Hin.
  - intros Hnone. apply map_empty. intros k. apply not_elem_of_dom.
    rewrite load_dict_dom.
    intros [?%elem_of_empty|(f & Hf & [Hext Hok]%entry_is_Some & _)]; [done|].
    specialize (Hnone f Hf Hext). congruence.
Qed.

(** X10. On a first run the error box is shown exactly when the folder is
    missing, and the warning box exactly when the folder is a directory in
    which no file ending in [.graphml] parses; a chart is shown only when
    some such file parses. *)
Theorem script_messages fs choice (s : @session rng) :
  page s = [] →
  resource_cache s !! GRAPHML_FOLDER = None →
  (existsb is_error_box (page (run_script fs choice s).2) = true
   ↔ fs GRAPHML_FOLDER = os.Missing)
  ∧ (existsb is_warning_box (page (run_script fs choice s).2) = true
     ↔ ∃ names, fs GRAPHML_FOLDER = os.Directory names
                ∧ ∀ f, f ∈ names → endswith f ".graphml" = true →
                       is_ok (read_graphml (os.join GRAPHML_FOLDER f)) = false)
  ∧ (existsb is_chart (page (run_script fs choice s).2) = true
     → ∃ names f, fs GRAPHML_FOLDER = os.Directory names ∧ f ∈ names
                  ∧ endswith f ".graphml" = true
                  ∧ is_ok (read_graphml (os.join GRAPHML_FOLDER f)) = true).
Proof.
  intros Hpage Hcache. rewrite script_run, Hcache.
  destruct (fs GRAPHML_FOLDER) as [| |names] eqn:Hfs.
  - simpl. rewrite Hpage. simpl.
    split_and!; try done. split; [done|]. by intros (names & ? & _).
  - simpl. rewrite Hpage. simpl.
    split_and!; try done; (split; [done|]);
      first [done | by intros (names & ? & _)].
  - unfold show_result.
    pose proof (loaded_size_0 GRAPHML_FOLDER names) as Hsize.
    destruct (size (loaded GRAPHML_FOLDER names ∅) =? 0)%nat eqn:Hz.
    + apply Nat.eqb_eq in Hz. simpl. rewrite Hpage. simpl. split_and!; try done.
      split; [|done]. intros _. exists names. split; [done|]. by apply Hsize.
    + apply Nat.eqb_neq in Hz.
      assert (∃ f, f ∈ names ∧ endswith f ".graphml" = true
                   ∧ is_ok (read_graphml (os.join GRAPHML_FOLDER f)) = true)
        as (f & Hf & Hext & Hok).
      { destruct (decide (Exists (λ f, endswith f ".graphml" = true
            ∧ is_ok (read_graphml (os.join GRAPHML_FOLDER f)) = true) names))
          as [(f & Hf & ? & ?)%Exists_exists|Hno]; [by exists f|].
        exfalso. apply Hz, Hsize. intros f Hf Hext.
        destruct (is_ok _) eqn:Hok; [|done].
        exfalso. apply Hno, Exists_exists. by exists f. }
      assert (¬ ∃ names', os.Directory names = os.Directory names'
                ∧ ∀ f, f ∈ names' → endswith f ".graphml" = true →
                       is_ok (read_graphml (os.join GRAPHML_FOLDER f)) = false)
        as Hnot.
      { intros (names' & [= <-] & Hnone). specialize (Hnone f Hf Hext). congruence. }
      rewrite show_network_run by (simpl; apply lookup_insert_eq).
      destruct (lookup_selected _ _) as [e|sel].
      { simpl. rewrite Hpage. simpl.
        split_and!; try done; try (split; [done|]; by intros ?%Hnot). }
      destruct (figure_of _ _ _) as [e|fig]; simpl; rewrite Hpage; simpl.
      * split_and!; try done; try (split; [done|]; by intros ?%Hnot).
      * split_and!; try done; try (split; [done|]; by intros ?%Hnot).
        intros _. by exists names, f.
Qed.

Lemma length_segments (segs : list ((Q * Q) * (Q * Q))) :
  length (concat (map segment_x segs)) = (3 * length segs)%nat.
Proof. induction segs as [|p segs IH]; [done|]. simpl. rewrite IH. lia. Qed.

(** X11. On a first run over a directory, when the user's pick is a key of
    the loaded dict whose graph is well-formed, covered by its layout and
    has numeric community values, the run ends normally; it shows the
    header, the controls, the metrics and the chart, in this order; the
    two metrics are the number of markers and the number of line segments
    of the chart; and the cache holds the dict as loaded. *)
Theorem script_shows_chart fs choice (s : @session rng) names name G :
  resource_cache s !! GRAPHML_FOLDER = None →
  fs GRAPHML_FOLDER = os.Directory names →
  dict_keys (loaded GRAPHML_FOLDER names ∅) !! choice = Some name →
  loaded GRAPHML_FOLDER names ∅ !! name = Some G →
  nx.wf G = true → covers (layout G) G = true → numeric_colors G = true →
  ∃ fig,
    run_script fs choice s
    = (Ok tt,
       mk_session
         (page s ++ page_header
          ++ page_controls (dict_keys (loaded GRAPHML_FOLDER names ∅))
          ++ page_metrics name G ++ page_chart fig)
         (stdout s ++ failure_lines read_graphml str_exn GRAPHML_FOLDER names)
         (<[GRAPHML_FOLDER := Some (loaded GRAPHML_FOLDER names ∅)]>
            (resource_cache s))
         (np_state s))
    ∧ nx.number_of_nodes G = Z.of_nat (length (marker_size fig))
    ∧ 3 * nx.number_of_edges G = Z.of_nat (length (edge_trace_x fig)).
Proof.
  intros Hcache Hfs Hchoice Hname Hwf Hcov Hnum.
  destruct (figure_of_total float_str _ _ Hwf Hcov Hnum) as [fig Hfig].
  exists fig. rewrite script_run, Hcache, Hfs. unfold show_result.
  assert (size (loaded GRAPHML_FOLDER names ∅) ≠ 0%nat) as Hsize.
  { intros Hz%map_size_empty_iff. by rewrite Hz in Hname. }
  apply Nat.eqb_neq in Hsize. rewrite Hsize.
  rewrite show_network_run by (simpl; apply lookup_insert_eq).
  rewrite Hchoice. simpl. rewrite Hname. simpl. rewrite Hfig.
  split; [unfold shown; simpl; by rewrite <- !app_assoc|].
  apply figure_of_Ok in Hfig as (items & segs & Hitems & Hsegs & -> & _). simpl.
  rewrite length_segments, length_map.
  rewrite <- (Forall2_length _ _ _ Hitems), <- (Forall2_length _ _ _ Hsegs).
  rewrite number_of_edges_length by done.
  unfold nx.number_of_nodes, nx.nodes. rewrite length_map. lia.
Qed.

(** X12. Once a run has got a result from the loader, every later run
    gives the same outcome whatever the file system has become, prints
    nothing, and leaves the cache as it is. *)
Theorem rerun_uses_cache fs1 fs2 fs3 choice1 choice2 (s : @session rng) :
  resource_cache s !! GRAPHML_FOLDER = None →
  fs1 GRAPHML_FOLDER ≠ os.RegularFile →
  let s1 := rerun (run_script fs1 choice1 s).2 in
  run_script fs2 choice2 s1 = run_script fs3 choice2 s1
  ∧ stdout (run_script fs2 choice2 s1).2 = stdout s1
  ∧ resource_cache (run_script fs2 choice2 s1).2 = resource_cache s1.
Proof.
  intros Hcache Hfs1.
  assert (∃ v, resource_cache (run_script fs1 choice1 s).2 !! GRAPHML_FOLDER = Some v)
    as [v Hv].
  { rewrite script_run, Hcache.
    destruct (fs1 GRAPHML_FOLDER) as [| |names]; [|done|].
    - eexists. simpl. apply lookup_insert_eq.
    - eexists.
      match goal with |- context [show ?v choice1 ?s0] =>
        destruct (show_result_keeps v choice1 s0) as [l ->];
          [simpl; apply lookup_insert_eq|]
      end.
      simpl. apply lookup_insert_eq. }
  intros s1.
  assert (resource_cache s1 !! GRAPHML_FOLDER = Some v) as Hv1 by done.
  rewrite !script_run, Hv1.
  split; [done|].
  destruct (show_result_keeps v choice2 (shown page_header s1)) as [l ->]; [done|].
  done.
Qed.

End ScriptFacts.

(** ** The further properties on the sample data *)

(** The triangle under a layout without [b]: [KeyError] for [b]. *)
Lemma missing_position_raises_triangle :
  create_plotly_graph Sample.RandomState SampleApp.sparse_layout Sample.float_str
    "sample" (mk_world Sample.triangle 0)
  = (Raise (KeyError "b"), mk_world Sample.triangle 0).
Proof.
  apply (missing_position_raises Sample.RandomState SampleApp.sparse_layout
           Sample.float_str "sample" (mk_world Sample.triangle 0) ["a"] "b" ["c"]).
  - vm_compute. reflexivity.
  - apply Forall_cons_2; [|apply Forall_nil_2]. eexists. vm_compute. reflexivity.
  - vm_compute. reflexivity.
Defined.

(** The graph with a textual community on [a] and none on [b]. *)
Lemma mixed_colors_raise_sample :
  Sample.run Sample.mixed = (Raise TypeError, mk_world Sample.mixed 0).
Proof.
  apply (mixed_colors_raise Sample.RandomState Sample.grid_layout Sample.float_str
           "sample" (mk_world Sample.mixed 0)
           (mk_row "a" {["community_id" := VStr "x"]} []) (mk_row "b" ∅ [])).
  - vm_compute. reflexivity.
  - vm_compute. reflexivity.
  - apply (list_elem_of_lookup_2 _ 0%nat). vm_compute. reflexivity.
  - vm_compute. reflexivity.
  - apply (list_elem_of_lookup_2 _ 1%nat). vm_compute. reflexivity.
  - vm_compute. reflexivity.
Defined.

(** The colour bounds on the star. *)
Lemma color_bounds_star :
  ∃ fig,
    Sample.run Sample.star = (Ok fig, mk_world Sample.star 0)
    ∧ (∀ c, c ∈ marker_color fig →
            (num_of (marker_cmin fig) <= num_of c)%Q
            ∧ (num_of c <= num_of (marker_cmax fig))%Q)
    ∧ (marker_color fig ≠ [] →
       marker_cmin fig ∈ marker_color fig ∧ marker_cmax fig ∈ marker_color fig)
    ∧ (marker_color fig = [] →
       marker_cmin fig = VInt 0 ∧ marker_cmax fig = VInt 1).
Proof.
  eexists. split; [vm_compute; reflexivity|].
  apply (color_bounds Sample.RandomState Sample.grid_layout Sample.float_str
           "sample" (mk_world Sample.star 0) (mk_world Sample.star 0)).
  - vm_compute. reflexivity.
  - repeat (apply Forall_cons_2; [vm_compute; reflexivity|]). apply Forall_nil_2.
Defined.

(** The node trace of the star. *)
Lemma node_trace_entries_star :
  ∃ fig,
    Sample.run Sample.star = (Ok fig, mk_world Sample.star 0)
    ∧ ∀ i r, Sample.star !! i = Some r →
        ∃ xy, layout_of Sample.RandomState Sample.grid_layout Sample.star !! nid r
              = Some xy
              ∧ node_trace_x fig !! i = Some xy.1
              ∧ node_trace_y fig !! i = Some xy.2
              ∧ marker_color fig !! i
                = Some (default (VInt 0) (ndata r !! "community_id")).
Proof.
  eexists. split; [vm_compute; reflexivity|].
  apply (node_trace_entries Sample.RandomState Sample.grid_layout Sample.float_str
           "sample" (mk_world Sample.star 0) (mk_world Sample.star 0)).
  - apply wf_NoDup. vm_compute. reflexivity.
  - vm_compute. reflexivity.
Defined.

(** The sample graph with textual sizes, as parsed and as cleaned. *)
Lemma cleaning_keeps_figure_sized :
  ∃ fig1 fig2 w2',
    Sample.run SampleFs.sized = (Ok fig1, mk_world SampleFs.sized 0)
    ∧ Sample.run (clean_attributes SampleFs.float_of_string SampleFs.sized).2
      = (Ok fig2, w2')
    ∧ marker_size fig1 = marker_size fig2
    ∧ hovertext fig1 = hovertext fig2
    ∧ marker_color fig1 = marker_color fig2
    ∧ marker_cmin fig1 = marker_cmin fig2
    ∧ marker_cmax fig1 = marker_cmax fig2.
Proof.
  eexists _, _, _.
  split; [vm_compute; reflexivity|]. split; [vm_compute; reflexivity|].
  eapply (cleaning_keeps_figure Sample.RandomState Sample.grid_layout
           Sample.float_str SampleFs.float_of_string "sample" SampleFs.sized 0 0
           (mk_world SampleFs.sized 0)); vm_compute; reflexivity.
Defined.

(** The sample folder [broken] prints one line, for [bad.graphml]. *)
Lemma loader_log_broken :
  (SampleFs.load "broken").2
  = [] ++ failure_lines SampleFs.read_graphml SampleFs.str_exn "broken"
            ["a.graphml"; "bad.graphml"; "b.graphml"]
  ∧ length (failure_lines SampleFs.read_graphml SampleFs.str_exn "broken"
              ["a.graphml"; "bad.graphml"; "b.graphml"])
    = length (filter (λ f, endswith f ".graphml" = true
                           ∧ is_ok (SampleFs.read_graphml (os.join "broken" f)) = false)
                ["a.graphml"; "bad.graphml"; "b.graphml"])
  ∧ (Forall (λ f, endswith f ".graphml" = true →
                  is_ok (SampleFs.read_graphml (os.join "broken" f)) = true)
       ["a.graphml"; "bad.graphml"; "b.graphml"] →
     (SampleFs.load "broken").2 = []).
Proof.
  apply (loader_log SampleFs.read_graphml SampleFs.float_of_string SampleFs.str_exn
           SampleFs.fs "broken" ["a.graphml"; "bad.graphml"; "b.graphml"] []).
  reflexivity.
Defined.

(** In the folder [twins] the key [a] holds the graph of
    [a.graphml.graphml], which is listed after [a.graphml]. *)
Lemma last_file_wins_twins :
  ∃ d out',
    load_all_networks SampleApp.fs SampleApp.read_graphml SampleFs.float_of_string
      SampleFs.str_exn "twins" []
    = (Ok (Some d), out')
    ∧ d !! network_name_of "a.graphml.graphml"
      = Some (clean_attributes SampleFs.float_of_string Sample.triangle).2.
Proof.
  apply (last_file_wins SampleApp.read_graphml SampleFs.float_of_string
           SampleFs.str_exn SampleApp.fs "twins" ["a.graphml"] "a.graphml.graphml"
           ["b.graphml"; "notes.txt"] Sample.triangle []).
  - reflexivity.
  - vm_compute. reflexivity.
  - vm_compute. reflexivity.
  - apply (proj1 (list.Forall_forall
             (λ g, endswith g ".graphml" = true →
                   is_ok (SampleApp.read_graphml (os.join "twins" g)) = true →
                   network_name_of g ≠ network_name_of "a.graphml.graphml") _)).
    repeat (apply Forall_cons_2;
              [first [intros _ _; vm_compute; discriminate
                     |intros H; vm_compute in H; discriminate H]|]).
    apply Forall_nil_2.
Defined.

(** A first run over the sample folder [data]. *)
Lemma script_messages_data :
  (existsb is_error_box (page (SampleApp.run SampleFs.fs 0 SampleApp.fresh).2) = true
   ↔ SampleFs.fs GRAPHML_FOLDER = os.Missing)
  ∧ (existsb is_warning_box (page (SampleApp.run SampleFs.fs 0 SampleApp.fresh).2)
     = true
     ↔ ∃ names, SampleFs.fs GRAPHML_FOLDER = os.Directory names
                ∧ ∀ f, f ∈ names → endswith f ".graphml" = true →
                       is_ok (SampleFs.read_graphml (os.join GRAPHML_FOLDER f)) = false)
  ∧ (existsb is_chart (page (SampleApp.run SampleFs.fs 0 SampleApp.fresh).2) = true
     → ∃ names f, SampleFs.fs GRAPHML_FOLDER = os.Directory names ∧ f ∈ names
                  ∧ endswith f ".graphml" = true
                  ∧ is_ok (SampleFs.read_graphml (os.join GRAPHML_FOLDER f)) = true).
Proof.
  apply (script_messages Sample.RandomState Sample.grid_layout Sample.float_str
           SampleFs.read_graphml SampleFs.float_of_string SampleFs.str_exn
           SampleApp.dict_keys SampleFs.fs 0 SampleApp.fresh).
  - reflexivity.
  - vm_compute. reflexivity.
Defined.

(** A first run over the sample folder [data] with the star picked. *)
Lemma script_shows_chart_data :
  ∃ fig,
    SampleApp.run SampleFs.fs 1 SampleApp.fresh
    = (Ok tt,
       mk_session
         (page SampleApp.fresh ++ page_header
          ++ page_controls
               (SampleApp.dict_keys
                  (load_dict SampleFs.read_graphml SampleFs.float_of_string
                     GRAPHML_FOLDER ["a.graphml"; "b.graphml"; "notes.txt"] ∅))
          ++ page_metrics "b" Sample.star ++ page_chart fig)
         (stdout SampleApp.fresh
          ++ failure_lines SampleFs.read_graphml SampleFs.str_exn GRAPHML_FOLDER
               ["a.graphml"; "b.graphml"; "notes.txt"])
         (<[GRAPHML_FOLDER :=
              Some (load_dict SampleFs.read_graphml SampleFs.float_of_string
                      GRAPHML_FOLDER ["a.graphml"; "b.graphml"; "notes.txt"] ∅)]>
            (resource_cache SampleApp.fresh))
         (np_state SampleApp.fresh))
    ∧ nx.number_of_nodes Sample.star = Z.of_nat (length (marker_size fig))
    ∧ 3 * nx.number_of_edges Sample.star = Z.of_nat (length (edge_trace_x fig)).
Proof.
  apply (script_shows_chart Sample.RandomState Sample.grid_layout Sample.float_str
           SampleFs.read_graphml SampleFs.float_of_string SampleFs.str_exn
           SampleApp.dict_keys SampleFs.fs 1 SampleApp.fresh
           ["a.graphml"; "b.graphml"; "notes.txt"] "b" Sample.star);
    vm_compute; reflexivity.
Defined.

(** After a first run over the sample folder [data], a run sees the same
    whether the folder has lost a file or has gone. *)
Lemma rerun_uses_cache_data :
  let s1 := rerun (SampleApp.run SampleFs.fs 0 SampleApp.fresh).2 in
  SampleApp.run SampleFs.fs_repaired 1 s1 = SampleApp.run (λ _, os.Missing) 1 s1
  ∧ stdout (SampleApp.run SampleFs.fs_repaired 1 s1).2 = stdout s1
  ∧ resource_cache (SampleApp.run SampleFs.fs_repaired 1 s1).2 = resource_cache s1.
Proof.
  apply (rerun_uses_cache Sample.RandomState Sample.grid_layout Sample.float_str
           SampleFs.read_graphml SampleFs.float_of_string SampleFs.str_exn
           SampleApp.dict_keys SampleFs.fs SampleFs.fs_repaired (λ _, os.Missing)
           0 1 SampleApp.fresh).
  - vm_compute. reflexivity.
  - vm_compute. discriminate.
Defined.
